(** * Transpile Box: the task-distribution pipeline of [src/App.jsx]

    A shallow embedding of the coordinator logic of the [App] component:
    file intake ([handleFiles], [readNextChunk], [reader.onload]), the
    start action ([handleConvert]), the scheduler ([processQueue]), the
    completion handler ([handleWorkerMessage]), export
    ([handleDownloadZip]), session reset ([handleClear]) and
    [removeFile].

    React state ([files], [progress], [activeWorkers], [isProcessing],
    [toast]) and the two mutable refs ([workersRef], [queueRef]) are
    fields of one [state] record that every handler threads explicitly.
    Each handler runs to completion before the next event, so a handler is
    a function [state -> state]; functional updaters
    ([setFiles(prev => ...)]) are applied to the state in program order.

    Two handlers read [files] directly from their closure
    ([handleConvert] and [handleDownloadZip]): what they see is the
    registry of the last render, which may lag behind the state.  The
    field [rendered] is that registry.  A click handler's own update shows
    in the render that ends its event; the updates queued by the callbacks
    of a [FileReader] or of a worker show at a later render, an event of
    its own ([render]).

    The asynchronous part of the intake is explicit as well: [readers]
    are the [FileReader]s whose read has been started and whose [onload]
    has not fired yet, [timers] the pending [setTimeout(readNextChunk, 50)]
    calls.  Reads complete in any order.

    Messages posted to the web workers are appended to the [posted] log,
    which is how the dispatch order is observed.  A worker answers the
    posts it received until it is terminated; [terminated] tells which
    part of the log went to workers that [terminateWorkers] has stopped.

    JavaScript strings are strings of characters, numbers are integers
    ([Z]), [null] and [undefined] are spelled out where the code tells
    them apart.  The transformation itself (Babel, inside the worker) and
    the archive library (JSZip) are outside the repository: the first is a
    parameter of the worker script, the second a parameter of the export.
    The timer that hides a toast is not modelled. *)

From Stdlib Require Import List String Ascii Bool Arith ZArith Lia Permutation.
Import ListNotations.

Local Open Scope string_scope.
Local Open Scope list_scope.

(** ** JavaScript strings and values *)

Module JS.

(** [s.startsWith(pat)] *)
Fixpoint startsWith (s pat : string) : bool :=
  match pat, s with
  | EmptyString, _ => true
  | String p pat', String c s' => Ascii.eqb c p && startsWith s' pat'
  | String _ _, EmptyString => false
  end.

(** [s.endsWith(suf)]: some tail of [s] is [suf]. *)
Fixpoint endsWith (s suf : string) : bool :=
  String.eqb s suf ||
  match s with
  | EmptyString => false
  | String _ s' => endsWith s' suf
  end.

(** [s.includes(sub)]: [sub] starts at some position of [s]. *)
Fixpoint includes (s sub : string) : bool :=
  startsWith s sub ||
  match s with
  | EmptyString => false
  | String _ s' => includes s' sub
  end.

Fixpoint drop (n : nat) (s : string) : string :=
  match n, s with
  | S n', String _ s' => drop n' s'
  | _, _ => s
  end.

(** [s.replace(pat, rep)] with a string pattern: only the first
    occurrence of [pat] is replaced ([rep] holds no [$] pattern). *)
Fixpoint replace (s pat rep : string) : string :=
  if startsWith s pat then rep ++ drop (String.length pat) s
  else match s with
       | EmptyString => EmptyString
       | String c s' => String c (replace s' pat rep)
       end.

(** [s.replace(/\.ext$/, rep)]: the pattern is a literal anchored at the
    end of the input, so only a final occurrence is replaced.  [lit] is
    the literal with its dot, e.g. [".ts"]. *)
Fixpoint replace_at_end (s lit rep : string) : string :=
  if String.eqb s lit then rep
  else match s with
       | EmptyString => EmptyString
       | String c s' => String c (replace_at_end s' lit rep)
       end.

(** Truthiness of a value that is [null] or a string. *)
Definition truthy (v : option string) : bool :=
  match v with
  | Some s => negb (String.eqb s "")
  | None => false
  end.

(** The values a worker's [currentId] property takes: absent on a fresh
    worker object, [null] once freed, a task id while busy. *)
Inductive ident : Type :=
| undefined
| null
| str (s : string).

(** [v === id] for a string [id]. *)
Definition strict_eq (v : ident) (id : string) : bool :=
  match v with
  | str s => String.eqb s id
  | _ => false
  end.

End JS.

(** ** Data model *)

(** A browser [File] as the intake reads it: its name, its
    [webkitRelativePath] (empty unless picked through a directory) and the
    text [FileReader.readAsText] delivers. *)
Module File.
Record t := mk { name : string; webkitRelativePath : string; text : string }.
End File.

(** An entry of the [files] state (a Task Record). *)
Module FileRec.
Record t := mk {
  id : string;
  originalName : string;
  newName : string;
  originalPath : string;
  newPath : string;
  inputContent : string;
  content : option string;
  status : string;
  error : option string
}.
End FileRec.

(** An entry of [queueRef.current], also the payload posted to a worker. *)
Module Task.
Record t := mk { id : string; content : string; filename : string }.
End Task.

(** An entry of [workersRef.current]; the [Worker] object itself is
    represented by the [posted] log of the state. *)
Module Worker.
Record t := mk { id : nat; busy : bool; currentId : JS.ident }.
End Worker.

(** [e.data] of a worker's message: the worker posts
    [{ success: true, id, content }] or [{ success: false, id, error }]. *)
Module Msg.
Inductive t : Type :=
| success (id content : string)
| failure (id error : string).

Definition id (m : t) : string :=
  match m with success i _ => i | failure i _ => i end.
End Msg.

Module Progress.
Record t := mk { current : Z; total : Z }.
End Progress.

Module Toast.
Record t := mk { show : bool; msg : string; type : string }.
End Toast.

(** The state of the coordinator: the React state [files],
    [isProcessing], [progress], [activeWorkers], [toast]; the refs
    [workersRef] and [queueRef]; and what the component has in flight
    outside of them: the registry of the last render ([rendered]), the
    reads started ([readers]), the timers set ([timers]), the messages
    posted to workers ([posted]) and how many of these, from the start
    of the log, went to workers terminated since ([terminated]). *)
Record state := mkState {
  files : list FileRec.t;
  rendered : list FileRec.t;
  isProcessing : bool;
  progress : Progress.t;
  activeWorkers : Z;
  toast : Toast.t;
  workersRef : list Worker.t;
  queueRef : list Task.t;
  readers : list File.t;
  timers : list (list File.t * nat);
  posted : list (nat * Task.t);
  terminated : nat
}.

Definition set_files (v : list FileRec.t) (s : state) : state :=
  mkState v (rendered s) (isProcessing s) (progress s) (activeWorkers s)
          (toast s) (workersRef s) (queueRef s) (readers s) (timers s)
          (posted s) (terminated s).
Definition set_rendered (v : list FileRec.t) (s : state) : state :=
  mkState (files s) v (isProcessing s) (progress s) (activeWorkers s)
          (toast s) (workersRef s) (queueRef s) (readers s) (timers s)
          (posted s) (terminated s).
Definition set_isProcessing (v : bool) (s : state) : state :=
  mkState (files s) (rendered s) v (progress s) (activeWorkers s)
          (toast s) (workersRef s) (queueRef s) (readers s) (timers s)
          (posted s) (terminated s).
Definition set_progress (v : Progress.t) (s : state) : state :=
  mkState (files s) (rendered s) (isProcessing s) v (activeWorkers s)
          (toast s) (workersRef s) (queueRef s) (readers s) (timers s)
          (posted s) (terminated s).
Definition set_activeWorkers (v : Z) (s : state) : state :=
  mkState (files s) (rendered s) (isProcessing s) (progress s) v
          (toast s) (workersRef s) (queueRef s) (readers s) (timers s)
          (posted s) (terminated s).
Definition set_toast (v : Toast.t) (s : state) : state :=
  mkState (files s) (rendered s) (isProcessing s) (progress s)
          (activeWorkers s) v (workersRef s) (queueRef s) (readers s)
          (timers s) (posted s) (terminated s).
Definition set_workersRef (v : list Worker.t) (s : state) : state :=
  mkState (files s) (rendered s) (isProcessing s) (progress s)
          (activeWorkers s) (toast s) v (queueRef s) (readers s) (timers s)
          (posted s) (terminated s).
Definition set_queueRef (v : list Task.t) (s : state) : state :=
  mkState (files s) (rendered s) (isProcessing s) (progress s)
          (activeWorkers s) (toast s) (workersRef s) v (readers s) (timers s)
          (posted s) (terminated s).
Definition set_readers (v : list File.t) (s : state) : state :=
  mkState (files s) (rendered s) (isProcessing s) (progress s)
          (activeWorkers s) (toast s) (workersRef s) (queueRef s) v
          (timers s) (posted s) (terminated s).
Definition set_timers (v : list (list File.t * nat)) (s : state) : state :=
  mkState (files s) (rendered s) (isProcessing s) (progress s)
          (activeWorkers s) (toast s) (workersRef s) (queueRef s) (readers s)
          v (posted s) (terminated s).
Definition set_posted (v : list (nat * Task.t)) (s : state) : state :=
  mkState (files s) (rendered s) (isProcessing s) (progress s)
          (activeWorkers s) (toast s) (workersRef s) (queueRef s) (readers s)
          (timers s) v (terminated s).

Definition set_terminated (v : nat) (s : state) : state :=
  mkState (files s) (rendered s) (isProcessing s) (progress s)
          (activeWorkers s) (toast s) (workersRef s) (queueRef s) (readers s)
          (timers s) (posted s) v.

(** The initial render: [useState] and [useRef] initial values. *)
Definition init : state :=
  mkState [] [] false (Progress.mk 0 0) 0 (Toast.mk false "" "success")
          [] [] [] [] [] 0.

(** ** Rendering *)

(** A render of the component: the closures of the handlers now see the
    current [files]. *)
Definition render (s : state) : state := set_rendered (files s) s.

(** [setFiles(update)] called from a click handler.  The updater is
    applied to the state, after the updates queued before it.  React
    renders again before the event of the click ends, and that render
    applies the updater to the registry the page showed, so the next
    click sees the handler's own update, while the updates queued by the
    callbacks of a [FileReader] or of a worker wait for the next
    [render].  ([setFiles] called from such a callback only changes the
    state, [set_files].) *)
Definition setFilesInEvent (update : list FileRec.t -> list FileRec.t)
                           (s : state) : state :=
  set_rendered (update (rendered s)) (set_files (update (files s)) s).

(** ** Workers *)

(** [navigator.hardwareConcurrency || 4]; [None] is [undefined]. *)
Definition concurrency (hardwareConcurrency : option nat) : nat :=
  match hardwareConcurrency with
  | Some (S n) => S n
  | _ => 4
  end.

(** The loop of [initWorkers]: workers [i], [i+1], ... pushed in order. *)
Fixpoint fresh_workers (i n : nat) : list Worker.t :=
  match n with
  | O => []
  | S n' => Worker.mk i false JS.undefined :: fresh_workers (S i) n'
  end.

Definition initWorkers (hc : option nat) (s : state) : state :=
  if Nat.ltb 0 (List.length (workersRef s)) then s
  else set_workersRef (workersRef s ++ fresh_workers 0 (concurrency hc)) s.

(** [terminateWorkers].  [w.worker.terminate()] stops every worker of the
    pool: whatever these workers were sent, they post no result any more.
    All the posts of the log went to workers of this pool or of an
    earlier, terminated one, so after the call the whole log is of posts
    to terminated workers; [terminated] records its length. *)
Definition terminateWorkers (s : state) : state :=
  set_activeWorkers 0 (set_workersRef [] (set_terminated (List.length (posted s)) s)).

Definition showToast (msg type : string) (s : state) : state :=
  set_toast (Toast.mk true msg type) s.

(** ** Scheduler *)

(** [workersRef.current.find(w => !w.busy)] followed by the in-place
    update [busy = true; currentId = taskId] of the worker found.  Returns
    the worker's [id] and the updated pool, [None] when [find] returns
    [undefined]. *)
Fixpoint assign (taskId : string) (ws : list Worker.t)
  : option (nat * list Worker.t) :=
  match ws with
  | [] => None
  | w :: ws' =>
      if negb (Worker.busy w)
      then Some (Worker.id w, Worker.mk (Worker.id w) true (JS.str taskId) :: ws')
      else match assign taskId ws' with
           | Some (i, ws'') => Some (i, w :: ws'')
           | None => None
           end
  end.

(** [processQueue].  The recursion of the source follows a [shift()] of
    [queueRef.current], so it descends on the queue, passed as [q]; the
    [queueRef] field is kept equal to it. *)
Fixpoint processQueue_from (q : list Task.t) (s : state) : state :=
  match q with
  | [] =>
      let s := set_queueRef [] s in
      if forallb (fun w => negb (Worker.busy w)) (workersRef s)
      then set_isProcessing false s
      else s
  | task :: q' =>
      match assign (Task.id task) (workersRef s) with
      | Some (i, ws) =>
          let s := set_queueRef q' s in
          let s := set_workersRef ws s in
          let s := set_activeWorkers (activeWorkers s + 1) s in
          let s := set_posted (posted s ++ [(i, task)]) s in
          processQueue_from q' s
      | None => set_queueRef q s
      end
  end.

Definition processQueue (s : state) : state :=
  processQueue_from (queueRef s) s.

(** ** Completion handler *)

(** The updater of [setFiles] in [handleWorkerMessage]. *)
Definition applyResult (m : Msg.t) (f : FileRec.t) : FileRec.t :=
  if String.eqb (FileRec.id f) (Msg.id m) then
    FileRec.mk (FileRec.id f) (FileRec.originalName f) (FileRec.newName f)
               (FileRec.originalPath f) (FileRec.newPath f)
               (FileRec.inputContent f)
               (match m with Msg.success _ c => Some c | Msg.failure _ _ => None end)
               "complete"
               (match m with Msg.success _ _ => None | Msg.failure _ e => Some e end)
  else f.

Definition holds (id : string) (w : Worker.t) : bool :=
  Worker.busy w && JS.strict_eq (Worker.currentId w) id.

(** [workersRef.current.find(w => w.busy && w.currentId === id)] followed
    by [busy = false; currentId = null] on the worker found; [None] when
    no worker is found. *)
Fixpoint release (id : string) (ws : list Worker.t) : option (list Worker.t) :=
  match ws with
  | [] => None
  | w :: ws' =>
      if holds id w then Some (Worker.mk (Worker.id w) false JS.null :: ws')
      else match release id ws' with
           | Some ws'' => Some (w :: ws'')
           | None => None
           end
  end.

(** [handleWorkerMessage] is the [onmessage] of a worker, not a click
    handler: its [setFiles] changes the state only. *)
Definition handleWorkerMessage (m : Msg.t) (s : state) : state :=
  let s := set_files (map (applyResult m) (files s)) s in
  let s := match release (Msg.id m) (workersRef s) with
           | Some ws => set_activeWorkers (activeWorkers s - 1) (set_workersRef ws s)
           | None => s
           end in
  let s := set_progress (Progress.mk (Progress.current (progress s) + 1)
                                     (Progress.total (progress s))) s in
  processQueue s.

(** ** File intake *)

(** [f.name.match(/\.(ts|tsx|jsx|js)$/)], as a truth value: the regular
    expression has no flag, so [$] is the end of the input. *)
Definition matchSourceExt (name : string) : bool :=
  JS.endsWith name ".ts" || JS.endsWith name ".tsx" ||
  JS.endsWith name ".jsx" || JS.endsWith name ".js".

(** The predicate of [validFiles]. *)
Definition validFile (f : File.t) : bool :=
  matchSourceExt (File.name f) && negb (JS.includes (File.name f) ".d.ts").

(** [file.webkitRelativePath || file.name] *)
Definition pathOf (f : File.t) : string :=
  if String.eqb (File.webkitRelativePath f) "" then File.name f
  else File.webkitRelativePath f.

(** [newName] as [reader.onload] computes it. *)
Definition newNameOf (f : File.t) : string :=
  let name := File.name f in
  if JS.endsWith name ".ts" then JS.replace name ".ts" ".js"
  else if JS.endsWith name ".tsx" then JS.replace name ".tsx" ".js"
  else if JS.endsWith name ".jsx" then JS.replace name ".jsx" ".js"
  else name.

(** [newPath] as [reader.onload] computes it. *)
Definition newPathOf (f : File.t) : string :=
  let name := File.name f in
  let path := pathOf f in
  if JS.endsWith name ".ts" then JS.replace_at_end path ".ts" ".js"
  else if JS.endsWith name ".tsx" then JS.replace_at_end path ".tsx" ".js"
  else if JS.endsWith name ".jsx" then JS.replace_at_end path ".jsx" ".js"
  else path.

(** The record [reader.onload] appends for [file]; [id] is the string
    [Date.now() + Math.random().toString(36).substr(2, 9)] evaluates to. *)
Definition recordOf (file : File.t) (id : string) : FileRec.t :=
  FileRec.mk id (File.name file) (newNameOf file) (pathOf file)
             (newPathOf file) (File.text file) None "idle" None.

(** [reader.onload] of the reader started for [file]: a callback of the
    [FileReader], its [setFiles] changes the state only. *)
Definition readerOnload (file : File.t) (id : string) (s : state) : state :=
  set_files (files s ++ [recordOf file id]) s.

Definition CHUNK_SIZE : nat := 20.

(** One call of [readNextChunk], in the closure of a [handleFiles] call
    with its [validFiles] and the current value of [readIndex]: a reader
    is started for every file of the slice
    [validFiles.slice(readIndex, readIndex + CHUNK_SIZE)], and the next
    call is left to a timer while [readIndex < validFiles.length]. *)
Definition readNextChunk (validFiles : list File.t) (readIndex : nat)
                         (s : state) : state :=
  let chunk := firstn CHUNK_SIZE (skipn readIndex validFiles) in
  let s := set_readers (readers s ++ chunk) s in
  let readIndex := readIndex + CHUNK_SIZE in
  if Nat.ltb readIndex (List.length validFiles)
  then set_timers (timers s ++ [(validFiles, readIndex)]) s
  else s.

(** [handleFiles]: what the handler does before it returns.  No record is
    created yet: each one is created by the [onload] of its reader. *)
Definition handleFiles (hc : option nat) (fileList : list File.t)
                       (s : state) : state :=
  match fileList with
  | [] => s
  | _ :: _ =>
      let s := if Nat.eqb (List.length (workersRef s)) 0 then initWorkers hc s else s in
      let validFiles := filter validFile fileList in
      match validFiles with
      | [] => showToast "No valid TS/JS files found" "error" s
      | _ :: _ => readNextChunk validFiles 0 s
      end
  end.

(** [l] without its element at position [k]. *)
Definition removeAt {A : Type} (k : nat) (l : list A) : list A :=
  firstn k l ++ skipn (S k) l.

(** The read of the [k]-th started reader completes: its [onload] runs,
    generating [id].  Nothing happens when there is no such reader. *)
Definition fileLoaded (k : nat) (id : string) (s : state) : state :=
  match nth_error (readers s) k with
  | Some file => readerOnload file id (set_readers (removeAt k (readers s)) s)
  | None => s
  end.

(** The [k]-th pending timer fires: [readNextChunk] runs in its
    closure. *)
Definition timerFired (k : nat) (s : state) : state :=
  match nth_error (timers s) k with
  | Some (validFiles, readIndex) =>
      readNextChunk validFiles readIndex (set_timers (removeAt k (timers s)) s)
  | None => s
  end.

(** The files whose read is still to complete: those being read and those
    left for the timers. *)
Definition pendingReads (s : state) : list File.t :=
  readers s ++ flat_map (fun t => skipn (snd t) (fst t)) (timers s).

(** One schedule of the intake among many: every timer fires, oldest
    first, then the reads complete in the order they were started.
    [fuel] bounds the number of timers. *)
Fixpoint fireTimers (fuel : nat) (s : state) : state :=
  match fuel with
  | O => s
  | S fuel' =>
      match timers s with
      | [] => s
      | _ :: _ => fireTimers fuel' (timerFired 0 s)
      end
  end.

Definition loadInOrder (ids : list string) (s : state) : state :=
  fold_left (fun s id => fileLoaded 0 id s) ids s.

(** [handleFiles] on the picked files, followed by that schedule.  A
    picked file comes with the id its [onload] generates; a timer per
    picked file is more than enough fuel. *)
Definition intakeInOrder (hc : option nat) (picked : list (File.t * string))
                         (s : state) : state :=
  let s := handleFiles hc (map fst picked) s in
  let s := fireTimers (List.length picked) s in
  loadInOrder (map snd (filter (fun it => validFile (fst it)) picked)) s.

(** Any schedule of the reads: the reader at position [fst l] completes
    and its [onload] generates the id [snd l], for each [l] in turn. *)
Definition loadAll (loads : list (nat * string)) (s : state) : state :=
  fold_left (fun s l => fileLoaded (fst l) (snd l) s) loads s.

(** The files whose read completes under that schedule, each with the
    id generated for it, in the order of completion; [rs] are the readers
    at the start. *)
Fixpoint completions (loads : list (nat * string)) (rs : list File.t)
  : list (File.t * string) :=
  match loads with
  | [] => []
  | (k, id) :: loads' =>
      match nth_error rs k with
      | Some file => (file, id) :: completions loads' (removeAt k rs)
      | None => completions loads' rs
      end
  end.

(** ** Start action *)

Definition isIdle (f : FileRec.t) : bool := String.eqb (FileRec.status f) "idle".

Definition taskOf (f : FileRec.t) : Task.t :=
  Task.mk (FileRec.id f) (FileRec.inputContent f) (FileRec.originalName f).

Definition markPending (f : FileRec.t) : FileRec.t :=
  if isIdle f then
    FileRec.mk (FileRec.id f) (FileRec.originalName f) (FileRec.newName f)
               (FileRec.originalPath f) (FileRec.newPath f)
               (FileRec.inputContent f) (FileRec.content f) "pending"
               (FileRec.error f)
  else f.

(** [handleConvert].  [idleFiles] is taken from the [files] of the
    handler's closure, the registry as rendered; the count added to
    [total] and the tasks pushed on the queue come from it.  The updater
    of [setFiles] runs on the state. *)
Definition handleConvert (s : state) : state :=
  let idleFiles := filter isIdle (rendered s) in
  match idleFiles with
  | [] => s
  | _ :: _ =>
      let s := set_isProcessing true s in
      let s := set_progress
                 (Progress.mk (Progress.current (progress s))
                              (Progress.total (progress s)
                               + Z.of_nat (List.length idleFiles))) s in
      let s := set_queueRef (queueRef s ++ map taskOf idleFiles) s in
      let s := setFilesInEvent (map markPending) s in
      processQueue s
  end.

(** ** Export *)

(** [!file.error && file.content] *)
Definition zippable (f : FileRec.t) : bool :=
  negb (JS.truthy (FileRec.error f)) && JS.truthy (FileRec.content f).

(** The value [file.content] has where [zippable] holds. *)
Definition contentText (f : FileRec.t) : string :=
  match FileRec.content f with Some c => c | None => "" end.

Section Archive.

(** The archive library, loaded from a CDN: the type of a [JSZip] object,
    [new window.JSZip()] and [zip.file(path, content)]. *)
Variable Zip : Type.
Variable newZip : Zip.
Variable zipFile : string -> string -> Zip -> Zip.

(** The [forEach] loop: [zip.file(file.newPath, file.content)] for the
    records the test lets through, in the order of [files]. *)
Definition addFiles (fs : list FileRec.t) : Zip :=
  fold_left (fun zip f => zipFile (FileRec.newPath f) (contentText f) zip)
            (filter zippable fs) newZip.

(** [handleDownloadZip]; [jszip] tells whether [window.JSZip] is loaded.
    [files] is the one of the handler's closure, the registry as
    rendered.  The archive is returned exactly when [window.saveAs] is
    reached. *)
Definition handleDownloadZip (jszip : bool) (s : state) : state * option Zip :=
  if negb jszip then (s, None)
  else
    let zip := addFiles (rendered s) in
    let addedCount := List.length (filter zippable (rendered s)) in
    if Nat.eqb addedCount 0
    then (showToast "No valid files to zip" "error" s, None)
    else (showToast "Download started!" "success" s, Some zip).

End Archive.

Arguments addFiles {Zip} newZip zipFile fs.
Arguments handleDownloadZip {Zip} newZip zipFile jszip s.

(** An archive seen as the calls [zip.file(path, content)] made on it, in
    order. *)
Definition zipCalls : Type := list (string * string).

Definition recordCall (path content : string) (zip : zipCalls) : zipCalls :=
  zip ++ [(path, content)].

(** The arguments of [zip.file(file.newPath, file.content)]. *)
Definition entryOf (f : FileRec.t) : string * string :=
  (FileRec.newPath f, contentText f).

(** What the export leaves in the state. *)
Definition download (jszip : bool) (s : state) : state :=
  fst (handleDownloadZip [] recordCall jszip s).

(** ** Session reset and removal *)

(** [handleClear]; the reads in flight and the timers of the intake are
    not cancelled. *)
Definition handleClear (hc : option nat) (s : state) : state :=
  let s := set_queueRef [] s in
  let s := terminateWorkers s in
  let s := initWorkers hc s in
  let s := setFilesInEvent (fun _ => []) s in
  let s := set_progress (Progress.mk 0 0) s in
  set_isProcessing false s.

Definition removeFile (id : string) (s : state) : state :=
  setFilesInEvent (filter (fun f => negb (String.eqb (FileRec.id f) id))) s.

(** ** Events and reachable states *)

(** One event of the coordinator.  A timer or a reader that does not
    exist does nothing; a worker message is any message. *)
Inductive step (hc : option nat) : state -> state -> Prop :=
| step_files fileList s : step hc s (handleFiles hc fileList s)
| step_timeout k s : step hc s (timerFired k s)
| step_onload k id s : step hc s (fileLoaded k id s)
| step_render s : step hc s (render s)
| step_convert s : step hc s (handleConvert s)
| step_message m s : step hc s (handleWorkerMessage m s)
| step_zip jszip s : step hc s (download jszip s)
| step_clear s : step hc s (handleClear hc s)
| step_remove id s : step hc s (removeFile id s).

Inductive reachable (hc : option nat) : state -> Prop :=
| reach_init : reachable hc init
| reach_step s s' : reachable hc s -> step hc s s' -> reachable hc s'.


(** ** Observations used by the statements *)

Definition busyCount (s : state) : nat :=
  List.length (filter Worker.busy (workersRef s)).

Definition hasStatus (st : string) (f : FileRec.t) : bool :=
  String.eqb (FileRec.status f) st.

Definition statusCount (st : string) (s : state) : nat :=
  List.length (filter (hasStatus st) (files s)).

(** The scheduler has nothing left to do: the queue is empty or no worker
    is free. *)
Definition saturated (s : state) : Prop :=
  queueRef s = [] \/ forallb Worker.busy (workersRef s) = true.

(** One dispatch: the state [processQueue] recurses on after it has
    given the queue head [task] to worker [i]; [q] is the rest of the
    queue and [ws] the pool with worker [i] marked. *)
Definition dispatched (i : nat) (ws : list Worker.t) (task : Task.t)
                      (q : list Task.t) (s : state) : state :=
  let s := set_queueRef q s in
  let s := set_workersRef ws s in
  let s := set_activeWorkers (activeWorkers s + 1) s in
  set_posted (posted s ++ [(i, task)]) s.

(** The state the scheduler is run on by [handleWorkerMessage]. *)
Definition reconciled (m : Msg.t) (s : state) : state :=
  let s := set_files (map (applyResult m) (files s)) s in
  let s := match release (Msg.id m) (workersRef s) with
           | Some ws => set_activeWorkers (activeWorkers s - 1) (set_workersRef ws s)
           | None => s
           end in
  set_progress (Progress.mk (Progress.current (progress s) + 1)
                            (Progress.total (progress s))) s.

(** A sequence of worker results, delivered one after the other. *)
Definition deliver (ms : list Msg.t) (s : state) : state :=
  fold_left (fun s m => handleWorkerMessage m s) ms s.

(** The lifecycle shape of a record: before completion it carries neither
    output nor error; once [complete] it carries exactly one of them. *)
Definition wellShaped (f : FileRec.t) : Prop :=
  ((FileRec.status f = "idle" \/ FileRec.status f = "pending")
   /\ FileRec.content f = None /\ FileRec.error f = None)
  \/ (FileRec.status f = "complete"
      /\ ((exists c, FileRec.content f = Some c /\ FileRec.error f = None)
          \/ (exists e, FileRec.content f = None /\ FileRec.error f = Some e))).

(** A record is exported when it is [complete], has no error and a
    non-empty output. *)
Definition exportable (f : FileRec.t) : bool :=
  hasStatus "complete" f
  && match FileRec.error f with None => true | Some _ => false end
  && match FileRec.content f with
     | Some c => negb (String.eqb c "")
     | None => false
     end.

(** What every reachable state satisfies. *)
Record invariant (s : state) : Prop := {
  inv_busy : Z.of_nat (busyCount s) = activeWorkers s;
  inv_shape : Forall wellShaped (files s);
  inv_shown : Forall wellShaped (rendered s);
  inv_saturated : saturated s;
  inv_pool : workersRef s = [] ->
             files s = [] /\ rendered s = [] /\ queueRef s = [] /\
             readers s = [] /\ timers s = [];
  inv_reads : Forall (fun f => validFile f = true) (pendingReads s)
}.

(** ** Concrete scenarios *)

Module Scenario.

Definition f1 : File.t := File.mk "f1.ts" "" "let a: number = 1".
Definition f2 : File.t := File.mk "f2.tsx" "proj/f2.tsx" "const b = <p/>".
Definition f3 : File.t := File.mk "f3.js" "" "var c".
Definition decl : File.t := File.mk "types.d.ts" "" "declare const d: number".
Definition icons : File.t := File.mk "icons.d.tsx" "" "export const i = <i/>".
Definition tsconfig : File.t :=
  File.mk "my.tsconfig.ts" "src/my.tsconfig.ts" "export default {}".

(** Three files picked and read, two workers; the page shows them. *)
Definition loaded : state :=
  render (intakeInOrder (Some 2) [(f1, "i1"); (f2, "i2"); (f3, "i3")] init).

(** ... after the start action. *)
Definition started : state := handleConvert loaded.

Definition done1 : Msg.t := Msg.success "i1" "let a = 1;".
Definition failed2 : Msg.t := Msg.failure "i2" "Unexpected token".
Definition done3 : Msg.t := Msg.success "i3" "var c;".

(** ... after the first file completed. *)
Definition firstDone : state := handleWorkerMessage done1 started.

(** ... after the second file failed and the third completed, and the
    page shows it. *)
Definition allDone : state :=
  render (handleWorkerMessage done3 (handleWorkerMessage failed2 firstDone)).

(** One file picked, started and completed with an empty output. *)
Definition emptyOutput : state :=
  render (handleWorkerMessage (Msg.success "i1" "")
            (handleConvert (render (intakeInOrder None [(f1, "i1")] init)))).

(** The three files picked with a pool of one worker. *)
Definition single : state :=
  render (intakeInOrder (Some 1) [(f1, "i1"); (f2, "i2"); (f3, "i3")] init).

(** A session reset in the middle of processing. *)
Definition cleared : state := handleClear (Some 2) started.

(** [a.ts] and [a.js] picked together and both transformed. *)
Definition twins : state :=
  render
    (handleWorkerMessage (Msg.success "i2" "var a;")
       (handleWorkerMessage (Msg.success "i1" "let a;")
          (handleConvert
             (render
                (intakeInOrder (Some 2)
                   [(File.mk "a.ts" "" "let a: any", "i1");
                    (File.mk "a.js" "" "var a", "i2")] init))))).

(** The start button is clicked when the page shows [f1] only: [f2] has
    been read but not rendered yet. *)
Definition early : state :=
  fileLoaded 0 "i2"
    (render (fileLoaded 0 "i1" (handleFiles (Some 2) [f1; f2] init))).

Definition earlyStarted : state := handleConvert early.

End Scenario.

(** [pat] occurs in [s] somewhere before the end: at a position where
    more than [pat] is left. *)
Fixpoint occursBeforeEnd (s pat : string) : bool :=
  match s with
  | EmptyString => false
  | String _ s' =>
      (JS.startsWith s pat && negb (String.eqb s pat)) || occursBeforeEnd s' pat
  end.

(** ** The worker script *)

Section WorkerScript.

(** [Babel.transform(content, { filename, presets, ... })]: the code it
    returns, or the [message] of the error it throws.  The coordinator
    never sends [options], so the worker always uses its own. *)
Variable transform : string -> string -> string + string.

(** [self.onmessage] of [WORKER_CODE], as the message it posts back for
    the task it received. *)
Definition workerOnMessage (task : Task.t) : Msg.t :=
  match transform (Task.content task) (Task.filename task) with
  | inl output => Msg.success (Task.id task) output
  | inr message =>
      Msg.failure (Task.id task)
                  (JS.replace message (Task.filename task ++ ": ") "")
  end.

(** The worker that received the [j]-th post of the log answers.  The
    browser runs its [onmessage], [handleWorkerMessage], unless the
    worker has been terminated, in which case nothing happens. *)
Definition workerReply (j : nat) (s : state) : state :=
  match nth_error (posted s) j with
  | Some (_, task) =>
      if Nat.ltb j (terminated s) then s
      else handleWorkerMessage (workerOnMessage task) s
  | None => s
  end.

End WorkerScript.

(** ** Lifecycle of a record *)

(** The place of a status in the lifecycle [idle], [pending],
    [complete]. *)
Definition statusRank (st : string) : nat :=
  if String.eqb st "idle" then 0
  else if String.eqb st "pending" then 1
  else 2.

(** [f'] is the record [f] at the same or a later point of its
    lifecycle: same id, names, paths and input. *)
Definition laterOf (f f' : FileRec.t) : Prop :=
  FileRec.id f' = FileRec.id f /\
  FileRec.originalName f' = FileRec.originalName f /\
  FileRec.newName f' = FileRec.newName f /\
  FileRec.originalPath f' = FileRec.originalPath f /\
  FileRec.newPath f' = FileRec.newPath f /\
  FileRec.inputContent f' = FileRec.inputContent f /\
  statusRank (FileRec.status f) <= statusRank (FileRec.status f').

(** ** Events as data *)

Inductive event : Type :=
| Files (fileList : list File.t)
| Timeout (k : nat)
| Onload (k : nat) (id : string)
| Render
| Convert
| Message (m : Msg.t)
| DownloadZip (jszip : bool)
| Clear
| Remove (id : string).

Definition handle (hc : option nat) (e : event) (s : state) : state :=
  match e with
  | Files fileList => handleFiles hc fileList s
  | Timeout k => timerFired k s
  | Onload k id => fileLoaded k id s
  | Render => render s
  | Convert => handleConvert s
  | Message m => handleWorkerMessage m s
  | DownloadZip jszip => download jszip s
  | Clear => handleClear hc s
  | Remove id => removeFile id s
  end.

(** The states reached by events that all satisfy [ok]. *)
Inductive reached (ok : event -> state -> Prop) (hc : option nat) : state -> Prop :=
| reached_init : reached ok hc init
| reached_step e s :
    reached ok hc s -> ok e s -> reached ok hc (handle hc e s).

(** Workers answer only for the task they hold: a message arrives for
    an id that some busy worker holds. *)
Definition answered (e : event) (s : state) : Prop :=
  match e with
  | Message m => release (Msg.id m) (workersRef s) <> None
  | _ => True
  end.

(** The ids held by the busy workers, in pool order. *)
Definition heldBy (w : Worker.t) : list string :=
  if Worker.busy w then
    match Worker.currentId w with
    | JS.str id => [id]
    | _ => []
    end
  else [].

Definition heldIds (ws : list Worker.t) : list string := flat_map heldBy ws.

(** [id] is in use nowhere: no record, no queued task and no worker
    carries it. *)
Definition unused (id : string) (s : state) : Prop :=
  ~ In id (map FileRec.id (files s)) /\
  ~ In id (map Task.id (queueRef s)) /\
  ~ In id (heldIds (workersRef s)).

(** The id an [onload] generates is new. *)
Definition freshIds (e : event) (s : state) : Prop :=
  match e with
  | Onload _ id => unused id s
  | _ => True
  end.

(** Both: the workers answer for the tasks they hold and the ids are
    new. *)
Definition genuine (e : event) (s : state) : Prop :=
  answered e s /\ freshIds e s.

(** How often [id] is waiting or running: as the id of an idle record,
    of a queued task, of a busy worker. *)
Definition idleWith (id : string) (s : state) : nat :=
  List.length (filter (fun f => isIdle f && String.eqb (FileRec.id f) id) (files s)).
Definition queuedWith (id : string) (s : state) : nat :=
  List.length (filter (fun t => String.eqb (Task.id t) id) (queueRef s)).
Definition heldWith (id : string) (s : state) : nat :=
  List.length (filter (holds id) (workersRef s)).

(** ... and as the id of an idle record of the page. *)
Definition shownIdleWith (id : string) (s : state) : nat :=
  List.length (filter (fun f => isIdle f && String.eqb (FileRec.id f) id) (rendered s)).

(** How many records carry [id]. *)
Definition recordsWith (id : string) (s : state) : nat :=
  List.length (filter (fun f => String.eqb (FileRec.id f) id) (files s)).

(** Every message of [ms], delivered in turn from [s], is the answer
    for a task that some busy worker holds at that moment. *)
Fixpoint answeredRun (ms : list Msg.t) (s : state) : Prop :=
  match ms with
  | [] => True
  | m :: ms' =>
      release (Msg.id m) (workersRef s) <> None /\
      answeredRun ms' (handleWorkerMessage m s)
  end.

(** No id is waiting or running more than once. *)
Definition oncePerId (s : state) : Prop :=
  forall id, idleWith id s + heldWith id s + queuedWith id s <= 1.

(** The same with the idle records of the page, and: the page shows no
    record whose id the registry does not have. *)
Record oncePerShownId (s : state) : Prop := {
  shown_once : forall id, shownIdleWith id s + heldWith id s + queuedWith id s <= 1;
  shown_ids : forall f, In f (rendered s) ->
                        In (FileRec.id f) (map FileRec.id (files s))
}.

(** With workers that answer for their tasks and new ids: an id belongs
    to one record at most; a record the page shows idle is idle; a record
    whose task is queued or with a worker is [pending]. *)
Record tracked (s : state) : Prop := {
  tr_unique : forall id, recordsWith id s <= 1;
  tr_shown : forall g f, In g (rendered s) -> isIdle g = true ->
                         In f (files s) -> FileRec.id f = FileRec.id g ->
                         isIdle f = true;
  tr_pending : forall f, In f (files s) ->
                         In (FileRec.id f)
                            (heldIds (workersRef s) ++ map Task.id (queueRef s)) ->
                         FileRec.status f = "pending"
}.

(** A record is left behind: it is [pending], yet its task is neither
    queued nor with a worker. *)
Definition stranded (id : string) (s : state) : Prop :=
  (exists f, In f (files s) /\ FileRec.id f = id /\ FileRec.status f = "pending") /\
  heldWith id s + queuedWith id s = 0.

(** The id the first busy worker is working on. *)
Fixpoint firstRunning (ws : list Worker.t) : option string :=
  match ws with
  | [] => None
  | w :: ws' =>
      match heldBy w with
      | id :: _ => Some id
      | [] => firstRunning ws'
      end
  end.

(** The workers answer one after the other, the first busy worker
    first, with the result [result] gives for the id, until none is busy
    or [fuel] is used up. *)
Fixpoint drain (result : string -> Msg.t) (fuel : nat) (s : state) : state :=
  match fuel with
  | O => s
  | S fuel' =>
      match firstRunning (workersRef s) with
      | Some id => drain result fuel' (handleWorkerMessage (result id) s)
      | None => s
      end
  end.

(** The counter equation: every task counted in [total] is queued, with
    a worker, or counted in [current]. *)
Definition balanced (s : state) : Prop :=
  (Progress.current (progress s) + Z.of_nat (busyCount s)
   + Z.of_nat (List.length (queueRef s)))%Z
  = Progress.total (progress s).

(** Further facts that every reachable state satisfies. *)
Record coherent (hc : option nat) (s : state) : Prop := {
  coh_flag : isProcessing s = true <-> 0 < busyCount s;
  coh_ids : forall w, In w (workersRef s) -> Worker.busy w = true ->
                      exists id, Worker.currentId w = JS.str id;
  coh_pool : workersRef s = [] \/
             map Worker.id (workersRef s) = seq 0 (concurrency hc)
}.

(** * Facts about the string primitives *)

Section StringFacts.

Lemma str_length_app (a b : string) :
  String.length (a ++ b) = String.length a + String.length b.
Proof. induction a as [|c a IH]; simpl; [reflexivity | now rewrite IH]. Qed.

Lemma app_assoc_str (a b c : string) : ((a ++ b) ++ c = a ++ (b ++ c))%string.
Proof. induction a as [|x a IH]; simpl; [reflexivity | now rewrite IH]. Qed.

Lemma app_empty_r (a : string) : (a ++ "" = a)%string.
Proof. induction a as [|x a IH]; simpl; [reflexivity | now rewrite IH]. Qed.

Lemma startsWith_iff (s pat : string) :
  JS.startsWith s pat = true <-> exists post, s = (pat ++ post)%string.
Proof.
  revert s. induction pat as [|p pat IH]; intros [|c s]; simpl.
  - split; [intros _; now exists "" | reflexivity].
  - split; [intros _; now exists (String c s) | reflexivity].
  - split; [discriminate | intros [post H]; discriminate].
  - rewrite andb_true_iff, Ascii.eqb_eq, IH. split.
    + intros [-> [post ->]]. now exists post.
    + intros [post H]. injection H as -> ->. split; [reflexivity | now exists post].
Qed.

Lemma endsWith_nil (suf : string) :
  JS.endsWith "" suf = String.eqb "" suf.
Proof. unfold JS.endsWith. apply orb_false_r. Qed.

Lemma endsWith_cons (c : ascii) (s suf : string) :
  JS.endsWith (String c s) suf
  = String.eqb (String c s) suf || JS.endsWith s suf.
Proof. reflexivity. Qed.

Lemma includes_nil (sub : string) :
  JS.includes "" sub = JS.startsWith "" sub.
Proof. unfold JS.includes. apply orb_false_r. Qed.

Lemma includes_cons (c : ascii) (s sub : string) :
  JS.includes (String c s) sub
  = JS.startsWith (String c s) sub || JS.includes s sub.
Proof. reflexivity. Qed.

Lemma endsWith_iff (s suf : string) :
  JS.endsWith s suf = true <-> exists pre, s = (pre ++ suf)%string.
Proof.
  induction s as [|c s IH].
  - rewrite endsWith_nil, String.eqb_eq. split.
    + intros <-. now exists "".
    + intros [[|d pre] H]; [exact H | discriminate].
  - rewrite endsWith_cons, orb_true_iff, String.eqb_eq, IH. split.
    + intros [<- | [pre ->]]; [now exists "" | now exists (String c pre)].
    + intros [[|d pre] H]; [now left | right].
      simpl in H. injection H as -> ->. now exists pre.
Qed.

Lemma includes_iff (s sub : string) :
  JS.includes s sub = true <->
  exists pre post, s = (pre ++ sub ++ post)%string.
Proof.
  induction s as [|c s IH].
  - rewrite includes_nil, startsWith_iff. split.
    + intros [post H]. now exists "", post.
    + intros [[|d pre] [post H]]; [now exists post | discriminate].
  - rewrite includes_cons, orb_true_iff, startsWith_iff, IH. split.
    + intros [[post H] | [pre [post ->]]].
      * now exists "", post.
      * now exists (String c pre), post.
    + intros [[|d pre] [post H]].
      * left. now exists post.
      * right. simpl in H. injection H as -> ->. now exists pre, post.
Qed.

(** Two suffixes of one string: one is a suffix of the other. *)
Lemma endsWith_both (s a b : string) :
  JS.endsWith s a = true -> JS.endsWith s b = true ->
  JS.endsWith a b = true \/ JS.endsWith b a = true.
Proof.
  intros Ha Hb.
  apply endsWith_iff in Ha as [p Hp]. apply endsWith_iff in Hb as [q Hq].
  subst s. revert q Hq. induction p as [|c p IH]; intros q Hq.
  - left. apply endsWith_iff. now exists q.
  - destruct q as [|d q].
    + right. apply endsWith_iff. exists (String c p). symmetry. exact Hq.
    + simpl in Hq. injection Hq as _ Hq. exact (IH q Hq).
Qed.

(** Suffixes of which none ends with the other exclude each other. *)
Lemma endsWith_excl (s a b : string) :
  JS.endsWith a b = false -> JS.endsWith b a = false ->
  JS.endsWith s a = true -> JS.endsWith s b = false.
Proof.
  intros Hab Hba Ha. destruct (JS.endsWith s b) eqn:Hb; [|reflexivity].
  destruct (endsWith_both s a b Ha Hb); congruence.
Qed.

(** A suffix is never strictly longer than the string. *)
Lemma endsWith_length (s suf : string) :
  JS.endsWith s suf = true -> String.length suf <= String.length s.
Proof.
  intros H. apply endsWith_iff in H as [p ->]. rewrite str_length_app. lia.
Qed.

Lemma replace_at_end_nil (lit rep : string) :
  JS.replace_at_end "" lit rep = if String.eqb "" lit then rep else "".
Proof. reflexivity. Qed.

Lemma replace_at_end_cons (c : ascii) (s lit rep : string) :
  JS.replace_at_end (String c s) lit rep
  = if String.eqb (String c s) lit then rep
    else String c (JS.replace_at_end s lit rep).
Proof. reflexivity. Qed.

Lemma replace_at_end_app (pre lit rep : string) :
  JS.replace_at_end (pre ++ lit) lit rep = (pre ++ rep)%string.
Proof.
  induction pre as [|c pre IH].
  - change ("" ++ lit)%string with lit. change ("" ++ rep)%string with rep.
    destruct lit.
    + reflexivity.
    + now rewrite replace_at_end_cons, String.eqb_refl.
  - change (String c pre ++ lit)%string with (String c (pre ++ lit)).
    rewrite replace_at_end_cons.
    destruct (String.eqb_spec (String c (pre ++ lit)) lit) as [E|_].
    + apply (f_equal String.length) in E. simpl in E.
      rewrite str_length_app in E. lia.
    + now rewrite IH.
Qed.

Lemma replace_at_end_noop (s lit rep : string) :
  JS.endsWith s lit = false -> JS.replace_at_end s lit rep = s.
Proof.
  induction s as [|c s IH].
  - rewrite endsWith_nil, replace_at_end_nil. now intros ->.
  - rewrite endsWith_cons, replace_at_end_cons. intros H.
    apply orb_false_iff in H as [-> H2]. now rewrite (IH H2).
Qed.

End StringFacts.

(** * Facts about the worker pool *)

Section PoolFacts.

Lemma fresh_workers_free (i n : nat) :
  filter Worker.busy (fresh_workers i n) = [].
Proof. revert i. induction n as [|n IH]; intros i; simpl; auto. Qed.

Lemma fresh_workers_length (i n : nat) :
  List.length (fresh_workers i n) = n.
Proof. revert i. induction n as [|n IH]; intros i; simpl; auto. Qed.

Lemma fresh_workers_not_busy (i n : nat) (w : Worker.t) :
  In w (fresh_workers i n) -> Worker.busy w = false.
Proof.
  revert i. induction n as [|n IH]; intros i; simpl; [tauto|].
  intros [<- | H]; [reflexivity | exact (IH _ H)].
Qed.

(** [assign] succeeds exactly when some worker is free. *)
Lemma assign_None (tid : string) (ws : list Worker.t) :
  assign tid ws = None <-> forallb Worker.busy ws = true.
Proof.
  induction ws as [|w ws IH]; simpl.
  - tauto.
  - destruct (Worker.busy w); simpl.
    + destruct (assign tid ws) as [[i ws']|]; split; intros H;
        try discriminate; try (apply IH in H; discriminate); tauto.
    + split; discriminate.
Qed.

(** [assign] turns the first free worker into a busy one that holds the
    task, and touches no other worker. *)
Lemma assign_Some (tid : string) (ws ws' : list Worker.t) (i : nat) :
  assign tid ws = Some (i, ws') ->
  exists l1 w l2,
    ws = l1 ++ w :: l2 /\ forallb Worker.busy l1 = true /\
    Worker.busy w = false /\ Worker.id w = i /\
    ws' = l1 ++ Worker.mk i true (JS.str tid) :: l2.
Proof.
  revert ws' i. induction ws as [|w ws IH]; simpl; intros ws' i H.
  - discriminate.
  - destruct (Worker.busy w) eqn:Hb; simpl in H.
    + destruct (assign tid ws) as [[j ws'']|] eqn:Ha; [|discriminate].
      injection H as <- <-.
      destruct (IH _ _ eq_refl) as (l1 & w0 & l2 & -> & Hl1 & Hw0 & Hi & ->).
      exists (w :: l1), w0, l2. simpl. rewrite Hb, Hl1. auto.
    + injection H as <- <-. exists [], w, ws. simpl. auto.
Qed.

Lemma assign_busy_count (tid : string) (ws ws' : list Worker.t) (i : nat) :
  assign tid ws = Some (i, ws') ->
  List.length (filter Worker.busy ws') = S (List.length (filter Worker.busy ws)).
Proof.
  intros H. destruct (assign_Some _ _ _ _ H) as (l1 & w & l2 & -> & _ & Hw & _ & ->).
  rewrite !filter_app, !List.length_app. simpl. rewrite Hw. simpl. lia.
Qed.

(** A busy worker stays as it is through [assign]. *)
Lemma assign_keeps_busy (tid : string) (ws ws' : list Worker.t) (i : nat) (w : Worker.t) :
  assign tid ws = Some (i, ws') ->
  In w ws -> Worker.busy w = true -> In w ws'.
Proof.
  intros H Hin Hb.
  destruct (assign_Some _ _ _ _ H) as (l1 & w0 & l2 & -> & _ & Hw0 & _ & ->).
  apply in_app_or in Hin as [Hin | [<- | Hin]].
  - apply in_or_app. now left.
  - congruence.
  - apply in_or_app. right. now right.
Qed.

(** Assigning a task does not change who holds another id. *)
Lemma assign_holders (id tid : string) (ws ws' : list Worker.t) (i : nat) :
  tid <> id -> assign tid ws = Some (i, ws') ->
  filter (holds id) ws' = filter (holds id) ws.
Proof.
  intros Hne H.
  destruct (assign_Some _ _ _ _ H) as (l1 & w & l2 & -> & _ & Hw & _ & ->).
  rewrite !filter_app. f_equal.
  change (filter (holds id) (?x :: l2)) with
    (if holds id x then x :: filter (holds id) l2 else filter (holds id) l2).
  assert (E1 : holds id (Worker.mk i true (JS.str tid)) = false).
  { unfold holds. simpl. now apply String.eqb_neq. }
  assert (E2 : holds id w = false) by (unfold holds; now rewrite Hw).
  now rewrite E1, E2.
Qed.

Lemma release_None (id : string) (ws : list Worker.t) :
  release id ws = None <-> filter (holds id) ws = [].
Proof.
  induction ws as [|w ws IH]; simpl.
  - tauto.
  - destruct (holds id w).
    + split; discriminate.
    + destruct (release id ws); split; intros H;
        try discriminate; try (apply IH in H; discriminate); tauto.
Qed.


(** [release] frees the first holder and touches no other worker. *)
Lemma release_Some (id : string) (ws ws' : list Worker.t) :
  release id ws = Some ws' ->
  exists l1 w l2,
    ws = l1 ++ w :: l2 /\ filter (holds id) l1 = [] /\ holds id w = true /\
    ws' = l1 ++ Worker.mk (Worker.id w) false JS.null :: l2.
Proof.
  revert ws'. induction ws as [|w ws IH]; simpl; intros ws' H.
  - discriminate.
  - destruct (holds id w) eqn:Hh.
    + injection H as <-. exists [], w, ws. auto.
    + destruct (release id ws) as [ws''|] eqn:Hr; [|discriminate].
      injection H as <-.
      destruct (IH _ eq_refl) as (l1 & w0 & l2 & -> & Hl1 & Hw0 & ->).
      exists (w :: l1), w0, l2. simpl. rewrite Hh. auto.
Qed.

Lemma release_busy_count (id : string) (ws ws' : list Worker.t) :
  release id ws = Some ws' ->
  List.length (filter Worker.busy ws) = S (List.length (filter Worker.busy ws')).
Proof.
  intros H. destruct (release_Some _ _ _ H) as (l1 & w & l2 & -> & _ & Hw & ->).
  unfold holds in Hw. apply andb_true_iff in Hw as [Hw _].
  rewrite !filter_app, !List.length_app. simpl. rewrite Hw. simpl. lia.
Qed.

(** With at most one holder, nobody holds the id after [release]. *)
Lemma release_single_holder (id : string) (ws ws' : list Worker.t) :
  List.length (filter (holds id) ws) <= 1 ->
  release id ws = Some ws' -> filter (holds id) ws' = [].
Proof.
  intros Hle H. destruct (release_Some _ _ _ H) as (l1 & w & l2 & -> & Hl1 & Hw & ->).
  rewrite filter_app in Hle. simpl in Hle. rewrite Hw, Hl1 in Hle. simpl in Hle.
  assert (E : filter (holds id) l2 = []).
  { destruct (filter (holds id) l2); [reflexivity | simpl in Hle; lia]. }
  rewrite filter_app, Hl1.
  change (filter (holds id) (?x :: l2)) with
    (if holds id x then x :: filter (holds id) l2 else filter (holds id) l2).
  now rewrite E.
Qed.

End PoolFacts.

(** * Facts about the scheduler *)

Section SchedulerFacts.

Lemma processQueue_from_cons (task : Task.t) (q : list Task.t) (s : state) :
  processQueue_from (task :: q) s =
  match assign (Task.id task) (workersRef s) with
  | Some (i, ws) => processQueue_from q (dispatched i ws task q s)
  | None => set_queueRef (task :: q) s
  end.
Proof. reflexivity. Qed.

(** The scheduler never touches the registry, the counters or the toast. *)
Lemma processQueue_from_frame (q : list Task.t) (s : state) :
  files (processQueue_from q s) = files s /\
  progress (processQueue_from q s) = progress s /\
  toast (processQueue_from q s) = toast s.
Proof.
  revert s. induction q as [|task q IH]; intros s.
  - simpl. destruct (forallb _ _); simpl; auto.
  - rewrite processQueue_from_cons.
    destruct (assign _ _) as [[i ws]|]; [|simpl; auto].
    destruct (IH (dispatched i ws task q s)) as (-> & -> & ->). simpl. auto.
Qed.

Lemma processQueue_from_set_files (v : list FileRec.t) (q : list Task.t) (s : state) :
  processQueue_from q (set_files v s) = set_files v (processQueue_from q s).
Proof.
  revert s. induction q as [|task q IH]; intros s.
  - simpl. destruct (forallb _ _); reflexivity.
  - rewrite !processQueue_from_cons.
    change (workersRef (set_files v s)) with (workersRef s).
    destruct (assign _ _) as [[i ws]|]; [|reflexivity].
    change (dispatched i ws task q (set_files v s))
      with (set_files v (dispatched i ws task q s)).
    apply IH.
Qed.

Lemma processQueue_from_set_rendered (v : list FileRec.t) (q : list Task.t) (s : state) :
  processQueue_from q (set_rendered v s) = set_rendered v (processQueue_from q s).
Proof.
  revert s. induction q as [|task q IH]; intros s.
  - simpl. destruct (forallb _ _); reflexivity.
  - rewrite !processQueue_from_cons.
    change (workersRef (set_rendered v s)) with (workersRef s).
    destruct (assign _ _) as [[i ws]|]; [|reflexivity].
    change (dispatched i ws task q (set_rendered v s))
      with (set_rendered v (dispatched i ws task q s)).
    apply IH.
Qed.

Lemma processQueue_from_set_progress (v : Progress.t) (q : list Task.t) (s : state) :
  processQueue_from q (set_progress v s) = set_progress v (processQueue_from q s).
Proof.
  revert s. induction q as [|task q IH]; intros s.
  - simpl. destruct (forallb _ _); reflexivity.
  - rewrite !processQueue_from_cons.
    change (workersRef (set_progress v s)) with (workersRef s).
    destruct (assign _ _) as [[i ws]|]; [|reflexivity].
    change (dispatched i ws task q (set_progress v s))
      with (set_progress v (dispatched i ws task q s)).
    apply IH.
Qed.

(** The counter [activeWorkers] follows the number of busy workers. *)
Lemma processQueue_from_busy (q : list Task.t) (s : state) :
  Z.of_nat (busyCount s) = activeWorkers s ->
  Z.of_nat (busyCount (processQueue_from q s))
  = activeWorkers (processQueue_from q s).
Proof.
  revert s. induction q as [|task q IH]; intros s H.
  - simpl. destruct (forallb _ _); exact H.
  - rewrite processQueue_from_cons.
    destruct (assign _ _) as [[i ws]|] eqn:Ha; [|exact H].
    apply IH. unfold busyCount in *. simpl.
    rewrite (assign_busy_count _ _ _ _ Ha). lia.
Qed.

(** When the scheduler returns, the queue is empty or no worker is free. *)
Lemma processQueue_from_saturated (q : list Task.t) (s : state) :
  saturated (processQueue_from q s).
Proof.
  revert s. induction q as [|task q IH]; intros s.
  - left. simpl. destruct (forallb _ _); reflexivity.
  - rewrite processQueue_from_cons.
    destruct (assign _ _) as [[i ws]|] eqn:Ha; [apply IH|].
    right. simpl. now apply (assign_None (Task.id task)).
Qed.


(** Dispatch order: the log of posted tasks followed by the queue is
    what it was, so tasks leave the queue from its head, in order. *)
Lemma processQueue_from_fifo (q : list Task.t) (s : state) :
  map snd (posted (processQueue_from q s)) ++ queueRef (processQueue_from q s)
  = map snd (posted s) ++ q.
Proof.
  revert s. induction q as [|task q IH]; intros s.
  - simpl. destruct (forallb _ _); reflexivity.
  - rewrite processQueue_from_cons.
    destruct (assign _ _) as [[i ws]|]; [|reflexivity].
    rewrite IH. simpl. rewrite map_app, <- app_assoc. reflexivity.
Qed.

(** The scheduler frees no worker. *)
Lemma processQueue_from_keeps_busy (q : list Task.t) (s : state) (w : Worker.t) :
  In w (workersRef s) -> Worker.busy w = true ->
  In w (workersRef (processQueue_from q s)).
Proof.
  revert s. induction q as [|task q IH]; intros s Hin Hb.
  - simpl. destruct (forallb _ _); exact Hin.
  - rewrite processQueue_from_cons.
    destruct (assign _ _) as [[i ws]|] eqn:Ha; [|exact Hin].
    apply IH; [|exact Hb]. simpl. exact (assign_keeps_busy _ _ _ _ _ Ha Hin Hb).
Qed.

(** Dispatching tasks with other ids does not change who holds [id]. *)
Lemma processQueue_from_holders (id : string) (q : list Task.t) (s : state) :
  (forall t, In t q -> Task.id t <> id) ->
  filter (holds id) (workersRef (processQueue_from q s))
  = filter (holds id) (workersRef s).
Proof.
  revert s. induction q as [|task q IH]; intros s Hq.
  - simpl. destruct (forallb _ _); reflexivity.
  - rewrite processQueue_from_cons.
    destruct (assign _ _) as [[i ws]|] eqn:Ha; [|reflexivity].
    rewrite IH by (intros t Ht; apply Hq; now right). simpl.
    apply (assign_holders id _ _ _ _ (Hq task (or_introl eq_refl)) Ha).
Qed.

(** Running the scheduler again changes nothing. *)
Lemma processQueue_idempotent (q : list Task.t) (s : state) :
  processQueue (processQueue_from q s) = processQueue_from q s.
Proof.
  unfold processQueue. revert s. induction q as [|task q IH]; intros s.
  - simpl. destruct (forallb _ _) eqn:Hf; simpl; rewrite Hf; reflexivity.
  - rewrite processQueue_from_cons.
    destruct (assign _ _) as [[i ws]|] eqn:Ha; [apply IH|].
    simpl queueRef. rewrite processQueue_from_cons.
    change (workersRef (set_queueRef (task :: q) s)) with (workersRef s).
    rewrite Ha. reflexivity.
Qed.

End SchedulerFacts.

(** * Invariants of the reachable states *)

Section Invariants.

Variable hc : option nat.

Lemma concurrency_pos : 0 < concurrency hc.
Proof. unfold concurrency. destruct hc as [[|n]|]; lia. Qed.

Lemma assign_length (tid : string) (ws ws' : list Worker.t) (i : nat) :
  assign tid ws = Some (i, ws') -> List.length ws' = List.length ws.
Proof.
  intros H. destruct (assign_Some _ _ _ _ H) as (l1 & w & l2 & -> & _ & _ & _ & ->).
  now rewrite !List.length_app.
Qed.

Lemma release_length (id : string) (ws ws' : list Worker.t) :
  release id ws = Some ws' -> List.length ws' = List.length ws.
Proof.
  intros H. destruct (release_Some _ _ _ H) as (l1 & w & l2 & -> & _ & _ & ->).
  now rewrite !List.length_app.
Qed.

Lemma processQueue_from_length (q : list Task.t) (s : state) :
  List.length (workersRef (processQueue_from q s)) = List.length (workersRef s).
Proof.
  revert s. induction q as [|task q IH]; intros s.
  - simpl. destruct (forallb _ _); reflexivity.
  - rewrite processQueue_from_cons.
    destruct (assign _ _) as [[i ws]|] eqn:Ha; [|reflexivity].
    rewrite IH. simpl. exact (assign_length _ _ _ _ Ha).
Qed.

Lemma length_nil_iff {A : Type} (l l' : list A) :
  List.length l' = List.length l -> l' = [] -> l = [].
Proof. intros H ->. now destruct l. Qed.

Lemma processQueue_from_shown (q : list Task.t) (s : state) :
  rendered (processQueue_from q s) = rendered s /\
  readers (processQueue_from q s) = readers s /\
  timers (processQueue_from q s) = timers s.
Proof.
  revert s. induction q as [|task q IH]; intros s.
  - simpl. destruct (forallb _ _); simpl; auto.
  - rewrite processQueue_from_cons.
    destruct (assign _ _) as [[i ws]|]; [|simpl; auto].
    destruct (IH (dispatched i ws task q s)) as (-> & -> & ->). simpl. auto.
Qed.

Lemma processQueue_from_reads (q : list Task.t) (s : state) :
  pendingReads (processQueue_from q s) = pendingReads s.
Proof.
  unfold pendingReads.
  now destruct (processQueue_from_shown q s) as (_ & -> & ->).
Qed.

(** ** Lists with one element taken out *)

Lemma removeAt_split {A : Type} (l1 l2 : list A) (a : A) :
  removeAt (List.length l1) (l1 ++ a :: l2) = l1 ++ l2.
Proof.
  unfold removeAt. induction l1 as [|x l1 IH]; simpl; [reflexivity|].
  f_equal. exact IH.
Qed.

Lemma nth_error_removeAt {A : Type} (k : nat) (l : list A) (a : A) :
  nth_error l k = Some a ->
  exists l1 l2, l = l1 ++ a :: l2 /\ List.length l1 = k /\ removeAt k l = l1 ++ l2.
Proof.
  intros H. destruct (nth_error_split _ _ H) as (l1 & l2 & -> & Hk).
  exists l1, l2. split; [reflexivity|]. split; [exact Hk|].
  rewrite <- Hk. apply removeAt_split.
Qed.

Lemma removeAt_Permutation {A : Type} (k : nat) (l : list A) (a : A) :
  nth_error l k = Some a -> Permutation l (a :: removeAt k l).
Proof.
  intros H. destruct (nth_error_removeAt _ _ _ H) as (l1 & l2 & -> & _ & ->).
  symmetry. apply Permutation_middle.
Qed.

Lemma removeAt_head {A : Type} (a : A) (l : list A) : removeAt 0 (a :: l) = l.
Proof. reflexivity. Qed.

(** ** Reads in flight *)

Lemma readNextChunk_frame (vf : list File.t) (i : nat) (s : state) :
  files (readNextChunk vf i s) = files s /\
  rendered (readNextChunk vf i s) = rendered s /\
  isProcessing (readNextChunk vf i s) = isProcessing s /\
  progress (readNextChunk vf i s) = progress s /\
  activeWorkers (readNextChunk vf i s) = activeWorkers s /\
  toast (readNextChunk vf i s) = toast s /\
  workersRef (readNextChunk vf i s) = workersRef s /\
  queueRef (readNextChunk vf i s) = queueRef s /\
  posted (readNextChunk vf i s) = posted s.
Proof.
  unfold readNextChunk. destruct (Nat.ltb _ _); simpl; repeat split.
Qed.

Lemma chunk_rest (vf : list File.t) (i : nat) :
  firstn CHUNK_SIZE (skipn i vf) ++ skipn (i + CHUNK_SIZE) vf = skipn i vf.
Proof.
  rewrite (Nat.add_comm i), <- skipn_skipn. apply firstn_skipn.
Qed.

(** [readNextChunk] starts or schedules the read of every file of its
    closure from [readIndex] on, and of no other. *)
Lemma readNextChunk_reads (vf : list File.t) (i : nat) (s : state) :
  Permutation (pendingReads (readNextChunk vf i s)) (pendingReads s ++ skipn i vf).
Proof.
  unfold readNextChunk, pendingReads.
  destruct (Nat.ltb_spec (i + CHUNK_SIZE) (List.length vf)) as [Hlt|Hge];
    cbn [readers timers set_readers set_timers].
  - rewrite flat_map_app. cbn [flat_map fst snd]. rewrite app_nil_r.
    rewrite <- (chunk_rest vf i) at 2.
    rewrite <- !app_assoc. apply Permutation_app_head.
    rewrite !app_assoc. apply Permutation_app_tail.
    apply Permutation_app_comm.
  - rewrite (firstn_all2 (n := CHUNK_SIZE)) by (rewrite length_skipn; lia).
    rewrite <- !app_assoc. apply Permutation_app_head.
    apply Permutation_app_comm.
Qed.

Lemma timerFired_frame (k : nat) (s : state) :
  files (timerFired k s) = files s /\
  rendered (timerFired k s) = rendered s /\
  isProcessing (timerFired k s) = isProcessing s /\
  progress (timerFired k s) = progress s /\
  activeWorkers (timerFired k s) = activeWorkers s /\
  toast (timerFired k s) = toast s /\
  workersRef (timerFired k s) = workersRef s /\
  queueRef (timerFired k s) = queueRef s /\
  posted (timerFired k s) = posted s.
Proof.
  unfold timerFired. destruct (nth_error _ _) as [[vf i]|]; [|repeat split].
  apply (readNextChunk_frame vf i (set_timers (removeAt k (timers s)) s)).
Qed.

(** A timer that fires moves files from the timers to the readers. *)
Lemma timerFired_reads (k : nat) (s : state) :
  Permutation (pendingReads (timerFired k s)) (pendingReads s).
Proof.
  unfold timerFired. destruct (nth_error _ _) as [[vf i]|] eqn:Hk; [|reflexivity].
  rewrite readNextChunk_reads. unfold pendingReads. simpl.
  rewrite <- app_assoc. apply Permutation_app_head.
  rewrite (Permutation_flat_map _ (removeAt_Permutation _ _ _ Hk)). simpl.
  apply Permutation_app_comm.
Qed.

Lemma fileLoaded_Some (k : nat) (id : string) (s : state) (file : File.t) :
  nth_error (readers s) k = Some file ->
  fileLoaded k id s
  = readerOnload file id (set_readers (removeAt k (readers s)) s).
Proof. unfold fileLoaded. now intros ->. Qed.

Lemma fileLoaded_None (k : nat) (id : string) (s : state) :
  nth_error (readers s) k = None -> fileLoaded k id s = s.
Proof. unfold fileLoaded. now intros ->. Qed.

Lemma fileLoaded_frame (k : nat) (id : string) (s : state) :
  rendered (fileLoaded k id s) = rendered s /\
  isProcessing (fileLoaded k id s) = isProcessing s /\
  progress (fileLoaded k id s) = progress s /\
  activeWorkers (fileLoaded k id s) = activeWorkers s /\
  toast (fileLoaded k id s) = toast s /\
  workersRef (fileLoaded k id s) = workersRef s /\
  queueRef (fileLoaded k id s) = queueRef s /\
  timers (fileLoaded k id s) = timers s /\
  posted (fileLoaded k id s) = posted s.
Proof.
  unfold fileLoaded. destruct (nth_error _ _); repeat split.
Qed.

(** A read that completes leaves the files still to be read, less its
    own. *)
Lemma fileLoaded_reads (k : nat) (id : string) (s : state) (file : File.t) :
  nth_error (readers s) k = Some file ->
  Permutation (pendingReads s) (file :: pendingReads (fileLoaded k id s)).
Proof.
  intros Hk. rewrite (fileLoaded_Some _ _ _ _ Hk). unfold pendingReads. simpl.
  change (file :: removeAt k (readers s) ++ flat_map (fun t => skipn (snd t) (fst t)) (timers s))
    with ((file :: removeAt k (readers s)) ++ flat_map (fun t => skipn (snd t) (fst t)) (timers s)).
  apply Permutation_app_tail. now apply removeAt_Permutation.
Qed.

(** The scheduler preserves the invariant, whatever it starts from as
    long as the busy count and the record shapes are right. *)
Lemma processQueue_invariant (s : state) :
  Z.of_nat (busyCount s) = activeWorkers s ->
  Forall wellShaped (files s) ->
  Forall wellShaped (rendered s) ->
  (workersRef s = [] ->
   files s = [] /\ rendered s = [] /\ queueRef s = [] /\
   readers s = [] /\ timers s = []) ->
  Forall (fun f => validFile f = true) (pendingReads s) ->
  invariant (processQueue s).
Proof.
  intros Hb Hs Hv Hp Hr. unfold processQueue. split.
  - now apply processQueue_from_busy.
  - destruct (processQueue_from_frame (queueRef s) s) as (-> & _). exact Hs.
  - destruct (processQueue_from_shown (queueRef s) s) as (-> & _). exact Hv.
  - apply processQueue_from_saturated.
  - intros Hw.
    apply (length_nil_iff _ _ (processQueue_from_length (queueRef s) s)) in Hw.
    destruct (Hp Hw) as (Hf & Hrd & Hq & Hre & Ht).
    destruct (processQueue_from_frame (queueRef s) s) as (-> & _).
    destruct (processQueue_from_shown (queueRef s) s) as (-> & -> & ->).
    repeat split; try assumption.
    rewrite Hq. simpl. destruct (forallb _ _); reflexivity.
  - now rewrite processQueue_from_reads.
Qed.

Lemma wellShaped_recordOf (file : File.t) (id : string) :
  wellShaped (recordOf file id).
Proof. left. simpl. auto. Qed.

Lemma wellShaped_applyResult (m : Msg.t) (f : FileRec.t) :
  wellShaped f -> wellShaped (applyResult m f).
Proof.
  intros H. unfold applyResult. destruct (String.eqb _ _); [|exact H].
  right. simpl. split; [reflexivity|].
  destruct m as [i c | i e]; [left; now exists c | right; now exists e].
Qed.

Lemma wellShaped_markPending (f : FileRec.t) :
  wellShaped f -> wellShaped (markPending f).
Proof.
  intros H. unfold markPending, isIdle.
  destruct (String.eqb_spec (FileRec.status f) "idle") as [E|_]; [|exact H].
  left. simpl. destruct H as [(_ & Hc & He) | (Hst & _)].
  - auto.
  - rewrite E in Hst. discriminate.
Qed.

Lemma Forall_markPending (l : list FileRec.t) :
  Forall wellShaped l -> Forall wellShaped (map markPending l).
Proof.
  intros H. apply Forall_forall. intros f Hf.
  apply in_map_iff in Hf as (g & <- & Hg).
  apply wellShaped_markPending. revert Hg. now apply Forall_forall.
Qed.

Lemma Forall_filter_shape (p : FileRec.t -> bool) (l : list FileRec.t) :
  Forall wellShaped l -> Forall wellShaped (filter p l).
Proof.
  intros H. apply Forall_forall. intros f Hf. apply filter_In in Hf as [Hf _].
  revert Hf. now apply Forall_forall.
Qed.

Lemma invariant_init : invariant init.
Proof.
  split; simpl; auto. left. reflexivity.
Qed.

Lemma invariant_render (s : state) : invariant s -> invariant (render s).
Proof.
  intros [Hb Hs Hv Hsat Hp Hr]. split; simpl; auto.
  intros E. destruct (Hp E) as (Hf & _ & Hq & Hre & Ht). auto.
Qed.

Lemma invariant_fileLoaded (k : nat) (id : string) (s : state) :
  invariant s -> invariant (fileLoaded k id s).
Proof.
  intros Hinv. destruct (nth_error (readers s) k) as [file|] eqn:Hk.
  - pose proof (fileLoaded_reads k id s file Hk) as Hperm.
    rewrite (fileLoaded_Some _ _ _ _ Hk) in *.
    destruct Hinv as [Hb Hs Hv Hsat Hp Hr]. split; simpl.
    + exact Hb.
    + apply Forall_app. split; [exact Hs|]. constructor; [|constructor].
      apply wellShaped_recordOf.
    + exact Hv.
    + exact Hsat.
    + intros E. destruct (Hp E) as (_ & _ & _ & Hre & _).
      rewrite Hre in Hk. destruct k; discriminate.
    + apply (Permutation_Forall Hperm) in Hr. now inversion Hr.
  - now rewrite (fileLoaded_None _ _ _ Hk).
Qed.

Lemma invariant_timerFired (k : nat) (s : state) :
  invariant s -> invariant (timerFired k s).
Proof.
  intros [Hb Hs Hv Hsat Hp Hr].
  pose proof (timerFired_reads k s) as Hperm.
  destruct (timerFired_frame k s) as (Ef & Ev & _ & _ & Ea & _ & Ew & Eq & _).
  split.
  - unfold busyCount. now rewrite Ew, Ea.
  - now rewrite Ef.
  - now rewrite Ev.
  - unfold saturated. now rewrite Ew, Eq.
  - rewrite Ew, Ef, Ev, Eq. intros E.
    destruct (Hp E) as (Hf & Hrd & Hq & Hre & Ht).
    unfold timerFired. rewrite Ht. destruct k; simpl; auto.
  - symmetry in Hperm. exact (Permutation_Forall Hperm Hr).
Qed.

Lemma invariant_initWorkers (s : state) :
  invariant s -> invariant (initWorkers hc s) /\ workersRef (initWorkers hc s) <> [].
Proof.
  intros [Hb Hs Hv Hsat Hp Hr]. unfold initWorkers.
  destruct (workersRef s) as [|w ws] eqn:Hw; simpl.
  - destruct (Hp eq_refl) as (Hf & Hrd & Hq & Hre & Ht). split.
    + split; simpl; [ | exact Hs | exact Hv | left; exact Hq | | exact Hr ].
      * unfold busyCount in *. simpl.
        rewrite fresh_workers_free. rewrite Hw in Hb. exact Hb.
      * intros E. apply (f_equal (@List.length _)) in E.
        rewrite fresh_workers_length in E. pose proof concurrency_pos. simpl in E. lia.
    + intros E. apply (f_equal (@List.length _)) in E.
      rewrite fresh_workers_length in E. pose proof concurrency_pos. simpl in E. lia.
  - split; [split; auto; congruence | rewrite Hw; discriminate].
Qed.

Lemma invariant_handleFiles (fileList : list File.t) (s : state) :
  invariant s -> invariant (handleFiles hc fileList s).
Proof.
  intros Hinv. unfold handleFiles. destruct fileList as [|it0 rest]; [exact Hinv|].
  set (s1 := if Nat.eqb (List.length (workersRef s)) 0 then initWorkers hc s else s).
  assert (H1 : invariant s1 /\ workersRef s1 <> []).
  { subst s1. destruct (workersRef s) as [|w ws] eqn:Hw; simpl.
    - now apply invariant_initWorkers.
    - split; [exact Hinv | rewrite Hw; discriminate]. }
  destruct H1 as [[Hb Hs Hv Hsat Hp Hr] Hne].
  destruct (filter validFile (it0 :: rest)) as [|v vs] eqn:Hvalid.
  - split; simpl; auto.
  - pose proof (readNextChunk_reads (v :: vs) 0 s1) as Hperm.
    destruct (readNextChunk_frame (v :: vs) 0 s1)
      as (Ef & Ev & _ & _ & Ea & _ & Ew & Eq & _).
    split.
    + unfold busyCount. now rewrite Ew, Ea.
    + now rewrite Ef.
    + now rewrite Ev.
    + unfold saturated. now rewrite Ew, Eq.
    + rewrite Ew. intros E. now elim Hne.
    + symmetry in Hperm. apply (Permutation_Forall Hperm).
      apply Forall_app. split; [exact Hr|]. simpl skipn.
      rewrite <- Hvalid. apply Forall_forall. intros f Hf.
      now apply filter_In in Hf as [_ Hf].
Qed.

Lemma invariant_handleConvert (s : state) :
  invariant s -> invariant (handleConvert s).
Proof.
  intros [Hb Hs Hv Hsat Hp Hr]. unfold handleConvert.
  destruct (filter isIdle (rendered s)) as [|f0 idle] eqn:Hidle.
  - split; auto.
  - apply processQueue_invariant; simpl.
    + exact Hb.
    + now apply Forall_markPending.
    + now apply Forall_markPending.
    + intros Hw. destruct (Hp Hw) as (_ & Hrd & _). rewrite Hrd in Hidle. discriminate.
    + exact Hr.
Qed.

Lemma invariant_handleWorkerMessage (m : Msg.t) (s : state) :
  invariant s -> invariant (handleWorkerMessage m s).
Proof.
  intros [Hb Hs Hv Hsat Hp Hr]. unfold handleWorkerMessage.
  apply processQueue_invariant.
  - simpl. destruct (release _ _) as [ws|] eqn:Hrl; simpl; [|exact Hb].
    unfold busyCount in *. simpl. rewrite (release_busy_count _ _ _ Hrl) in Hb. lia.
  - simpl.
    assert (Hm : Forall wellShaped (map (applyResult m) (files s))).
    { apply Forall_forall. intros f Hf. apply in_map_iff in Hf as (g & <- & Hg).
      apply wellShaped_applyResult. revert Hg. now apply Forall_forall. }
    destruct (release _ _); exact Hm.
  - simpl. destruct (release _ _); exact Hv.
  - simpl. destruct (release _ _) as [ws|] eqn:Hrl; simpl.
    + intros E. apply (length_nil_iff _ _ (release_length _ _ _ Hrl)) in E.
      destruct (Hp E) as (-> & -> & -> & -> & ->). auto.
    + intros E. destruct (Hp E) as (-> & -> & -> & -> & ->). auto.
  - simpl. destruct (release _ _); exact Hr.
Qed.

Lemma invariant_handleClear (s : state) :
  invariant s -> invariant (handleClear hc s).
Proof.
  intros [Hb Hs Hv Hsat Hp Hr].
  unfold handleClear, terminateWorkers, initWorkers. simpl. split; simpl.
  - unfold busyCount. simpl. now rewrite fresh_workers_free.
  - constructor.
  - constructor.
  - now left.
  - intros E. apply (f_equal (@List.length _)) in E.
    rewrite fresh_workers_length in E. pose proof concurrency_pos. simpl in E. lia.
  - exact Hr.
Qed.

Lemma invariant_removeFile (id : string) (s : state) :
  invariant s -> invariant (removeFile id s).
Proof.
  intros [Hb Hs Hv Hsat Hp Hr]. split; simpl; auto.
  - now apply Forall_filter_shape.
  - now apply Forall_filter_shape.
  - intros E. destruct (Hp E) as (-> & -> & -> & -> & ->). auto.
Qed.

Lemma download_frame (jszip : bool) (s : state) :
  download jszip s = s \/ exists t, download jszip s = set_toast t s.
Proof.
  unfold download, handleDownloadZip. destruct jszip; simpl; [|now left].
  destruct (Nat.eqb _ _); right; eexists; reflexivity.
Qed.

Lemma invariant_download (jszip : bool) (s : state) :
  invariant s -> invariant (download jszip s).
Proof.
  intros Hinv. destruct (download_frame jszip s) as [-> | [t ->]]; [exact Hinv|].
  destruct Hinv as [Hb Hs Hv Hsat Hp Hr]. split; simpl; auto.
Qed.

Lemma step_invariant (s s' : state) :
  step hc s s' -> invariant s -> invariant s'.
Proof.
  intros Hstep Hinv. destruct Hstep.
  - now apply invariant_handleFiles.
  - now apply invariant_timerFired.
  - now apply invariant_fileLoaded.
  - now apply invariant_render.
  - now apply invariant_handleConvert.
  - now apply invariant_handleWorkerMessage.
  - now apply invariant_download.
  - now apply invariant_handleClear.
  - now apply invariant_removeFile.
Qed.

Lemma reachable_invariant (s : state) : reachable hc s -> invariant s.
Proof.
  induction 1 as [|s s' _ IH Hstep]; [apply invariant_init|].
  exact (step_invariant s s' Hstep IH).
Qed.

End Invariants.

(** * File intake: filter and name remapping *)

Section Intake.

Lemma initWorkers_frame (hc : option nat) (s : state) :
  files (initWorkers hc s) = files s /\
  rendered (initWorkers hc s) = rendered s /\
  isProcessing (initWorkers hc s) = isProcessing s /\
  progress (initWorkers hc s) = progress s /\
  activeWorkers (initWorkers hc s) = activeWorkers s /\
  toast (initWorkers hc s) = toast s /\
  queueRef (initWorkers hc s) = queueRef s /\
  readers (initWorkers hc s) = readers s /\
  timers (initWorkers hc s) = timers s /\
  posted (initWorkers hc s) = posted s.
Proof. unfold initWorkers. destruct (Nat.ltb _ _); repeat split. Qed.

(** The state [handleFiles] works on once the pool exists. *)
Lemma handleFiles_cons (hc : option nat) (f : File.t) (l : list File.t) (s : state) :
  handleFiles hc (f :: l) s
  = match filter validFile (f :: l) with
    | [] => showToast "No valid TS/JS files found" "error"
              (if Nat.eqb (List.length (workersRef s)) 0 then initWorkers hc s else s)
    | _ :: _ =>
        readNextChunk (filter validFile (f :: l)) 0
          (if Nat.eqb (List.length (workersRef s)) 0 then initWorkers hc s else s)
    end.
Proof. reflexivity. Qed.

Lemma pool_step_frame (hc : option nat) (s : state) :
  let s1 := if Nat.eqb (List.length (workersRef s)) 0 then initWorkers hc s else s in
  files s1 = files s /\ rendered s1 = rendered s /\
  isProcessing s1 = isProcessing s /\ progress s1 = progress s /\
  activeWorkers s1 = activeWorkers s /\ toast s1 = toast s /\
  queueRef s1 = queueRef s /\ readers s1 = readers s /\
  timers s1 = timers s /\ posted s1 = posted s.
Proof.
  simpl. destruct (Nat.eqb _ _); [apply initWorkers_frame | repeat split].
Qed.

(** [handleFiles] creates no record itself. *)
Lemma handleFiles_files (hc : option nat) (fileList : list File.t) (s : state) :
  files (handleFiles hc fileList s) = files s.
Proof.
  destruct fileList as [|f l]; [reflexivity|]. rewrite handleFiles_cons.
  destruct (pool_step_frame hc s) as (E & _).
  destruct (filter validFile (f :: l)) as [|v vs].
  - simpl. exact E.
  - destruct (readNextChunk_frame (v :: vs) 0
                (if Nat.eqb (List.length (workersRef s)) 0 then initWorkers hc s else s))
      as (-> & _). exact E.
Qed.

(** It starts or schedules a read for every item that passes the filter,
    and for no other. *)
Lemma handleFiles_reads (hc : option nat) (fileList : list File.t) (s : state) :
  Permutation (pendingReads (handleFiles hc fileList s))
              (pendingReads s ++ filter validFile fileList).
Proof.
  destruct fileList as [|f l]; [simpl; now rewrite app_nil_r|].
  rewrite handleFiles_cons.
  destruct (pool_step_frame hc s) as (_ & _ & _ & _ & _ & _ & _ & Er & Et & _).
  assert (Ep : pendingReads
                 (if Nat.eqb (List.length (workersRef s)) 0 then initWorkers hc s else s)
               = pendingReads s).
  { unfold pendingReads. now rewrite Er, Et. }
  destruct (filter validFile (f :: l)) as [|v vs].
  - rewrite app_nil_r. unfold pendingReads, showToast. simpl.
    unfold pendingReads in Ep. now rewrite Ep.
  - rewrite readNextChunk_reads, Ep. reflexivity.
Qed.

Lemma firstn_chunk {A : Type} (i n : nat) (l : list A) :
  firstn i l ++ firstn n (skipn i l) = firstn (i + n) l.
Proof.
  revert l. induction i as [|i IH]; intros l; [reflexivity|].
  destruct l as [|a l]; simpl.
  - now rewrite firstn_nil.
  - f_equal. apply IH.
Qed.

Lemma fireTimers_none (fuel : nat) (s : state) :
  timers s = [] -> fireTimers fuel s = s.
Proof. intros H. destruct fuel; simpl; [reflexivity | now rewrite H]. Qed.

Lemma fireTimers_some (fuel : nat) (s : state) (t : list File.t * nat)
                      (ts : list (list File.t * nat)) :
  timers s = (t :: ts) ->
  fireTimers (S fuel) s = fireTimers fuel (timerFired 0 s).
Proof. intros H. simpl. now rewrite H. Qed.

(** When only the timer of one [handleFiles] call is pending, firing it
    again and again starts the read of every file, in order. *)
Lemma fireTimers_all (vf : list File.t) (fuel i : nat) (s : state) :
  readers s = firstn i vf ->
  timers s = (if Nat.ltb i (List.length vf) then [(vf, i)] else []) ->
  List.length vf <= i + fuel ->
  readers (fireTimers fuel s) = vf /\ timers (fireTimers fuel s) = [] /\
  files (fireTimers fuel s) = files s.
Proof.
  revert i s. induction fuel as [|fuel IH]; intros i s Hr Ht Hlen;
    destruct (Nat.ltb_spec i (List.length vf)) as [Hlt|Hge].
  - lia.
  - simpl. rewrite Hr, Ht, firstn_all2 by lia. auto.
  - rewrite (fireTimers_some _ _ _ _ Ht).
    assert (E : timerFired 0 s = readNextChunk vf i (set_timers [] s)).
    { unfold timerFired. now rewrite Ht. }
    rewrite E.
    destruct (IH (i + CHUNK_SIZE) (readNextChunk vf i (set_timers [] s)))
      as (H1 & H2 & H3).
    + unfold readNextChunk. destruct (Nat.ltb _ _);
        cbn [readers set_readers set_timers]; rewrite Hr; apply firstn_chunk.
    + unfold readNextChunk. destruct (Nat.ltb _ _);
        cbn [timers readers set_readers set_timers]; reflexivity.
    + unfold CHUNK_SIZE. lia.
    + split; [exact H1|]. split; [exact H2|]. rewrite H3.
      now destruct (readNextChunk_frame vf i (set_timers [] s)) as (-> & _).
  - rewrite (fireTimers_none _ _ Ht), Hr, Ht, firstn_all2 by lia. auto.
Qed.

(** The reads complete in the order they were started. *)
Lemma loadInOrder_all (l : list (File.t * string)) (s : state) :
  readers s = map fst l ->
  files (loadInOrder (map snd l) s)
  = files s ++ map (fun it => recordOf (fst it) (snd it)) l /\
  readers (loadInOrder (map snd l) s) = [] /\
  timers (loadInOrder (map snd l) s) = timers s.
Proof.
  revert s. induction l as [|[f id] l IH]; intros s Hr; simpl.
  - rewrite app_nil_r. auto.
  - unfold loadInOrder in *. simpl in Hr.
    assert (E : fileLoaded 0 id s = readerOnload f id (set_readers (map fst l) s)).
    { unfold fileLoaded. rewrite Hr. reflexivity. }
    rewrite E.
    destruct (IH (readerOnload f id (set_readers (map fst l) s)) eq_refl)
      as (H1 & H2 & H3).
    rewrite H1, H2, H3. simpl. rewrite <- app_assoc. auto.
Qed.

Lemma filter_map_fst (l : list (File.t * string)) :
  filter validFile (map fst l) = map fst (filter (fun it => validFile (fst it)) l).
Proof.
  induction l as [|it l IH]; simpl; [reflexivity|].
  destruct (validFile (fst it)); simpl; now rewrite IH.
Qed.

(** With no other read in flight, the intake whose reads complete in
    order appends the records of the valid files, in the order they were
    picked, and leaves no read behind. *)
Lemma readNextChunk_readers (vf : list File.t) (i : nat) (s : state) :
  readers (readNextChunk vf i s)
  = readers s ++ firstn CHUNK_SIZE (skipn i vf).
Proof. unfold readNextChunk. now destruct (Nat.ltb _ _). Qed.

Lemma readNextChunk_timers (vf : list File.t) (i : nat) (s : state) :
  timers (readNextChunk vf i s)
  = timers s ++ (if Nat.ltb (i + CHUNK_SIZE) (List.length vf)
                 then [(vf, i + CHUNK_SIZE)] else []).
Proof.
  unfold readNextChunk. destruct (Nat.ltb _ _);
    cbn [timers set_timers set_readers]; [reflexivity | now rewrite app_nil_r].
Qed.

Lemma intakeInOrder_files (hc : option nat) (picked : list (File.t * string)) (s : state) :
  readers s = [] -> timers s = [] ->
  files (intakeInOrder hc picked s)
  = files s ++ map (fun it => recordOf (fst it) (snd it))
                   (filter (fun it => validFile (fst it)) picked) /\
  pendingReads (intakeInOrder hc picked s) = [].
Proof.
  intros Hr Ht. unfold intakeInOrder.
  destruct picked as [|it0 rest].
  - simpl. rewrite app_nil_r. unfold pendingReads. now rewrite Hr, Ht.
  - remember (it0 :: rest) as picked eqn:Hpicked.
    remember (if Nat.eqb (List.length (workersRef s)) 0 then initWorkers hc s else s)
      as s1 eqn:Hs1.
    assert (Hh : handleFiles hc (map fst picked) s
                 = match filter validFile (map fst picked) with
                   | [] => showToast "No valid TS/JS files found" "error" s1
                   | _ :: _ => readNextChunk (filter validFile (map fst picked)) 0 s1
                   end).
    { subst picked s1. apply handleFiles_cons. }
    rewrite Hh, filter_map_fst. clear Hh.
    destruct (pool_step_frame hc s) as (Ef & _ & _ & _ & _ & _ & _ & Er & Et & _).
    rewrite <- Hs1 in Ef, Er, Et.
    remember (filter (fun it => validFile (fst it)) picked) as valid eqn:Hvalid.
    assert (Hlen : List.length valid <= List.length picked)
      by (subst valid; apply filter_length_le).
    clear Hvalid Hpicked Hs1.
    destruct valid as [|v vs].
    + cbn [map]. rewrite fireTimers_none by (cbn; congruence).
      cbn [loadInOrder fold_left]. rewrite app_nil_r. split; [exact Ef|].
      unfold pendingReads. cbn. now rewrite Er, Et, Hr, Ht.
    + set (valid := v :: vs) in *.
      assert (Hm : forall a b : state,
                 match map fst valid with [] => a | _ :: _ => b end = b)
        by reflexivity.
      rewrite Hm. clear Hm. clearbody valid.
      destruct (fireTimers_all (map fst valid) (List.length picked) CHUNK_SIZE
                  (readNextChunk (map fst valid) 0 s1)) as (F1 & F2 & F3).
      * rewrite readNextChunk_readers, Er, Hr. reflexivity.
      * rewrite readNextChunk_timers, Et, Ht. reflexivity.
      * rewrite length_map. lia.
      * destruct (loadInOrder_all valid
                    (fireTimers (List.length picked) (readNextChunk (map fst valid) 0 s1)) F1)
          as (L1 & L2 & L3).
        rewrite L1, F3.
        destruct (readNextChunk_frame (map fst valid) 0 s1) as (-> & _).
        split; [now rewrite Ef|].
        unfold pendingReads. now rewrite L2, L3, F2.
Qed.

Lemma matchSourceExt_iff (name : string) :
  matchSourceExt name = true <->
  (exists pre, name = (pre ++ ".ts")%string) \/
  (exists pre, name = (pre ++ ".tsx")%string) \/
  (exists pre, name = (pre ++ ".jsx")%string) \/
  (exists pre, name = (pre ++ ".js")%string).
Proof.
  unfold matchSourceExt. rewrite !orb_true_iff, !endsWith_iff. tauto.
Qed.

Lemma validFile_iff (f : File.t) :
  validFile f = true <->
  ((exists pre, File.name f = (pre ++ ".ts")%string) \/
   (exists pre, File.name f = (pre ++ ".tsx")%string) \/
   (exists pre, File.name f = (pre ++ ".jsx")%string) \/
   (exists pre, File.name f = (pre ++ ".js")%string)) /\
  ~ (exists pre post, File.name f = (pre ++ ".d.ts" ++ post)%string).
Proof.
  unfold validFile.
  rewrite andb_true_iff, negb_true_iff, matchSourceExt_iff, <- includes_iff.
  split; intros [H1 H2]; (split; [exact H1|]).
  - now rewrite H2.
  - now destruct (JS.includes (File.name f) ".d.ts").
Qed.

(** The path is remapped at its end: for a file whose path ends with its
    name, the final recognised extension becomes [.js]. *)
Lemma newPathOf_remap (f : File.t) (dir base ext : string) :
  In ext [".ts"; ".tsx"; ".jsx"] ->
  File.name f = (base ++ ext)%string ->
  pathOf f = (dir ++ File.name f)%string ->
  newPathOf f = (dir ++ base ++ ".js")%string.
Proof.
  intros Hext Hname Hpath. unfold newPathOf. rewrite Hpath, Hname.
  assert (Hends : JS.endsWith (base ++ ext) ext = true)
    by (apply endsWith_iff; now exists base).
  rewrite <- !app_assoc_str.
  destruct Hext as [<- | [<- | [<- | []]]].
  - rewrite Hends. apply replace_at_end_app.
  - rewrite (endsWith_excl _ ".tsx" ".ts" eq_refl eq_refl Hends), Hends.
    apply replace_at_end_app.
  - rewrite (endsWith_excl _ ".jsx" ".ts" eq_refl eq_refl Hends),
            (endsWith_excl _ ".jsx" ".tsx" eq_refl eq_refl Hends), Hends.
    apply replace_at_end_app.
Qed.

(** A name that ends in [.js] takes none of the three remapping branches. *)
Lemma js_not_remapped (name : string) :
  JS.endsWith name ".js" = true ->
  JS.endsWith name ".ts" = false /\ JS.endsWith name ".tsx" = false /\
  JS.endsWith name ".jsx" = false.
Proof.
  intros H. repeat split; now apply (endsWith_excl name ".js").
Qed.

End Intake.

(** C4, as stated, fails: [icons.d.tsx] ends in the source extension
    [.tsx] and does not end in [.d.ts], yet the intake starts no read for
    it and creates no record, because the filter rejects every name that
    contains [.d.ts]; the user is told that no valid file was found. *)
Lemma C4_suffix_counterexample :
  JS.endsWith (File.name Scenario.icons) ".tsx" = true /\
  JS.endsWith (File.name Scenario.icons) ".d.ts" = false /\
  pendingReads (handleFiles None [Scenario.icons] init) = [] /\
  files (intakeInOrder None [(Scenario.icons, "i1")] init) = [] /\
  Toast.msg (toast (handleFiles None [Scenario.icons] init))
  = "No valid TS/JS files found".
Proof. repeat split. Qed.

(** C4 (amended): File Intake creates a record for a picked item if and
    only if the item passes the filter, and an item passes the filter if
    and only if its name ends in one of [.ts], [.tsx], [.jsx], [.js] and
    does not contain [.d.ts] anywhere.  [handleFiles] creates no record
    itself: it starts or schedules a read for exactly the items that pass
    the filter; a timer only starts reads that were scheduled; each read
    that completes appends the record of its item and is over; in every
    reachable state the reads in flight are reads of items that passed
    the filter.  When the reads complete in the order they were started,
    the records appended are those of the valid items, in the order they
    were picked. *)
Theorem C4_intake_filter
    (hc : option nat) (fileList : list File.t) (s : state) :
  files (handleFiles hc fileList s) = files s /\
  Permutation (pendingReads (handleFiles hc fileList s))
              (pendingReads s ++ filter validFile fileList) /\
  (forall k s0,
     files (timerFired k s0) = files s0 /\
     Permutation (pendingReads (timerFired k s0)) (pendingReads s0)) /\
  (forall k id s0 file,
     nth_error (readers s0) k = Some file ->
     files (fileLoaded k id s0) = files s0 ++ [recordOf file id] /\
     Permutation (pendingReads s0) (file :: pendingReads (fileLoaded k id s0))) /\
  (forall k id s0, nth_error (readers s0) k = None -> fileLoaded k id s0 = s0) /\
  (forall s0, reachable hc s0 ->
     Forall (fun f => validFile f = true) (pendingReads s0)) /\
  (forall (picked : list (File.t * string)) s0,
     readers s0 = [] -> timers s0 = [] ->
     files (intakeInOrder hc picked s0)
     = files s0 ++ map (fun it => recordOf (fst it) (snd it))
                       (filter (fun it => validFile (fst it)) picked) /\
     pendingReads (intakeInOrder hc picked s0) = []) /\
  (forall f : File.t,
     validFile f = true <->
     ((exists pre, File.name f = (pre ++ ".ts")%string) \/
      (exists pre, File.name f = (pre ++ ".tsx")%string) \/
      (exists pre, File.name f = (pre ++ ".jsx")%string) \/
      (exists pre, File.name f = (pre ++ ".js")%string)) /\
     ~ (exists pre post, File.name f = (pre ++ ".d.ts" ++ post)%string)).
Proof.
  split; [apply handleFiles_files|].
  split; [apply handleFiles_reads|].
  split.
  { intros k s0. split; [apply timerFired_frame | apply timerFired_reads]. }
  split.
  { intros k id s0 file Hk. split; [|now apply fileLoaded_reads].
    now rewrite (fileLoaded_Some _ _ _ _ Hk). }
  split; [intros k id s0; apply fileLoaded_None|].
  split; [intros s0 Hr; apply (reachable_invariant hc s0 Hr)|].
  split; [intros picked s0; apply intakeInOrder_files | apply validFile_iff].
Qed.

(** C5: the code misses the claim on [targetName].  [my.tsconfig.ts] is
    accepted; its [newName] comes from [name.replace('.ts', '.js')], which
    rewrites the first [.ts] of the name and leaves the extension at the
    end, while its [newPath], computed with the anchored pattern, is
    remapped at the end as the claim says. *)
Theorem C5_newName_first_occurrence :
  validFile Scenario.tsconfig = true /\
  FileRec.newName (recordOf Scenario.tsconfig "i1") = "my.jsconfig.ts" /\
  FileRec.newPath (recordOf Scenario.tsconfig "i1") = "src/my.tsconfig.js".
Proof. repeat split. Qed.

(** C9: a file whose name already ends in [.js] keeps its path and its
    name: [newPath = originalPath] and [newName = originalName]. *)
Theorem C9_js_roundtrip (file : File.t) (id : string) :
  JS.endsWith (File.name file) ".js" = true ->
  FileRec.newPath (recordOf file id) = FileRec.originalPath (recordOf file id) /\
  FileRec.newName (recordOf file id) = FileRec.originalName (recordOf file id).
Proof.
  intros H. destruct (js_not_remapped _ H) as (Hts & Htsx & Hjsx).
  unfold recordOf, newPathOf, newNameOf. simpl.
  rewrite Hts, Htsx, Hjsx. split; reflexivity.
Qed.

Lemma C9_js_roundtrip_witness :
  JS.endsWith (File.name Scenario.f3) ".js" = true /\
  (FileRec.newPath (recordOf Scenario.f3 "i3")
   = FileRec.originalPath (recordOf Scenario.f3 "i3") /\
   FileRec.newName (recordOf Scenario.f3 "i3")
   = FileRec.originalName (recordOf Scenario.f3 "i3")).
Proof.
  split; [reflexivity | apply (C9_js_roundtrip Scenario.f3 "i3"); reflexivity].
Defined.

(** * Scenario states are reachable *)

Section ScenarioFacts.

Lemma reachable_fireTimers (hc : option nat) (fuel : nat) (s : state) :
  reachable hc s -> reachable hc (fireTimers fuel s).
Proof.
  revert s. induction fuel as [|fuel IH]; intros s Hr; simpl; [exact Hr|].
  destruct (timers s); [exact Hr|]. apply IH.
  eapply reach_step; [exact Hr | apply step_timeout].
Qed.

Lemma reachable_loadInOrder (hc : option nat) (ids : list string) (s : state) :
  reachable hc s -> reachable hc (loadInOrder ids s).
Proof.
  revert s. unfold loadInOrder.
  induction ids as [|id ids IH]; intros s Hr; simpl; [exact Hr|].
  apply IH. eapply reach_step; [exact Hr | apply step_onload].
Qed.

Lemma reachable_intakeInOrder (hc : option nat) (picked : list (File.t * string))
                              (s : state) :
  reachable hc s -> reachable hc (intakeInOrder hc picked s).
Proof.
  intros Hr. unfold intakeInOrder.
  apply reachable_loadInOrder, reachable_fireTimers.
  eapply reach_step; [exact Hr | apply step_files].
Qed.

Lemma reachable_loaded : reachable (Some 2) Scenario.loaded.
Proof.
  eapply reach_step; [|apply step_render].
  apply reachable_intakeInOrder, reach_init.
Qed.

Lemma reachable_started : reachable (Some 2) Scenario.started.
Proof. eapply reach_step; [apply reachable_loaded | apply step_convert]. Qed.

Lemma reachable_firstDone : reachable (Some 2) Scenario.firstDone.
Proof. eapply reach_step; [apply reachable_started | apply step_message]. Qed.

Lemma reachable_allDone : reachable (Some 2) Scenario.allDone.
Proof.
  eapply reach_step; [|apply step_render].
  eapply reach_step; [|apply step_message].
  eapply reach_step; [apply reachable_firstDone | apply step_message].
Qed.

Lemma reachable_cleared : reachable (Some 2) Scenario.cleared.
Proof. eapply reach_step; [apply reachable_started | apply step_clear]. Qed.

Lemma reachable_emptyOutput : reachable None Scenario.emptyOutput.
Proof.
  eapply reach_step; [|apply step_render].
  eapply reach_step; [|apply step_message].
  eapply reach_step; [|apply step_convert].
  eapply reach_step; [|apply step_render].
  apply reachable_intakeInOrder, reach_init.
Qed.

Lemma reachable_early : reachable (Some 2) Scenario.early.
Proof.
  eapply reach_step; [|apply step_onload].
  eapply reach_step; [|apply step_render].
  eapply reach_step; [|apply step_onload].
  eapply reach_step; [apply reach_init | apply step_files].
Qed.

Lemma reachable_earlyStarted : reachable (Some 2) Scenario.earlyStarted.
Proof. eapply reach_step; [apply reachable_early | apply step_convert]. Qed.

End ScenarioFacts.

(** * Record shapes and the busy count *)

Section Shapes.

Lemma wellShaped_status (f : FileRec.t) :
  wellShaped f ->
  FileRec.status f = "idle" \/ FileRec.status f = "pending" \/
  FileRec.status f = "complete".
Proof. intros [([H|H] & _) | (H & _)]; auto. Qed.

Lemma wellShaped_not_running (f : FileRec.t) :
  wellShaped f -> hasStatus "running" f = false.
Proof.
  intros H. unfold hasStatus.
  destruct (wellShaped_status f H) as [-> | [-> | ->]]; reflexivity.
Qed.

Lemma filter_none {A : Type} (p : A -> bool) (l : list A) :
  (forall x, In x l -> p x = false) -> filter p l = [].
Proof.
  induction l as [|x l IH]; intros H; simpl; [reflexivity|].
  rewrite (H x (or_introl eq_refl)). apply IH. intros y Hy. apply H. now right.
Qed.

(** On a well-shaped record the export test of the code selects the
    complete records without error and with a non-empty output. *)
Lemma zippable_exportable (f : FileRec.t) :
  wellShaped f -> zippable f = exportable f.
Proof.
  unfold zippable, exportable, hasStatus.
  intros [([-> | ->] & -> & ->) | (-> & [(c & -> & ->) | (e & -> & ->)])];
    simpl; try reflexivity.
  now rewrite andb_false_r.
Qed.

End Shapes.

(** C1, as stated, fails: after the start action on three files with two
    workers, two workers are busy with the first two tasks while every
    record, the dispatched ones included, has status [pending]; no record
    has status [running]. *)
Lemma C1_running_counterexample :
  busyCount Scenario.started = 2 /\
  statusCount "running" Scenario.started = 0 /\
  map Worker.currentId (workersRef Scenario.started) = [JS.str "i1"; JS.str "i2"] /\
  map FileRec.status (files Scenario.started) = ["pending"; "pending"; "pending"].
Proof. repeat split. Qed.

(** C7: a delivered result turns every record with the message's id into
    a [complete] record that carries, on success, the transformed text and
    no error and, on failure, no output and the failure description; and
    every [complete] record, before and after the delivery, has exactly
    one of output and error set. *)
Theorem C7_completion_outcome (hc : option nat) (m : Msg.t) (s : state) :
  reachable hc s ->
  files (handleWorkerMessage m s) = map (applyResult m) (files s) /\
  (forall f, FileRec.id f = Msg.id m ->
     FileRec.status (applyResult m f) = "complete" /\
     match m with
     | Msg.success _ c =>
         FileRec.content (applyResult m f) = Some c /\
         FileRec.error (applyResult m f) = None
     | Msg.failure _ e =>
         FileRec.content (applyResult m f) = None /\
         FileRec.error (applyResult m f) = Some e
     end) /\
  (forall f, In f (files s) \/ In f (files (handleWorkerMessage m s)) ->
     FileRec.status f = "complete" ->
     (FileRec.content f <> None /\ FileRec.error f = None) \/
     (FileRec.content f = None /\ FileRec.error f <> None)).
Proof.
  intros Hr. split; [|split].
  - unfold handleWorkerMessage, processQueue.
    match goal with |- files (processQueue_from ?q ?x) = _ =>
      destruct (processQueue_from_frame q x) as (-> & _) end.
    simpl. now destruct (release _ _).
  - intros f Hid. unfold applyResult. rewrite Hid, String.eqb_refl.
    destruct m; simpl; repeat split.
  - intros f Hf Hst.
    assert (Hshape : wellShaped f).
    { pose proof (reachable_invariant hc s Hr) as Hinv.
      destruct Hf as [Hf | Hf].
      - destruct Hinv as [_ Hs _ _]. rewrite Forall_forall in Hs. now apply Hs.
      - apply (invariant_handleWorkerMessage m) in Hinv.
        destruct Hinv as [_ Hs _ _]. rewrite Forall_forall in Hs. now apply Hs. }
    destruct Hshape as [([E|E] & _) | (_ & [(c & -> & ->) | (e & -> & ->)])].
    + rewrite E in Hst. discriminate.
    + rewrite E in Hst. discriminate.
    + left. split; [discriminate | reflexivity].
    + right. split; [reflexivity | discriminate].
Qed.

Lemma C7_completion_outcome_witness :
  reachable (Some 2) Scenario.firstDone /\
  (files (handleWorkerMessage Scenario.failed2 Scenario.firstDone)
   = map (applyResult Scenario.failed2) (files Scenario.firstDone) /\
   (forall f, FileRec.id f = "i2" ->
      FileRec.status (applyResult Scenario.failed2 f) = "complete" /\
      (FileRec.content (applyResult Scenario.failed2 f) = None /\
       FileRec.error (applyResult Scenario.failed2 f) = Some "Unexpected token")) /\
   (forall f,
      In f (files Scenario.firstDone) \/
      In f (files (handleWorkerMessage Scenario.failed2 Scenario.firstDone)) ->
      FileRec.status f = "complete" ->
      (FileRec.content f <> None /\ FileRec.error f = None) \/
      (FileRec.content f = None /\ FileRec.error f <> None))).
Proof.
  split; [exact reachable_firstDone|].
  apply (C7_completion_outcome (Some 2) Scenario.failed2 Scenario.firstDone).
  exact reachable_firstDone.
Defined.

(** * Export *)

Section ExportFacts.

Lemma filter_zippable (hc : option nat) (s : state) :
  reachable hc s ->
  filter zippable (rendered s) = filter exportable (rendered s).
Proof.
  intros Hr. destruct (reachable_invariant hc s Hr) as [_ _ Hv _ _ _].
  rewrite Forall_forall in Hv. apply filter_ext_in.
  intros f Hf. apply zippable_exportable. now apply Hv.
Qed.

Lemma exportable_content (f : FileRec.t) :
  exportable f = true -> FileRec.content f = Some (contentText f).
Proof.
  unfold exportable, contentText. destruct (FileRec.content f); [reflexivity|].
  now rewrite andb_false_r.
Qed.

Lemma exportable_spec (f : FileRec.t) :
  exportable f = true ->
  FileRec.status f = "complete" /\ FileRec.error f = None /\
  FileRec.content f = Some (contentText f) /\ contentText f <> "".
Proof.
  intros H. pose proof (exportable_content f H) as Hc.
  unfold exportable, hasStatus in H. rewrite Hc in H.
  apply andb_true_iff in H as [H H3]. apply andb_true_iff in H as [H1 H2].
  repeat split.
  - now apply String.eqb_eq.
  - now destruct (FileRec.error f).
  - exact Hc.
  - apply negb_true_iff in H3. now apply String.eqb_neq.
Qed.

(** On the log of calls, the loop of the export leaves one call per
    record it lets through, in order. *)
Lemma addFiles_calls (l : list FileRec.t) (log : zipCalls) :
  fold_left (fun zip f => recordCall (FileRec.newPath f) (contentText f) zip) l log
  = log ++ map entryOf l.
Proof.
  revert log. induction l as [|f l IH]; intros log; simpl.
  - now rewrite app_nil_r.
  - rewrite IH. unfold recordCall. now rewrite <- app_assoc.
Qed.

End ExportFacts.

(** C6, as stated, fails: a file that completed without error and with
    an empty output is a record with [status = complete] and
    [error = null], in the registry and on the page, yet export adds
    nothing to the archive for it; here it is the only record and export
    reports a failure instead of producing the archive. *)
Lemma C6_empty_output_counterexample :
  map FileRec.status (files Scenario.emptyOutput) = ["complete"] /\
  map FileRec.error (files Scenario.emptyOutput) = [None] /\
  map FileRec.content (files Scenario.emptyOutput) = [Some ""] /\
  rendered Scenario.emptyOutput = files Scenario.emptyOutput /\
  handleDownloadZip [] recordCall true Scenario.emptyOutput
  = (showToast "No valid files to zip" "error" Scenario.emptyOutput, None).
Proof. repeat split. Qed.

(** C6 (amended): in every reachable state, with the archive library
    loaded and whatever that library is, export calls
    [zip.file(newPath, outputText)] once for each record of the registry
    as last rendered that has [status = complete], [error = null] and a
    non-empty [outputText], in registry order, and for no other record,
    and the archive it saves is the result of these calls; when there is
    no such record, export shows the error toast and saves no archive. *)
Theorem C6_export_entries (hc : option nat) (s : state)
    (Zip : Type) (newZip : Zip) (zipFile : string -> string -> Zip -> Zip) :
  reachable hc s ->
  (forall f, exportable f = true ->
     FileRec.status f = "complete" /\ FileRec.error f = None /\
     FileRec.content f = Some (contentText f) /\ contentText f <> "") /\
  (filter exportable (rendered s) <> [] ->
   handleDownloadZip newZip zipFile true s
   = (showToast "Download started!" "success" s,
      Some (fold_left
              (fun zip f => zipFile (FileRec.newPath f) (contentText f) zip)
              (filter exportable (rendered s)) newZip))) /\
  (filter exportable (rendered s) = [] ->
   handleDownloadZip newZip zipFile true s
   = (showToast "No valid files to zip" "error" s, None)) /\
  addFiles [] recordCall (rendered s)
  = map entryOf (filter exportable (rendered s)).
Proof.
  intros Hr. split; [|split; [|split]].
  - apply exportable_spec.
  - intros Hne. unfold handleDownloadZip, addFiles. simpl negb. cbv iota.
    rewrite (filter_zippable hc s Hr).
    destruct (filter exportable (rendered s)) as [|f l]; [now elim Hne | reflexivity].
  - intros He. unfold handleDownloadZip, addFiles. simpl negb. cbv iota.
    rewrite (filter_zippable hc s Hr), He. reflexivity.
  - unfold addFiles. rewrite (filter_zippable hc s Hr). apply addFiles_calls.
Qed.

Lemma C6_export_entries_witness :
  reachable (Some 2) Scenario.allDone /\
  handleDownloadZip [] recordCall true Scenario.allDone
  = (showToast "Download started!" "success" Scenario.allDone,
     Some [("f1.js", "let a = 1;"); ("f3.js", "var c;")]) /\
  map FileRec.status (rendered Scenario.allDone)
  = ["complete"; "complete"; "complete"] /\
  map FileRec.error (rendered Scenario.allDone)
  = [None; Some "Unexpected token"; None].
Proof.
  split; [exact reachable_allDone|].
  split; [|split; reflexivity].
  destruct (C6_export_entries (Some 2) Scenario.allDone zipCalls [] recordCall
              reachable_allDone) as (_ & H & _).
  refine (eq_trans (H _) _); [discriminate | reflexivity].
Defined.

(** Two records may have the same target path: both are handed to the
    archive library under that path. *)
Example export_same_path :
  map FileRec.originalName (rendered Scenario.twins) = ["a.ts"; "a.js"] /\
  snd (handleDownloadZip [] recordCall true Scenario.twins)
  = Some [("a.js", "let a;"); ("a.js", "var a;")].
Proof. split; reflexivity. Qed.

(** * Completion handler: duplicate and unheld results *)

Section Reconciler.

Lemma set_files_same (s : state) : set_files (files s) s = s.
Proof. now destruct s. Qed.

Lemma applyResult_idempotent (m : Msg.t) (f : FileRec.t) :
  applyResult m (applyResult m f) = applyResult m f.
Proof.
  unfold applyResult.
  destruct (String.eqb (FileRec.id f) (Msg.id m)) eqn:E; simpl; now rewrite E.
Qed.

Lemma applyResult_other (m : Msg.t) (f : FileRec.t) :
  FileRec.id f <> Msg.id m -> applyResult m f = f.
Proof.
  intros H. unfold applyResult. apply String.eqb_neq in H. now rewrite H.
Qed.

Lemma applyResult_id (m : Msg.t) (f : FileRec.t) :
  FileRec.id (applyResult m f) = FileRec.id f.
Proof. unfold applyResult. now destruct (String.eqb _ _). Qed.

Lemma handleWorkerMessage_unfold (m : Msg.t) (s : state) :
  handleWorkerMessage m s = processQueue (reconciled m s).
Proof. reflexivity. Qed.

Lemma reconciled_files (m : Msg.t) (s : state) :
  files (reconciled m s) = map (applyResult m) (files s).
Proof. unfold reconciled. simpl. now destruct (release _ _). Qed.

Lemma reconciled_queue (m : Msg.t) (s : state) :
  queueRef (reconciled m s) = queueRef s.
Proof. unfold reconciled. simpl. now destruct (release _ _). Qed.

Lemma reconciled_progress (m : Msg.t) (s : state) :
  progress (reconciled m s)
  = Progress.mk (Progress.current (progress s) + 1) (Progress.total (progress s)).
Proof. unfold reconciled. simpl. now destruct (release _ _). Qed.

Lemma handleWorkerMessage_files (m : Msg.t) (s : state) :
  files (handleWorkerMessage m s) = map (applyResult m) (files s).
Proof.
  rewrite handleWorkerMessage_unfold. unfold processQueue.
  destruct (processQueue_from_frame (queueRef (reconciled m s)) (reconciled m s))
    as (-> & _).
  apply reconciled_files.
Qed.

Lemma handleWorkerMessage_progress (m : Msg.t) (s : state) :
  progress (handleWorkerMessage m s)
  = Progress.mk (Progress.current (progress s) + 1) (Progress.total (progress s)).
Proof.
  rewrite handleWorkerMessage_unfold. unfold processQueue.
  destruct (processQueue_from_frame (queueRef (reconciled m s)) (reconciled m s))
    as (_ & -> & _).
  apply reconciled_progress.
Qed.

(** With at most one holder of the id, none is left after the handler
    released it, whatever the scheduler dispatched next from a queue
    that does not hold the id. *)
Lemma no_holder_after (m : Msg.t) (s : state) :
  (forall t, In t (queueRef s) -> Task.id t <> Msg.id m) ->
  List.length (filter (holds (Msg.id m)) (workersRef s)) <= 1 ->
  release (Msg.id m) (workersRef (handleWorkerMessage m s)) = None.
Proof.
  intros Hq Hone. apply release_None.
  rewrite handleWorkerMessage_unfold. unfold processQueue.
  rewrite processQueue_from_holders by (now rewrite reconciled_queue).
  unfold reconciled. simpl.
  destruct (release (Msg.id m) (workersRef s)) as [ws|] eqn:Hr; simpl.
  - exact (release_single_holder _ _ _ Hone Hr).
  - now apply release_None.
Qed.

(** A result delivered to a state that the scheduler leaves alone, in
    which nobody holds the id and the registry already carries the
    result, only increments [current]. *)
Lemma handleWorkerMessage_again (m : Msg.t) (s : state) :
  release (Msg.id m) (workersRef s) = None ->
  map (applyResult m) (files s) = files s ->
  processQueue s = s ->
  handleWorkerMessage m s
  = set_progress (Progress.mk (Progress.current (progress s) + 1)
                              (Progress.total (progress s))) s.
Proof.
  intros Hrel Hmap Hstable.
  rewrite handleWorkerMessage_unfold. unfold reconciled. simpl.
  rewrite Hrel, Hmap, set_files_same.
  unfold processQueue. simpl queueRef.
  rewrite processQueue_from_set_progress. fold (processQueue s).
  now rewrite Hstable.
Qed.

End Reconciler.

(** C2, as stated, fails: delivering the result of the first file a
    second time increments [current] again. *)
Lemma C2_duplicate_counterexample :
  progress (handleWorkerMessage Scenario.done1 Scenario.started)
  = Progress.mk 1 3 /\
  progress (handleWorkerMessage Scenario.done1
              (handleWorkerMessage Scenario.done1 Scenario.started))
  = Progress.mk 2 3.
Proof. split; reflexivity. Qed.

(** C2 (amended): when the queue holds no task with the message's id and
    at most one Worker Slot holds it, delivering the same result a second
    time leaves the Task Registry, the Worker Slots, the queue, the
    [activeWorkers] counter, the dispatch log and [total] as the first
    delivery left them and frees no slot, but increments [current] once
    more: the state after two deliveries is the state after one with
    [current] one higher. *)
Theorem C2_duplicate_result (m : Msg.t) (s : state) :
  (forall t, In t (queueRef s) -> Task.id t <> Msg.id m) ->
  List.length (filter (holds (Msg.id m)) (workersRef s)) <= 1 ->
  handleWorkerMessage m (handleWorkerMessage m s)
  = set_progress
      (Progress.mk (Progress.current (progress (handleWorkerMessage m s)) + 1)
                   (Progress.total (progress (handleWorkerMessage m s))))
      (handleWorkerMessage m s)
  /\ files (handleWorkerMessage m (handleWorkerMessage m s))
     = files (handleWorkerMessage m s)
  /\ workersRef (handleWorkerMessage m (handleWorkerMessage m s))
     = workersRef (handleWorkerMessage m s)
  /\ Progress.total (progress (handleWorkerMessage m (handleWorkerMessage m s)))
     = Progress.total (progress (handleWorkerMessage m s))
  /\ Progress.current (progress (handleWorkerMessage m (handleWorkerMessage m s)))
     = (Progress.current (progress (handleWorkerMessage m s)) + 1)%Z.
Proof.
  intros Hq Hone.
  assert (E : handleWorkerMessage m (handleWorkerMessage m s)
              = set_progress
                  (Progress.mk
                     (Progress.current (progress (handleWorkerMessage m s)) + 1)
                     (Progress.total (progress (handleWorkerMessage m s))))
                  (handleWorkerMessage m s)).
  { apply handleWorkerMessage_again.
    - now apply no_holder_after.
    - rewrite handleWorkerMessage_files, map_map.
      apply map_ext. intros f. apply applyResult_idempotent.
    - rewrite handleWorkerMessage_unfold. apply processQueue_idempotent. }
  rewrite E. repeat split.
Qed.

Lemma C2_duplicate_result_witness :
  (forall t, In t (queueRef Scenario.started) -> Task.id t <> Msg.id Scenario.done1) /\
  List.length (filter (holds (Msg.id Scenario.done1)) (workersRef Scenario.started)) <= 1 /\
  files (handleWorkerMessage Scenario.done1 Scenario.firstDone)
  = files Scenario.firstDone /\
  workersRef (handleWorkerMessage Scenario.done1 Scenario.firstDone)
  = workersRef Scenario.firstDone /\
  Progress.current (progress (handleWorkerMessage Scenario.done1 Scenario.firstDone))
  = (Progress.current (progress Scenario.firstDone) + 1)%Z.
Proof.
  assert (Hq : forall t, In t (queueRef Scenario.started) ->
                         Task.id t <> Msg.id Scenario.done1).
  { intros t Ht. vm_compute in Ht. destruct Ht as [<- | []]. discriminate. }
  assert (Hone : List.length (filter (holds (Msg.id Scenario.done1))
                                     (workersRef Scenario.started)) <= 1).
  { vm_compute. lia. }
  split; [exact Hq|]. split; [exact Hone|].
  destruct (C2_duplicate_result Scenario.done1 Scenario.started Hq Hone)
    as (_ & Hf & Hw & _ & Hc).
  split; [exact Hf|]. split; [exact Hw | exact Hc].
Defined.

(** * Dispatch order *)

Section Fifo.

(** Whatever the pool size, a completion keeps the dispatch log followed
    by the queue as it was: tasks are only ever moved from the head of
    the queue to the end of the log. *)
Lemma handleWorkerMessage_fifo (m : Msg.t) (s : state) :
  map snd (posted (handleWorkerMessage m s)) ++ queueRef (handleWorkerMessage m s)
  = map snd (posted s) ++ queueRef s.
Proof.
  rewrite handleWorkerMessage_unfold. unfold processQueue.
  rewrite processQueue_from_fifo, reconciled_queue.
  unfold reconciled. simpl. now destruct (release _ _).
Qed.

(** The start action appends the idle records' tasks, in registry
    order, behind what is already queued. *)
Lemma handleConvert_fifo (s : state) :
  map snd (posted (handleConvert s)) ++ queueRef (handleConvert s)
  = map snd (posted s) ++ queueRef s ++ map taskOf (filter isIdle (rendered s)).
Proof.
  unfold handleConvert. destruct (filter isIdle (rendered s)) as [|f l].
  - simpl. now rewrite app_nil_r.
  - unfold processQueue. now rewrite processQueue_from_fifo.
Qed.

(** A pool of one busy worker: the scheduler only stores the queue. *)
Lemma pool1_busy (w : Worker.t) (q : list Task.t) (s : state) :
  workersRef s = [w] -> Worker.busy w = true ->
  processQueue_from q s = set_queueRef q s.
Proof.
  intros Hw Hb. destruct q as [|t q].
  - simpl. rewrite Hw. simpl. now rewrite Hb.
  - rewrite processQueue_from_cons, Hw. simpl. now rewrite Hb.
Qed.

(** A pool of one free worker takes the head of the queue and leaves
    the rest queued. *)
Lemma pool1_dispatch (w : Worker.t) (t : Task.t) (q : list Task.t) (s : state) :
  workersRef s = [w] -> Worker.busy w = false -> queueRef s = t :: q ->
  workersRef (processQueue s) = [Worker.mk (Worker.id w) true (JS.str (Task.id t))] /\
  queueRef (processQueue s) = q /\
  posted (processQueue s) = posted s ++ [(Worker.id w, t)].
Proof.
  intros Hw Hb Hq. unfold processQueue.
  rewrite Hq, processQueue_from_cons, Hw. simpl assign. rewrite Hb. simpl negb. cbv iota.
  rewrite (pool1_busy (Worker.mk (Worker.id w) true (JS.str (Task.id t))));
    repeat split.
Qed.

(** With a pool of one, the result of the running task frees the
    worker, which takes the next task of the queue at once. *)
Lemma pool1_next (i : nat) (m : Msg.t) (t : Task.t) (q : list Task.t) (s : state) :
  workersRef s = [Worker.mk i true (JS.str (Msg.id m))] ->
  queueRef s = t :: q ->
  workersRef (handleWorkerMessage m s) = [Worker.mk i true (JS.str (Task.id t))] /\
  queueRef (handleWorkerMessage m s) = q /\
  posted (handleWorkerMessage m s) = posted s ++ [(i, t)].
Proof.
  intros Hw Hq. rewrite handleWorkerMessage_unfold.
  assert (Hrec : workersRef (reconciled m s) = [Worker.mk i false JS.null] /\
                 queueRef (reconciled m s) = t :: q /\
                 posted (reconciled m s) = posted s).
  { unfold reconciled. simpl. rewrite Hw. simpl. unfold holds. simpl.
    rewrite String.eqb_refl. simpl. auto. }
  destruct Hrec as (Ew & Eq & Ep).
  destruct (pool1_dispatch _ t q _ Ew eq_refl Eq) as (Pw & Pq & Pp).
  rewrite Pw, Pq, Pp, Ep. auto.
Qed.

(** With a pool of one, results delivered for the running task, then
    for each task that follows it, dispatch the queue from its head, one
    task per result. *)
Lemma pool1_serve (i : nat) (ms : list Msg.t) :
  forall (ts : list Task.t) (running : string) (s : state),
    workersRef s = [Worker.mk i true (JS.str running)] ->
    queueRef s = ts ->
    map Msg.id ms = firstn (List.length ms) (running :: map Task.id ts) ->
    List.length ms <= List.length ts ->
    map snd (posted (deliver ms s))
    = map snd (posted s) ++ firstn (List.length ms) ts /\
    queueRef (deliver ms s) = skipn (List.length ms) ts.
Proof.
  induction ms as [|m ms IH]; intros ts running s Hw Hq Hids Hlen.
  - simpl. now rewrite app_nil_r.
  - destruct ts as [|t ts]; [simpl in Hlen; lia|].
    simpl in Hids. injection Hids as Hm Hids. subst running.
    destruct (pool1_next i m t ts s Hw Hq) as (W & Q & P).
    destruct (IH ts (Task.id t) (handleWorkerMessage m s) W Q Hids) as (E1 & E2).
    { simpl in Hlen. lia. }
    unfold deliver in *. simpl. rewrite E1, E2, P, map_app, <- app_assoc.
    split; reflexivity.
Qed.

Lemma filter_all {A : Type} (p : A -> bool) (l : list A) :
  forallb p l = true -> filter p l = l.
Proof.
  induction l as [|x l IH]; simpl; [reflexivity|].
  intros H. apply andb_true_iff in H as [-> H]. now rewrite IH.
Qed.

(** Dispatch order for any number of files and a pool of one: after the
    start action and the results of the first [k] idle records of the
    page, the tasks posted are those of its first [k + 1] idle records,
    in registry order. *)
Lemma pool1_fifo (w : Worker.t) (f0 : FileRec.t) (fs : list FileRec.t)
                 (ms : list Msg.t) (s : state) :
  filter isIdle (rendered s) = f0 :: fs ->
  workersRef s = [w] -> Worker.busy w = false -> queueRef s = [] ->
  map Msg.id ms = firstn (List.length ms) (map FileRec.id (f0 :: fs)) ->
  List.length ms <= List.length fs ->
  map snd (posted (deliver ms (handleConvert s)))
  = map snd (posted s) ++ firstn (S (List.length ms)) (map taskOf (f0 :: fs)).
Proof.
  intros Hf Hw Hfree Hq Hids Hlen.
  assert (H1 : workersRef (handleConvert s)
               = [Worker.mk (Worker.id w) true (JS.str (FileRec.id f0))] /\
               queueRef (handleConvert s) = map taskOf fs /\
               posted (handleConvert s) = posted s ++ [(Worker.id w, taskOf f0)]).
  { unfold handleConvert. rewrite Hf.
    match goal with |- context [processQueue ?x] =>
      destruct (pool1_dispatch w (taskOf f0) (map taskOf fs) x) as (E1 & E2 & E3)
    end; [exact Hw | exact Hfree | simpl; now rewrite Hq |].
    rewrite E1, E2, E3. simpl. auto. }
  destruct H1 as (W & Q & P).
  destruct (pool1_serve (Worker.id w) ms (map taskOf fs) (FileRec.id f0)
                        (handleConvert s) W Q) as (E & _).
  - rewrite map_map. exact Hids.
  - now rewrite length_map.
  - rewrite E, P, map_app, <- app_assoc. reflexivity.
Qed.

End Fifo.

(** C8: with a pool of one free worker and an empty queue, the start
    action on a page that shows the idle records [a], [b], [c] enqueues
    their tasks in that order and dispatches [a]; the result of [a]
    dispatches [b]; the result of [b] dispatches [c]: the tasks are
    posted to the worker in the order [a], [b], [c], each taken from the
    head of the queue. *)
Theorem C8_fifo_pool_of_one
    (a b c : FileRec.t) (ma mb : Msg.t) (w : Worker.t) (s : state) :
  rendered s = [a; b; c] ->
  isIdle a = true -> isIdle b = true -> isIdle c = true ->
  workersRef s = [w] -> Worker.busy w = false -> queueRef s = [] ->
  Msg.id ma = FileRec.id a -> Msg.id mb = FileRec.id b ->
  (map snd (posted (handleConvert s)) = map snd (posted s) ++ [taskOf a] /\
   queueRef (handleConvert s) = [taskOf b; taskOf c]) /\
  (map snd (posted (handleWorkerMessage ma (handleConvert s)))
   = map snd (posted s) ++ [taskOf a; taskOf b] /\
   queueRef (handleWorkerMessage ma (handleConvert s)) = [taskOf c]) /\
  (map snd (posted (handleWorkerMessage mb (handleWorkerMessage ma (handleConvert s))))
   = map snd (posted s) ++ [taskOf a; taskOf b; taskOf c] /\
   queueRef (handleWorkerMessage mb (handleWorkerMessage ma (handleConvert s))) = []).
Proof.
  intros Hf Ha Hb Hc Hw Hfree Hq Hma Hmb.
  assert (H1 : workersRef (handleConvert s)
               = [Worker.mk (Worker.id w) true (JS.str (Msg.id ma))] /\
               queueRef (handleConvert s) = [taskOf b; taskOf c] /\
               posted (handleConvert s) = posted s ++ [(Worker.id w, taskOf a)]).
  { unfold handleConvert. rewrite Hf. simpl filter. rewrite Ha, Hb, Hc.
    match goal with |- context [processQueue ?x] =>
      destruct (pool1_dispatch w (taskOf a) [taskOf b; taskOf c] x)
        as (E1 & E2 & E3)
    end; [exact Hw | exact Hfree | simpl; now rewrite Hq |].
    rewrite E1, E2, E3, Hma. simpl. auto. }
  destruct H1 as (W1 & Q1 & P1).
  destruct (pool1_next _ ma _ _ _ W1 Q1) as (W2 & Q2 & P2).
  change (Task.id (taskOf b)) with (FileRec.id b) in W2. rewrite <- Hmb in W2.
  destruct (pool1_next _ mb _ _ _ W2 Q2) as (W3 & Q3 & P3).
  rewrite P3, P2, P1, Q1, Q2, Q3, !map_app, <- !app_assoc. simpl. auto.
Qed.

Lemma C8_fifo_pool_of_one_witness :
  rendered Scenario.single
  = [recordOf Scenario.f1 "i1"; recordOf Scenario.f2 "i2"; recordOf Scenario.f3 "i3"] /\
  workersRef Scenario.single = [Worker.mk 0 false JS.undefined] /\
  map snd (posted (handleWorkerMessage Scenario.failed2
                     (handleWorkerMessage Scenario.done1
                        (handleConvert Scenario.single))))
  = map snd (posted Scenario.single)
    ++ [taskOf (recordOf Scenario.f1 "i1"); taskOf (recordOf Scenario.f2 "i2");
        taskOf (recordOf Scenario.f3 "i3")].
Proof.
  split; [reflexivity|]. split; [reflexivity|].
  apply (C8_fifo_pool_of_one
           (recordOf Scenario.f1 "i1") (recordOf Scenario.f2 "i2")
           (recordOf Scenario.f3 "i3") Scenario.done1 Scenario.failed2
           (Worker.mk 0 false JS.undefined) Scenario.single);
    reflexivity.
Defined.

(** * Removing a record *)

Section Remove.

Lemma removeFile_processQueue_from (id : string) (q : list Task.t) (s : state) :
  processQueue_from q (removeFile id s) = removeFile id (processQueue_from q s).
Proof.
  unfold removeFile, setFilesInEvent.
  rewrite processQueue_from_set_rendered, processQueue_from_set_files.
  destruct (processQueue_from_frame q s) as (-> & _).
  destruct (processQueue_from_shown q s) as (-> & _). reflexivity.
Qed.

Lemma filter_applyResult (m : Msg.t) (id : string) (l : list FileRec.t) :
  map (applyResult m) (filter (fun f => negb (String.eqb (FileRec.id f) id)) l)
  = filter (fun f => negb (String.eqb (FileRec.id f) id)) (map (applyResult m) l).
Proof.
  induction l as [|f l IH]; simpl; [reflexivity|].
  rewrite applyResult_id.
  destruct (String.eqb (FileRec.id f) id); simpl; now rewrite IH.
Qed.

Lemma removeFile_reconciled (id : string) (m : Msg.t) (s : state) :
  reconciled m (removeFile id s) = removeFile id (reconciled m s).
Proof.
  unfold reconciled, removeFile, setFilesInEvent. simpl.
  rewrite filter_applyResult.
  destruct (release _ _); reflexivity.
Qed.

End Remove.

(** A queued task whose record is removed is still dispatched when a
    worker becomes free, and its result is still counted. *)
Example removed_task_still_dispatched :
  queueRef (removeFile "i3" Scenario.started) = [taskOf (recordOf Scenario.f3 "i3")] /\
  map FileRec.id (files (removeFile "i3" Scenario.started)) = ["i1"; "i2"] /\
  map snd (posted (handleWorkerMessage Scenario.done1
                     (removeFile "i3" Scenario.started)))
  = [taskOf (recordOf Scenario.f1 "i1"); taskOf (recordOf Scenario.f2 "i2");
     taskOf (recordOf Scenario.f3 "i3")] /\
  progress (handleWorkerMessage Scenario.done3
              (handleWorkerMessage Scenario.done1
                 (removeFile "i3" Scenario.started)))
  = Progress.mk 2 3.
Proof. repeat split. Qed.

(** * The scenarios of the specification, run on the model *)

(** Pool of two, three files started: the first two are with the
    workers, the third is queued; the first result hands the third file
    to the freed worker and the progress is 1 of 3. *)
Example scenario_two_workers :
  map Worker.currentId (workersRef Scenario.started) = [JS.str "i1"; JS.str "i2"] /\
  map Task.id (queueRef Scenario.started) = ["i3"] /\
  map Worker.currentId (workersRef Scenario.firstDone) = [JS.str "i3"; JS.str "i2"] /\
  queueRef Scenario.firstDone = [] /\
  progress Scenario.firstDone = Progress.mk 1 3.
Proof. repeat split. Qed.

(** A failed transformation completes its record with the error and does
    not hold back the remaining file. *)
Example scenario_failure :
  map (fun f => (FileRec.status f, FileRec.content f, FileRec.error f))
      (files Scenario.allDone)
  = [("complete", Some "let a = 1;", None);
     ("complete", None, Some "Unexpected token");
     ("complete", Some "var c;", None)] /\
  progress Scenario.allDone = Progress.mk 3 3 /\
  busyCount Scenario.allDone = 0 /\
  isProcessing Scenario.allDone = false.
Proof. repeat split. Qed.

(** A directory with a declaration file and a [.tsx] file yields the one
    record of the [.tsx] file. *)
Example scenario_declaration_file :
  map FileRec.originalName
      (files (intakeInOrder None [(Scenario.decl, "i1"); (Scenario.f2, "i2")] init))
  = ["f2.tsx"].
Proof. reflexivity. Qed.

(** Export with nothing completed reports a failure and saves nothing. *)
Example scenario_empty_export :
  handleDownloadZip [] recordCall true Scenario.started
  = (showToast "No valid files to zip" "error" Scenario.started, None).
Proof. reflexivity. Qed.

(** A reset during processing empties the registry and the queue, zeroes
    the counters and leaves a fresh pool of the same size. *)
Example scenario_reset :
  files Scenario.cleared = [] /\
  queueRef Scenario.cleared = [] /\
  progress Scenario.cleared = Progress.mk 0 0 /\
  activeWorkers Scenario.cleared = 0%Z /\
  workersRef Scenario.cleared = fresh_workers 0 2.
Proof. repeat split. Qed.

(** * More on the worker pool *)


Section PoolCounts.

Lemma busy_le_length (ws : list Worker.t) :
  List.length (filter Worker.busy ws) <= List.length ws.
Proof. apply filter_length_le. Qed.

Lemma all_busy_count (ws : list Worker.t) :
  forallb Worker.busy ws = true <->
  List.length (filter Worker.busy ws) = List.length ws.
Proof.
  induction ws as [|w ws IH]; simpl; [tauto|].
  pose proof (busy_le_length ws).
  destruct (Worker.busy w); simpl; [rewrite IH; lia | split; [discriminate | lia]].
Qed.

Lemma all_free_count (ws : list Worker.t) :
  forallb (fun w => negb (Worker.busy w)) ws = true <->
  List.length (filter Worker.busy ws) = 0.
Proof.
  induction ws as [|w ws IH]; simpl; [tauto|].
  destruct (Worker.busy w); simpl; [split; [discriminate | lia] | exact IH].
Qed.

Lemma assign_ids (tid : string) (ws ws' : list Worker.t) (i : nat) :
  assign tid ws = Some (i, ws') -> map Worker.id ws' = map Worker.id ws.
Proof.
  intros H. destruct (assign_Some _ _ _ _ H) as (l1 & w & l2 & -> & _ & _ & <- & ->).
  now rewrite !map_app.
Qed.

Lemma release_ids (id : string) (ws ws' : list Worker.t) :
  release id ws = Some ws' -> map Worker.id ws' = map Worker.id ws.
Proof.
  intros H. destruct (release_Some _ _ _ H) as (l1 & w & l2 & -> & _ & _ & ->).
  now rewrite !map_app.
Qed.

Lemma heldBy_holds (id : string) (w : Worker.t) :
  In id (heldBy w) <-> holds id w = true.
Proof.
  unfold heldBy, holds. destruct (Worker.busy w); simpl; [|split; [tauto | discriminate]].
  destruct (Worker.currentId w) as [| |x]; simpl; try (split; [tauto | discriminate]).
  rewrite String.eqb_eq. split; [intros [H|[]]; exact H | intros ->; now left].
Qed.

Lemma heldIds_holds (id : string) (ws : list Worker.t) :
  In id (heldIds ws) <-> exists w, In w ws /\ holds id w = true.
Proof.
  unfold heldIds. rewrite in_flat_map. split; intros (w & Hw & H); exists w;
    (split; [exact Hw | now apply heldBy_holds]).
Qed.

Lemma heldIds_count (id : string) (ws : list Worker.t) :
  In id (heldIds ws) <-> 0 < List.length (filter (holds id) ws).
Proof.
  rewrite heldIds_holds. split.
  - intros (w & Hw & H).
    assert (Hin : In w (filter (holds id) ws)) by (apply filter_In; now split).
    destruct (filter (holds id) ws); [destruct Hin | simpl; lia].
  - destruct (filter (holds id) ws) as [|w l] eqn:E; simpl; [lia|]. intros _.
    assert (Hin : In w (filter (holds id) ws)) by (rewrite E; now left).
    apply filter_In in Hin. now exists w.
Qed.

Lemma heldBy_free (w : Worker.t) : Worker.busy w = false -> heldBy w = [].
Proof. unfold heldBy. now intros ->. Qed.

Lemma assign_held (tid : string) (ws ws' : list Worker.t) (i : nat) :
  assign tid ws = Some (i, ws') -> Permutation (heldIds ws') (tid :: heldIds ws).
Proof.
  intros H. destruct (assign_Some _ _ _ _ H) as (l1 & w & l2 & -> & _ & Hw & _ & ->).
  unfold heldIds. rewrite !flat_map_app. simpl. rewrite (heldBy_free w Hw). simpl.
  symmetry. apply Permutation_middle.
Qed.

Lemma assign_holds_count (id tid : string) (ws ws' : list Worker.t) (i : nat) :
  assign tid ws = Some (i, ws') ->
  List.length (filter (holds id) ws')
  = List.length (filter (holds id) ws) + (if String.eqb tid id then 1 else 0).
Proof.
  intros H. destruct (assign_Some _ _ _ _ H) as (l1 & w & l2 & -> & _ & Hw & _ & ->).
  rewrite !filter_app, !List.length_app.
  change (filter (holds id) (?x :: l2)) with
    (if holds id x then x :: filter (holds id) l2 else filter (holds id) l2).
  assert (E1 : holds id w = false) by (unfold holds; now rewrite Hw).
  assert (E2 : holds id (Worker.mk i true (JS.str tid)) = String.eqb tid id)
    by reflexivity.
  rewrite E1, E2. destruct (String.eqb tid id); simpl; lia.
Qed.

Lemma release_holds_count (id id0 : string) (ws ws' : list Worker.t) :
  release id0 ws = Some ws' ->
  List.length (filter (holds id) ws')
  + (if String.eqb id0 id then 1 else 0)
  = List.length (filter (holds id) ws).
Proof.
  intros H. destruct (release_Some _ _ _ H) as (l1 & w & l2 & -> & _ & Hw & ->).
  rewrite !filter_app, !List.length_app.
  change (filter (holds id) (?x :: l2)) with
    (if holds id x then x :: filter (holds id) l2 else filter (holds id) l2).
  assert (E1 : holds id (Worker.mk (Worker.id w) false JS.null) = false) by reflexivity.
  assert (E2 : holds id w = String.eqb id0 id).
  { unfold holds in *. destruct (Worker.busy w); [|discriminate].
    destruct (Worker.currentId w) as [| |x]; try discriminate. simpl in *.
    apply String.eqb_eq in Hw. now subst x. }
  rewrite E1, E2. destruct (String.eqb id0 id); simpl; lia.
Qed.

Lemma release_held_other (x id0 : string) (ws ws' : list Worker.t) :
  release id0 ws = Some ws' -> x <> id0 -> In x (heldIds ws) -> In x (heldIds ws').
Proof.
  intros H Hne. rewrite !heldIds_count.
  pose proof (release_holds_count x id0 _ _ H) as E.
  apply not_eq_sym, String.eqb_neq in Hne. rewrite Hne in E. lia.
Qed.

End PoolCounts.

(** * More on the scheduler *)

Section SchedulerCounts.

(** Every task that leaves the queue makes one more busy worker. *)
Lemma processQueue_from_conserve (q : list Task.t) (s : state) :
  busyCount (processQueue_from q s) + List.length (queueRef (processQueue_from q s))
  = busyCount s + List.length q.
Proof.
  revert s. induction q as [|task q IH]; intros s.
  - simpl. destruct (forallb _ _); reflexivity.
  - rewrite processQueue_from_cons.
    destruct (assign _ _) as [[i ws]|] eqn:Ha; [|reflexivity].
    rewrite IH. unfold busyCount. simpl.
    rewrite (assign_busy_count _ _ _ _ Ha). lia.
Qed.

Lemma processQueue_from_ids (q : list Task.t) (s : state) :
  map Worker.id (workersRef (processQueue_from q s)) = map Worker.id (workersRef s).
Proof.
  revert s. induction q as [|task q IH]; intros s.
  - simpl. destruct (forallb _ _); reflexivity.
  - rewrite processQueue_from_cons.
    destruct (assign _ _) as [[i ws]|] eqn:Ha; [|reflexivity].
    rewrite IH. simpl. exact (assign_ids _ _ _ _ Ha).
Qed.

(** The ids with the workers and in the queue are the same before and
    after, each as often. *)
Lemma processQueue_from_held (q : list Task.t) (s : state) :
  Permutation
    (heldIds (workersRef (processQueue_from q s))
     ++ map Task.id (queueRef (processQueue_from q s)))
    (heldIds (workersRef s) ++ map Task.id q).
Proof.
  revert s. induction q as [|task q IH]; intros s.
  - simpl. destruct (forallb _ _); reflexivity.
  - rewrite processQueue_from_cons.
    destruct (assign _ _) as [[i ws]|] eqn:Ha; [|reflexivity].
    rewrite IH. simpl workersRef. simpl map.
    rewrite (assign_held _ _ _ _ Ha). simpl. apply Permutation_middle.
Qed.

Lemma processQueue_from_holds_count (id : string) (q : list Task.t) (s : state) :
  heldWith id (processQueue_from q s) + queuedWith id (processQueue_from q s)
  = heldWith id s + List.length (filter (fun t => String.eqb (Task.id t) id) q).
Proof.
  unfold heldWith, queuedWith. revert s. induction q as [|task q IH]; intros s.
  - simpl. destruct (forallb _ _); reflexivity.
  - rewrite processQueue_from_cons.
    destruct (assign _ _) as [[i ws]|] eqn:Ha; [|reflexivity].
    rewrite IH. simpl workersRef. rewrite (assign_holds_count id _ _ _ _ Ha).
    simpl filter. destruct (String.eqb (Task.id task) id); simpl; lia.
Qed.

Lemma processQueue_from_has_id (q : list Task.t) (s : state) :
  (forall w, In w (workersRef s) -> Worker.busy w = true ->
             exists id, Worker.currentId w = JS.str id) ->
  forall w, In w (workersRef (processQueue_from q s)) -> Worker.busy w = true ->
            exists id, Worker.currentId w = JS.str id.
Proof.
  revert s. induction q as [|task q IH]; intros s H.
  - simpl. destruct (forallb _ _); exact H.
  - rewrite processQueue_from_cons.
    destruct (assign _ _) as [[i ws]|] eqn:Ha; [|exact H].
    apply IH. simpl. intros w Hw Hb.
    destruct (assign_Some _ _ _ _ Ha) as (l1 & w0 & l2 & E & _ & _ & _ & ->).
    apply in_app_or in Hw as [Hw | [<- | Hw]].
    + apply H; [|exact Hb]. rewrite E. apply in_or_app. now left.
    + now exists (Task.id task).
    + apply H; [|exact Hb]. rewrite E. apply in_or_app. right. now right.
Qed.

(** The flag [isProcessing] after the scheduler: set exactly when a
    worker is busy, provided it was set whenever there was work. *)
Lemma processQueue_from_flag (q : list Task.t) (s : state) :
  (workersRef s <> [] \/ q = []) ->
  (0 < busyCount s + List.length q -> isProcessing s = true) ->
  isProcessing (processQueue_from q s) = true
  <-> 0 < busyCount (processQueue_from q s).
Proof.
  revert s. induction q as [|task q IH]; intros s Hw Hflag.
  - simpl. unfold busyCount in *.
    destruct (forallb _ _) eqn:Hf; simpl.
    + apply all_free_count in Hf. rewrite Hf. split; [discriminate | lia].
    + assert (Hpos : 0 < List.length (filter Worker.busy (workersRef s))).
      { destruct (List.length (filter Worker.busy (workersRef s))) eqn:E; [|lia].
        apply all_free_count in E. congruence. }
      split; [intros _; exact Hpos | intros _; apply Hflag; lia].
  - rewrite processQueue_from_cons.
    assert (Ht : isProcessing s = true) by (apply Hflag; simpl; lia).
    destruct (assign _ _) as [[i ws]|] eqn:Ha.
    + apply IH.
      * left. simpl. intros E. apply (f_equal (@List.length _)) in E.
        rewrite (assign_length _ _ _ _ Ha) in E.
        destruct (assign_Some _ _ _ _ Ha) as (l1 & w & l2 & Hws & _).
        rewrite Hws, List.length_app in E. simpl in E. lia.
      * intros _. exact Ht.
    + apply (assign_None (Task.id task)), all_busy_count in Ha.
      change (isProcessing s = true <-> 0 < busyCount s).
      unfold busyCount. rewrite Ha.
      destruct Hw as [Hw | Hw]; [|discriminate].
      destruct (workersRef s); [now elim Hw | simpl; split; [lia | auto]].
Qed.

End SchedulerCounts.

(** X2. The scheduler saturates the pool: when it returns, the number of
    busy workers is the pool size or, if there was less work than that,
    the work there was; the tasks it did not hand out stay queued, and the
    pool keeps its size. *)
Theorem scheduler_saturates_pool (s : state) :
  busyCount (processQueue s)
  = Nat.min (List.length (workersRef s))
            (busyCount s + List.length (queueRef s)) /\
  List.length (queueRef (processQueue s))
  = busyCount s + List.length (queueRef s) - busyCount (processQueue s) /\
  List.length (workersRef (processQueue s)) = List.length (workersRef s).
Proof.
  unfold processQueue.
  pose proof (processQueue_from_conserve (queueRef s) s) as Hc.
  pose proof (processQueue_from_length (queueRef s) s) as Hl.
  pose proof (processQueue_from_saturated (queueRef s) s) as Hs.
  pose proof (busy_le_length (workersRef (processQueue_from (queueRef s) s))) as Hb.
  fold (busyCount (processQueue_from (queueRef s) s)) in Hb.
  split; [|split; [lia | exact Hl]].
  destruct Hs as [Hq | Hall].
  - rewrite Hq in Hc. simpl in Hc. lia.
  - apply all_busy_count in Hall.
    fold (busyCount (processQueue_from (queueRef s) s)) in Hall. lia.
Qed.

(** * Coherence of the reachable states *)

Section Coherence.

Variable hc : option nat.

Lemma fresh_workers_ids (i n : nat) :
  map Worker.id (fresh_workers i n) = seq i n.
Proof. revert i. induction n as [|n IH]; intros i; simpl; [reflexivity | now rewrite IH]. Qed.

Lemma heldIds_free (ws : list Worker.t) :
  List.length (filter Worker.busy ws) = 0 -> heldIds ws = [].
Proof.
  induction ws as [|w ws IH]; simpl; [reflexivity|].
  destruct (Worker.busy w) eqn:Hb; simpl; [lia|].
  intros H. now rewrite (heldBy_free w Hb), (IH H).
Qed.

(** [coherent] looks at the flag and the pool only. *)
Lemma coherent_ext (s s' : state) :
  isProcessing s' = isProcessing s -> workersRef s' = workersRef s ->
  coherent hc s -> coherent hc s'.
Proof.
  intros Ep Ew [Hflag Hids Hpool]. split.
  - unfold busyCount. now rewrite Ep, Ew.
  - now rewrite Ew.
  - now rewrite Ew.
Qed.

Lemma coherent_init : coherent hc init.
Proof.
  split; simpl.
  - unfold busyCount. simpl. split; [discriminate | lia].
  - tauto.
  - now left.
Qed.

Lemma coherent_initWorkers (s : state) :
  coherent hc s -> coherent hc (initWorkers hc s).
Proof.
  intros Hc. unfold initWorkers.
  destruct (workersRef s) as [|w ws] eqn:Hw; simpl; [|exact Hc].
  destruct Hc as [Hflag Hids Hpool].
  split; simpl.
  - unfold busyCount in *. simpl. rewrite fresh_workers_free.
    rewrite Hw in Hflag. exact Hflag.
  - intros w0 Hin Hb.
    rewrite (fresh_workers_not_busy _ _ _ Hin) in Hb. discriminate.
  - right. apply fresh_workers_ids.
Qed.

(** The scheduler establishes coherence from a state in which the flag
    is set whenever there is work. *)
Lemma processQueue_coherent (s : state) :
  (workersRef s <> [] \/ queueRef s = []) ->
  (0 < busyCount s + List.length (queueRef s) -> isProcessing s = true) ->
  (forall w, In w (workersRef s) -> Worker.busy w = true ->
             exists id, Worker.currentId w = JS.str id) ->
  (workersRef s = [] \/ map Worker.id (workersRef s) = seq 0 (concurrency hc)) ->
  coherent hc (processQueue s).
Proof.
  intros Hw Hflag Hids Hpool. unfold processQueue. split.
  - now apply processQueue_from_flag.
  - now apply processQueue_from_has_id.
  - destruct Hpool as [E | E].
    + left. pose proof (processQueue_from_length (queueRef s) s) as Hl.
      rewrite E in Hl. now destruct (workersRef (processQueue_from (queueRef s) s)).
    + right. now rewrite processQueue_from_ids.
Qed.

Lemma coherent_handleFiles (fileList : list File.t) (s : state) :
  coherent hc s -> coherent hc (handleFiles hc fileList s).
Proof.
  intros Hc. destruct fileList as [|f l]; [exact Hc|]. rewrite handleFiles_cons.
  set (s1 := if Nat.eqb (List.length (workersRef s)) 0 then initWorkers hc s else s).
  assert (H1 : coherent hc s1).
  { subst s1. destruct (Nat.eqb _ _); [now apply coherent_initWorkers | exact Hc]. }
  destruct (filter validFile (f :: l)) as [|v vs].
  - revert H1. apply coherent_ext; auto.
  - revert H1.
    destruct (readNextChunk_frame (v :: vs) 0 s1) as (_ & _ & Ep & _ & _ & _ & Ew & _).
    now apply coherent_ext.
Qed.

Lemma coherent_timerFired (k : nat) (s : state) :
  coherent hc s -> coherent hc (timerFired k s).
Proof.
  destruct (timerFired_frame k s) as (_ & _ & Ep & _ & _ & _ & Ew & _).
  now apply coherent_ext.
Qed.

Lemma coherent_fileLoaded (k : nat) (id : string) (s : state) :
  coherent hc s -> coherent hc (fileLoaded k id s).
Proof.
  destruct (fileLoaded_frame k id s) as (_ & Ep & _ & _ & _ & Ew & _).
  now apply coherent_ext.
Qed.

Lemma coherent_render (s : state) : coherent hc s -> coherent hc (render s).
Proof. now apply coherent_ext. Qed.

Lemma markPending_pending (f : FileRec.t) :
  FileRec.status (markPending f) = "pending" ->
  isIdle f = true \/ (markPending f = f /\ FileRec.status f = "pending").
Proof.
  unfold markPending. destruct (isIdle f); [now left | right; now split].
Qed.

Lemma markPending_id (f : FileRec.t) : FileRec.id (markPending f) = FileRec.id f.
Proof. unfold markPending. now destruct (isIdle f). Qed.

Lemma handleConvert_noop (s : state) :
  filter isIdle (rendered s) = [] -> handleConvert s = s.
Proof. unfold handleConvert. now intros ->. Qed.

(** The state the scheduler is run on by [handleConvert]. *)
Lemma handleConvert_unfold (s : state) :
  filter isIdle (rendered s) <> [] ->
  handleConvert s
  = processQueue
      (setFilesInEvent (map markPending)
         (set_queueRef (queueRef s ++ map taskOf (filter isIdle (rendered s)))
            (set_progress
               (Progress.mk (Progress.current (progress s))
                            (Progress.total (progress s)
                             + Z.of_nat (List.length (filter isIdle (rendered s)))))
               (set_isProcessing true s)))).
Proof.
  unfold handleConvert. intros H.
  destruct (filter isIdle (rendered s)); [now elim H | reflexivity].
Qed.

Lemma coherent_handleConvert (s : state) :
  invariant s -> coherent hc s -> coherent hc (handleConvert s).
Proof.
  intros [_ _ _ _ Hp _] Hc.
  destruct (filter isIdle (rendered s)) as [|f0 idle] eqn:Hidle.
  - now rewrite handleConvert_noop.
  - assert (Hne : filter isIdle (rendered s) <> []) by (rewrite Hidle; discriminate).
    rewrite handleConvert_unfold by exact Hne.
    clear f0 idle Hidle. destruct Hc as [Hflag Hids Hpool].
    apply processQueue_coherent.
    + left. intros E. apply Hne. destruct (Hp E) as (_ & Hf & _). now rewrite Hf.
    + reflexivity.
    + exact Hids.
    + exact Hpool.
Qed.

Lemma coherent_handleWorkerMessage (m : Msg.t) (s : state) :
  invariant s -> coherent hc s -> coherent hc (handleWorkerMessage m s).
Proof.
  intros [_ _ _ Hsat Hp _] [Hflag Hids Hpool].
  rewrite handleWorkerMessage_unfold.
  assert (Hq : queueRef (reconciled m s) = queueRef s) by apply reconciled_queue.
  assert (Hbusy_pos : queueRef s <> [] -> 0 < busyCount s).
  { intros Hne. destruct Hsat as [E | Hall]; [contradiction|].
    apply all_busy_count in Hall. unfold busyCount. rewrite Hall.
    destruct (workersRef s);
      [destruct (Hp eq_refl) as (_ & _ & Hq0 & _); contradiction | simpl; lia]. }
  destruct (release (Msg.id m) (workersRef s)) as [ws|] eqn:Hr.
  - assert (Hw : workersRef (reconciled m s) = ws)
      by (unfold reconciled; simpl; now rewrite Hr).
    assert (Hip : isProcessing (reconciled m s) = isProcessing s)
      by (unfold reconciled; simpl; now rewrite Hr).
    pose proof (release_busy_count _ _ _ Hr) as Hcount.
    apply processQueue_coherent.
    + left. rewrite Hw. intros E. rewrite E in Hcount. simpl in Hcount.
      pose proof (release_length _ _ _ Hr) as Hl. rewrite E in Hl.
      destruct (workersRef s); [discriminate | discriminate].
    + intros _. rewrite Hip. apply Hflag. unfold busyCount. lia.
    + rewrite Hw. intros w Hin Hb.
      destruct (release_Some _ _ _ Hr) as (l1 & w0 & l2 & E & _ & _ & ->).
      apply in_app_or in Hin as [Hin | [<- | Hin]].
      * apply Hids; [|exact Hb]. rewrite E. apply in_or_app. now left.
      * discriminate.
      * apply Hids; [|exact Hb]. rewrite E. apply in_or_app. right. now right.
    + rewrite Hw. destruct Hpool as [E | E].
      * rewrite E in Hr. discriminate.
      * right. now rewrite (release_ids _ _ _ Hr).
  - assert (Hw : workersRef (reconciled m s) = workersRef s)
      by (unfold reconciled; simpl; now rewrite Hr).
    assert (Hip : isProcessing (reconciled m s) = isProcessing s)
      by (unfold reconciled; simpl; now rewrite Hr).
    apply processQueue_coherent.
    + rewrite Hw, Hq. destruct (workersRef s) eqn:E; [right | left; discriminate].
      now destruct (Hp eq_refl) as (_ & _ & Hq0 & _).
    + unfold busyCount. rewrite Hw, Hq, Hip. intros Hpos. apply Hflag.
      destruct (queueRef s) eqn:E; [unfold busyCount; simpl in Hpos; lia|].
      apply Hbusy_pos. discriminate.
    + now rewrite Hw.
    + now rewrite Hw.
Qed.

Lemma coherent_handleClear (s : state) : coherent hc (handleClear hc s).
Proof.
  unfold handleClear, terminateWorkers, initWorkers. simpl. split; simpl.
  - unfold busyCount. simpl. rewrite fresh_workers_free. simpl.
    split; [discriminate | lia].
  - intros w Hin Hb. rewrite (fresh_workers_not_busy _ _ _ Hin) in Hb. discriminate.
  - right. apply fresh_workers_ids.
Qed.

Lemma coherent_removeFile (id : string) (s : state) :
  coherent hc s -> coherent hc (removeFile id s).
Proof. now apply coherent_ext. Qed.

Lemma coherent_download (jszip : bool) (s : state) :
  coherent hc s -> coherent hc (download jszip s).
Proof.
  destruct (download_frame jszip s) as [-> | [t ->]]; [auto|].
  now apply coherent_ext.
Qed.

Lemma reachable_coherent (s : state) : reachable hc s -> coherent hc s.
Proof.
  induction 1 as [|s s' Hr IH Hstep]; [apply coherent_init|].
  pose proof (reachable_invariant hc s Hr) as Hinv.
  destruct Hstep.
  - now apply coherent_handleFiles.
  - now apply coherent_timerFired.
  - now apply coherent_fileLoaded.
  - now apply coherent_render.
  - now apply coherent_handleConvert.
  - now apply coherent_handleWorkerMessage.
  - now apply coherent_download.
  - apply coherent_handleClear.
  - now apply coherent_removeFile.
Qed.

End Coherence.

(** * Runs, counters and draining *)

Section Runs.

Variable hc : option nat.

Lemma handle_step (e : event) (s : state) : step hc s (handle hc e s).
Proof. destruct e; simpl; constructor. Qed.

Lemma reached_reachable (ok : event -> state -> Prop) (s : state) :
  reached ok hc s -> reachable hc s.
Proof.
  induction 1 as [|e s _ IH _]; [apply reach_init|].
  apply (reach_step hc s); [exact IH | apply handle_step].
Qed.

Lemma reached_weaken (ok ok' : event -> state -> Prop) (s : state) :
  (forall e x, ok e x -> ok' e x) -> reached ok hc s -> reached ok' hc s.
Proof.
  intros Himp. induction 1 as [|e s _ IH Hok]; [apply reached_init|].
  apply reached_step; [exact IH | now apply Himp].
Qed.

(** What the intake leaves alone. *)
Lemma handleFiles_keeps (fileList : list File.t) (s : state) :
  files (handleFiles hc fileList s) = files s /\
  rendered (handleFiles hc fileList s) = rendered s /\
  progress (handleFiles hc fileList s) = progress s /\
  queueRef (handleFiles hc fileList s) = queueRef s /\
  busyCount (handleFiles hc fileList s) = busyCount s /\
  activeWorkers (handleFiles hc fileList s) = activeWorkers s /\
  isProcessing (handleFiles hc fileList s) = isProcessing s /\
  posted (handleFiles hc fileList s) = posted s /\
  heldIds (workersRef (handleFiles hc fileList s)) = heldIds (workersRef s) /\
  (forall id, filter (holds id) (workersRef (handleFiles hc fileList s))
              = filter (holds id) (workersRef s)).
Proof.
  destruct fileList as [|f l]; [repeat split|]. rewrite handleFiles_cons.
  set (s1 := if Nat.eqb (List.length (workersRef s)) 0 then initWorkers hc s else s).
  assert (H1 : files s1 = files s /\ rendered s1 = rendered s /\
               progress s1 = progress s /\ queueRef s1 = queueRef s /\
               busyCount s1 = busyCount s /\ activeWorkers s1 = activeWorkers s /\
               isProcessing s1 = isProcessing s /\ posted s1 = posted s /\
               heldIds (workersRef s1) = heldIds (workersRef s) /\
               (forall id, filter (holds id) (workersRef s1)
                           = filter (holds id) (workersRef s))).
  { subst s1. unfold initWorkers, busyCount.
    destruct (workersRef s) as [|w ws] eqn:Hw; simpl; rewrite ?Hw; simpl.
    - rewrite fresh_workers_free.
      rewrite (heldIds_free _ (f_equal (@List.length _) (fresh_workers_free 0 (concurrency hc)))).
      repeat split. intros id. apply filter_none. intros w Hin.
      unfold holds. now rewrite (fresh_workers_not_busy _ _ _ Hin).
    - repeat split. }
  destruct (filter validFile (f :: l)) as [|v vs].
  - exact H1.
  - destruct (readNextChunk_frame (v :: vs) 0 s1)
      as (Ef & Ev & Ei & Ep & Ea & _ & Ew & Eq & Epo).
    unfold busyCount in *. rewrite Ef, Ev, Ei, Ep, Ea, Ew, Eq, Epo. exact H1.
Qed.

Lemma balanced_ext (s s' : state) :
  progress s' = progress s -> workersRef s' = workersRef s ->
  queueRef s' = queueRef s -> balanced s -> balanced s'.
Proof. unfold balanced, busyCount. now intros -> -> ->. Qed.

Lemma balanced_processQueue (s : state) : balanced s -> balanced (processQueue s).
Proof.
  unfold balanced, processQueue. intros H.
  destruct (processQueue_from_frame (queueRef s) s) as (_ & -> & _).
  pose proof (processQueue_from_conserve (queueRef s) s). lia.
Qed.

Lemma balanced_handleConvert (s : state) : balanced s -> balanced (handleConvert s).
Proof.
  intros H. destruct (filter isIdle (rendered s)) as [|f0 idle] eqn:Hidle.
  - now rewrite handleConvert_noop.
  - rewrite handleConvert_unfold by (rewrite Hidle; discriminate).
    apply balanced_processQueue. unfold balanced in *. simpl.
    rewrite List.length_app, length_map.
    change (busyCount (setFilesInEvent _ _)) with (busyCount s). lia.
Qed.

Lemma balanced_answered (m : Msg.t) (s : state) :
  release (Msg.id m) (workersRef s) <> None ->
  balanced s -> balanced (handleWorkerMessage m s).
Proof.
  intros Hr H. rewrite handleWorkerMessage_unfold. apply balanced_processQueue.
  unfold balanced in *. rewrite reconciled_progress, reconciled_queue. simpl.
  destruct (release (Msg.id m) (workersRef s)) as [ws|] eqn:E; [|now elim Hr].
  assert (Hb : busyCount s = S (busyCount (reconciled m s))).
  { unfold busyCount, reconciled. simpl. rewrite E. simpl.
    exact (release_busy_count _ _ _ E). }
  lia.
Qed.

Lemma reached_balanced (s : state) : reached answered hc s -> balanced s.
Proof.
  induction 1 as [|e s _ IH Hok]; [reflexivity|].
  destruct e; simpl.
  - unfold balanced in *.
    destruct (handleFiles_keeps fileList s) as (_ & _ & -> & -> & -> & _). exact IH.
  - destruct (timerFired_frame k s) as (_ & _ & _ & Ep & _ & _ & Ew & Eq & _).
    revert IH. now apply balanced_ext.
  - destruct (fileLoaded_frame k id s) as (_ & _ & Ep & _ & _ & Ew & Eq & _).
    revert IH. now apply balanced_ext.
  - exact IH.
  - now apply balanced_handleConvert.
  - now apply balanced_answered.
  - destruct (download_frame jszip s) as [-> | [t ->]]; exact IH.
  - unfold balanced, handleClear, terminateWorkers, initWorkers, busyCount. simpl.
    now rewrite fresh_workers_free.
  - exact IH.
Qed.

(** In a coherent state a busy pool has a first running id, and that id
    is held. *)
Lemma firstRunning_held (ws : list Worker.t) (id : string) :
  firstRunning ws = Some id -> release id ws <> None.
Proof.
  intros H Hn. apply release_None in Hn.
  assert (Hin : In id (heldIds ws)).
  { clear Hn. induction ws as [|w ws IH]; simpl in *; [discriminate|].
    apply in_or_app. destruct (heldBy w) as [|x l]; [right; now apply IH|].
    injection H as ->. left. now left. }
  apply heldIds_count in Hin. rewrite Hn in Hin. simpl in Hin. lia.
Qed.

Lemma firstRunning_Some (ws : list Worker.t) :
  (forall w, In w ws -> Worker.busy w = true ->
             exists id, Worker.currentId w = JS.str id) ->
  0 < List.length (filter Worker.busy ws) ->
  exists id, firstRunning ws = Some id.
Proof.
  induction ws as [|w ws IH]; simpl; intros Hids Hpos; [lia|].
  unfold heldBy. destruct (Worker.busy w) eqn:Hb.
  - destruct (Hids w (or_introl eq_refl) Hb) as (id & ->). now exists id.
  - apply IH; [|exact Hpos]. intros w' Hw'. apply Hids. now right.
Qed.

Lemma firstRunning_None (ws : list Worker.t) :
  List.length (filter Worker.busy ws) = 0 -> firstRunning ws = None.
Proof.
  induction ws as [|w ws IH]; simpl; [reflexivity|].
  destruct (Worker.busy w) eqn:Hb; simpl; [lia|].
  intros H. now rewrite (heldBy_free w Hb), IH.
Qed.

(** Reachable and no worker busy: nothing is queued and the flag is
    down. *)
Lemma idle_pool_nothing_left (s : state) :
  reachable hc s -> busyCount s = 0 ->
  queueRef s = [] /\ isProcessing s = false.
Proof.
  intros Hr Hb.
  destruct (reachable_invariant hc s Hr) as [_ _ _ Hsat Hp _].
  destruct (reachable_coherent hc s Hr) as [Hflag _ _].
  assert (Hq : queueRef s = []).
  { destruct Hsat as [E | Hall]; [exact E|].
    apply all_busy_count in Hall. unfold busyCount in Hb. rewrite Hb in Hall.
    destruct (workersRef s);
      [now destruct (Hp eq_refl) as (_ & _ & Hq0 & _) | discriminate]. }
  split; [exact Hq|].
  destruct (isProcessing s); [|reflexivity].
  destruct Hflag as [H _]. specialize (H eq_refl). lia.
Qed.

(** One answer takes one task off the work that is left. *)
Lemma answered_measure (m : Msg.t) (s : state) :
  release (Msg.id m) (workersRef s) <> None ->
  S (busyCount (handleWorkerMessage m s)
     + List.length (queueRef (handleWorkerMessage m s)))
  = busyCount s + List.length (queueRef s).
Proof.
  intros Hr. rewrite handleWorkerMessage_unfold. unfold processQueue.
  rewrite processQueue_from_conserve, reconciled_queue.
  destruct (release (Msg.id m) (workersRef s)) as [ws|] eqn:E; [|now elim Hr].
  unfold busyCount, reconciled. simpl. rewrite E. simpl.
  rewrite (release_busy_count _ _ _ E). lia.
Qed.

Lemma drain_steps (result : string -> Msg.t) :
  (forall id, Msg.id (result id) = id) ->
  forall (n : nat) (s : state),
    reached answered hc s ->
    busyCount s + List.length (queueRef s) = n ->
    reached answered hc (drain result n s) /\
    busyCount (drain result n s) = 0 /\
    Progress.total (progress (drain result n s)) = Progress.total (progress s).
Proof.
  intros Hres. induction n as [|n IH]; intros s Hs Hn.
  - simpl. split; [exact Hs|]. split; [lia | reflexivity].
  - simpl.
    assert (Hr : reachable hc s) by exact (reached_reachable _ _ Hs).
    destruct (busyCount s) as [|b] eqn:Hb.
    + destruct (idle_pool_nothing_left s Hr Hb) as (Hq & _). rewrite Hq in Hn.
      simpl in Hn. discriminate.
    + destruct (reachable_coherent hc s Hr) as [_ Hids _].
      destruct (firstRunning_Some (workersRef s) Hids) as (id & Hid).
      { fold (busyCount s). lia. }
      rewrite Hid.
      assert (Hheld : release (Msg.id (result id)) (workersRef s) <> None).
      { rewrite Hres. now apply firstRunning_held. }
      destruct (IH (handleWorkerMessage (result id) s)) as (H1 & H2 & H3).
      * exact (reached_step answered hc (Message (result id)) s Hs Hheld).
      * pose proof (answered_measure _ _ Hheld). lia.
      * split; [exact H1|]. split; [exact H2|].
        rewrite H3. now rewrite handleWorkerMessage_progress.
Qed.

(** Draining moves tasks from the head of the queue to the end of the
    dispatch log, and nothing else. *)
Lemma drain_fifo (result : string -> Msg.t) (n : nat) (s : state) :
  map snd (posted (drain result n s)) ++ queueRef (drain result n s)
  = map snd (posted s) ++ queueRef s.
Proof.
  revert s. induction n as [|n IH]; intros s; simpl; [reflexivity|].
  destruct (firstRunning (workersRef s)); [|reflexivity].
  rewrite IH. apply handleWorkerMessage_fifo.
Qed.

End Runs.

(** * Every id is waiting or running at most once *)

Section Multiplicity.

Variable hc : option nat.

Lemma filter_map_length {A B : Type} (p : B -> bool) (g : A -> B) (l : list A) :
  List.length (filter p (map g l)) = List.length (filter (fun x => p (g x)) l).
Proof.
  induction l as [|x l IH]; simpl; [reflexivity|].
  destruct (p (g x)); simpl; now rewrite IH.
Qed.

Lemma filter_length_mono {A : Type} (p q : A -> bool) (l : list A) :
  (forall x, In x l -> p x = true -> q x = true) ->
  List.length (filter p l) <= List.length (filter q l).
Proof.
  induction l as [|x l IH]; simpl; intros H; [lia|].
  assert (IH' : List.length (filter p l) <= List.length (filter q l))
    by (apply IH; intros y Hy; apply H; now right).
  destruct (p x) eqn:Hp.
  - rewrite (H x (or_introl eq_refl) Hp). simpl. lia.
  - destruct (q x); simpl; lia.
Qed.

Lemma filter_and_length {A : Type} (p q : A -> bool) (l : list A) :
  List.length (filter q (filter p l))
  = List.length (filter (fun x => p x && q x) l).
Proof.
  induction l as [|x l IH]; simpl; [reflexivity|].
  destruct (p x); simpl; [destruct (q x); simpl; now rewrite IH | exact IH].
Qed.

Lemma filter_pos_In {A : Type} (p : A -> bool) (l : list A) :
  0 < List.length (filter p l) <-> exists x, In x l /\ p x = true.
Proof.
  split.
  - destruct (filter p l) as [|x l'] eqn:E; simpl; [lia|]. intros _.
    exists x. apply filter_In. rewrite E. now left.
  - intros (x & Hx & Hp).
    assert (Hin : In x (filter p l)) by (apply filter_In; now split).
    destruct (filter p l); [destruct Hin | simpl; lia].
Qed.

(** Two elements that pass a test which at most one element passes are
    the same. *)
Lemma filter_le1_eq {A : Type} (p : A -> bool) (l : list A) (x y : A) :
  List.length (filter p l) <= 1 ->
  In x l -> p x = true -> In y l -> p y = true -> x = y.
Proof.
  intros Hle Hx Hpx Hy Hpy.
  assert (Hx' : In x (filter p l)) by (apply filter_In; now split).
  assert (Hy' : In y (filter p l)) by (apply filter_In; now split).
  destruct (filter p l) as [|a [|b l']]; simpl in *; [tauto | | lia].
  destruct Hx' as [<- | []]. destruct Hy' as [<- | []]. reflexivity.
Qed.

Lemma count_absent (id : string) (l : list string) :
  ~ In id l -> List.length (filter (fun x => String.eqb x id) l) = 0.
Proof.
  intros H. rewrite filter_none; [reflexivity|].
  intros x Hx. apply String.eqb_neq. intros ->. contradiction.
Qed.

Lemma holds_fresh (id : string) (i n : nat) :
  filter (holds id) (fresh_workers i n) = [].
Proof. revert i. induction n as [|n IH]; intros i; simpl; auto. Qed.

Lemma markPending_not_idle (f : FileRec.t) : isIdle (markPending f) = false.
Proof.
  unfold markPending. destruct (isIdle f) eqn:E; [reflexivity | exact E].
Qed.

Lemma map_id_markPending (l : list FileRec.t) :
  map FileRec.id (map markPending l) = map FileRec.id l.
Proof. rewrite map_map. apply map_ext. apply markPending_id. Qed.

Lemma map_id_applyResult (m : Msg.t) (l : list FileRec.t) :
  map FileRec.id (map (applyResult m) l) = map FileRec.id l.
Proof. rewrite map_map. apply map_ext. apply applyResult_id. Qed.

Lemma queuedWith_In (id : string) (s : state) :
  In id (map Task.id (queueRef s)) <-> 0 < queuedWith id s.
Proof.
  unfold queuedWith. rewrite filter_pos_In, in_map_iff.
  split; intros (t & H1 & H2); exists t.
  - subst id. split; [exact H2 | apply String.eqb_refl].
  - apply String.eqb_eq in H2. now split.
Qed.

Lemma heldWith_In (id : string) (s : state) :
  In id (heldIds (workersRef s)) <-> 0 < heldWith id s.
Proof. apply heldIds_count. Qed.

Lemma recordsWith_In (id : string) (s : state) :
  In id (map FileRec.id (files s)) <-> 0 < recordsWith id s.
Proof.
  unfold recordsWith. rewrite filter_pos_In, in_map_iff.
  split; intros (t & H1 & H2); exists t.
  - subst id. split; [exact H2 | apply String.eqb_refl].
  - apply String.eqb_eq in H2. now split.
Qed.

(** The counts of the states that differ in neither registry, page,
    queue nor holders. *)
Lemma counts_ext (s s' : state) :
  files s' = files s -> rendered s' = rendered s -> queueRef s' = queueRef s ->
  (forall id, filter (holds id) (workersRef s') = filter (holds id) (workersRef s)) ->
  forall id,
    idleWith id s' = idleWith id s /\ shownIdleWith id s' = shownIdleWith id s /\
    heldWith id s' = heldWith id s /\ queuedWith id s' = queuedWith id s /\
    recordsWith id s' = recordsWith id s.
Proof.
  intros Ef Ev Eq Eh id.
  unfold idleWith, shownIdleWith, heldWith, queuedWith, recordsWith.
  now rewrite Ef, Ev, Eq, Eh.
Qed.

Lemma once_ext (s s' : state) :
  files s' = files s -> rendered s' = rendered s -> queueRef s' = queueRef s ->
  (forall id, filter (holds id) (workersRef s') = filter (holds id) (workersRef s)) ->
  oncePerId s /\ oncePerShownId s -> oncePerId s' /\ oncePerShownId s'.
Proof.
  intros Ef Ev Eq Eh [H1 [H2 H3]]. split; [|split].
  - intros id. destruct (counts_ext s s' Ef Ev Eq Eh id) as (-> & _ & -> & -> & _).
    apply H1.
  - intros id. destruct (counts_ext s s' Ef Ev Eq Eh id) as (_ & -> & -> & -> & _).
    apply H2.
  - rewrite Ev, Ef. exact H3.
Qed.

(** The counts of an unused id are zero. *)
Lemma unused_counts (id : string) (s : state) :
  unused id s ->
  idleWith id s = 0 /\ heldWith id s = 0 /\ queuedWith id s = 0 /\
  recordsWith id s = 0.
Proof.
  intros (Hf & Hq & Hh).
  assert (Hr : recordsWith id s = 0).
  { destruct (recordsWith id s) eqn:E; [reflexivity|].
    exfalso. apply Hf. apply recordsWith_In. lia. }
  repeat split.
  - unfold idleWith. unfold recordsWith in Hr.
    pose proof (filter_length_mono
                  (fun f => isIdle f && String.eqb (FileRec.id f) id)
                  (fun f => String.eqb (FileRec.id f) id) (files s)) as Hm.
    assert (Hle : List.length
                    (filter (fun f => isIdle f && String.eqb (FileRec.id f) id) (files s))
                  <= List.length
                       (filter (fun f => String.eqb (FileRec.id f) id) (files s))).
    { apply Hm. intros f _ H. now apply andb_true_iff in H as [_ H]. }
    lia.
  - destruct (heldWith id s) eqn:E; [reflexivity|].
    exfalso. apply Hh. apply heldWith_In. lia.
  - destruct (queuedWith id s) eqn:E; [reflexivity|].
    exfalso. apply Hq. apply queuedWith_In. lia.
  - exact Hr.
Qed.

Lemma unused_not_shown (id : string) (s : state) :
  oncePerShownId s -> unused id s -> shownIdleWith id s = 0.
Proof.
  intros [_ Hids] (Hf & _). unfold shownIdleWith.
  rewrite filter_none; [reflexivity|]. intros f Hin.
  apply andb_false_iff. right. apply String.eqb_neq. intros E. apply Hf.
  rewrite <- E. now apply Hids.
Qed.

Lemma once_processQueue (s : state) :
  oncePerId s /\ oncePerShownId s ->
  oncePerId (processQueue s) /\ oncePerShownId (processQueue s).
Proof.
  intros [H1 [H2 H3]].
  assert (Hc : forall id,
             heldWith id (processQueue s) + queuedWith id (processQueue s)
             = heldWith id s + queuedWith id s).
  { intros id. exact (processQueue_from_holds_count id (queueRef s) s). }
  assert (Ef : files (processQueue s) = files s)
    by (unfold processQueue;
        now destruct (processQueue_from_frame (queueRef s) s) as (-> & _)).
  assert (Ev : rendered (processQueue s) = rendered s)
    by (unfold processQueue;
        now destruct (processQueue_from_shown (queueRef s) s) as (-> & _)).
  split; [|split].
  - intros id. specialize (H1 id). specialize (Hc id).
    unfold idleWith in *. rewrite Ef. lia.
  - intros id. specialize (H2 id). specialize (Hc id).
    unfold shownIdleWith in *. rewrite Ev. lia.
  - rewrite Ev, Ef. exact H3.
Qed.

Lemma once_handleConvert (s : state) :
  oncePerId s /\ oncePerShownId s ->
  oncePerId (handleConvert s) /\ oncePerShownId (handleConvert s).
Proof.
  intros H. destruct (filter isIdle (rendered s)) as [|f0 idle] eqn:Hidle.
  - now rewrite handleConvert_noop.
  - rewrite handleConvert_unfold by (rewrite Hidle; discriminate).
    clear f0 idle Hidle. apply once_processQueue.
    destruct H as [H1 [H2 H3]].
    assert (Hq : forall id,
               List.length
                 (filter (fun t => String.eqb (Task.id t) id)
                    (queueRef s ++ map taskOf (filter isIdle (rendered s))))
               = queuedWith id s + shownIdleWith id s).
    { intros id. unfold queuedWith, shownIdleWith.
      rewrite filter_app, List.length_app.
      now rewrite (filter_map_length _ taskOf), filter_and_length. }
    assert (Hz : forall id l,
               List.length
                 (filter (fun f => isIdle f && String.eqb (FileRec.id f) id)
                    (map markPending l)) = 0).
    { intros id l. rewrite filter_map_length, filter_none; [reflexivity|].
      intros f _. now rewrite markPending_not_idle. }
    split; [|split].
    + intros id. specialize (H2 id).
      unfold idleWith, heldWith, queuedWith in *. simpl.
      rewrite Hz, Hq. unfold queuedWith. lia.
    + intros id. specialize (H2 id).
      unfold shownIdleWith, heldWith, queuedWith in *. simpl.
      rewrite Hz, Hq. unfold queuedWith, shownIdleWith. lia.
    + simpl. intros f' Hin. apply in_map_iff in Hin as (f & <- & Hin).
      rewrite markPending_id, map_id_markPending. now apply H3.
Qed.

Lemma once_handleWorkerMessage (m : Msg.t) (s : state) :
  oncePerId s /\ oncePerShownId s ->
  oncePerId (handleWorkerMessage m s) /\ oncePerShownId (handleWorkerMessage m s).
Proof.
  intros [H1 [H2 H3]]. rewrite handleWorkerMessage_unfold. apply once_processQueue.
  assert (Hi : forall id, idleWith id (reconciled m s) <= idleWith id s).
  { intros id. unfold idleWith. rewrite reconciled_files, filter_map_length.
    apply filter_length_mono. intros f _. unfold applyResult.
    destruct (String.eqb (FileRec.id f) (Msg.id m)); [discriminate | auto]. }
  assert (Hv : rendered (reconciled m s) = rendered s)
    by (unfold reconciled; simpl; now destruct (release _ _)).
  assert (Hq : forall id, queuedWith id (reconciled m s) = queuedWith id s)
    by (intros id; unfold queuedWith; now rewrite reconciled_queue).
  assert (Hh : forall id, heldWith id (reconciled m s) <= heldWith id s).
  { intros id. unfold heldWith, reconciled. simpl.
    destruct (release (Msg.id m) (workersRef s)) as [ws|] eqn:E; simpl; [|lia].
    pose proof (release_holds_count id _ _ _ E). lia. }
  split; [|split].
  - intros id. specialize (H1 id). specialize (Hi id). specialize (Hh id).
    rewrite Hq. lia.
  - intros id. specialize (H2 id). specialize (Hh id).
    unfold shownIdleWith in *. rewrite Hv, Hq. lia.
  - rewrite Hv, reconciled_files, map_id_applyResult. exact H3.
Qed.

Lemma once_fileLoaded (k : nat) (id : string) (s : state) :
  unused id s -> oncePerId s /\ oncePerShownId s ->
  oncePerId (fileLoaded k id s) /\ oncePerShownId (fileLoaded k id s).
Proof.
  intros Hfresh H. destruct (nth_error (readers s) k) as [file|] eqn:Hk;
    [|now rewrite (fileLoaded_None _ _ _ Hk)].
  rewrite (fileLoaded_Some _ _ _ _ Hk).
  pose proof (unused_not_shown id s (proj2 H) Hfresh) as Hs0.
  destruct (unused_counts id s Hfresh) as (Hi0 & Hh0 & Hq0 & _).
  destruct H as [H1 [H2 H3]].
  assert (Hi : forall x,
             idleWith x (readerOnload file id (set_readers (removeAt k (readers s)) s))
             = idleWith x s + (if String.eqb id x then 1 else 0)).
  { intros x. unfold idleWith. simpl. rewrite filter_app, List.length_app. simpl.
    destruct (String.eqb id x); reflexivity. }
  split; [|split].
  - intros x. rewrite Hi. specialize (H1 x).
    unfold heldWith, queuedWith in *. simpl.
    destruct (String.eqb_spec id x) as [<- | _]; [|lia].
    unfold heldWith, queuedWith in Hh0, Hq0. lia.
  - intros x. exact (H2 x).
  - simpl. intros f Hin. rewrite map_app. apply in_or_app. left. now apply H3.
Qed.

Lemma once_render (s : state) :
  oncePerId s /\ oncePerShownId s -> oncePerId (render s) /\ oncePerShownId (render s).
Proof.
  intros [H1 _]. split; [exact H1|]. split.
  - exact H1.
  - simpl. intros f Hin. now apply in_map.
Qed.

Lemma once_handleClear (s : state) :
  oncePerId (handleClear hc s) /\ oncePerShownId (handleClear hc s).
Proof.
  split; [|split].
  - intros x. unfold idleWith, heldWith, queuedWith, handleClear,
      terminateWorkers, initWorkers. simpl. rewrite holds_fresh. simpl. lia.
  - intros x. unfold shownIdleWith, heldWith, queuedWith, handleClear,
      terminateWorkers, initWorkers. simpl. rewrite holds_fresh. simpl. lia.
  - simpl. tauto.
Qed.

Lemma once_removeFile (id : string) (s : state) :
  oncePerId s /\ oncePerShownId s ->
  oncePerId (removeFile id s) /\ oncePerShownId (removeFile id s).
Proof.
  intros [H1 [H2 H3]].
  assert (Hle : forall x l,
             List.length
               (filter (fun f => isIdle f && String.eqb (FileRec.id f) x)
                  (filter (fun f => negb (String.eqb (FileRec.id f) id)) l))
             <= List.length
                  (filter (fun f => isIdle f && String.eqb (FileRec.id f) x) l)).
  { intros x l. rewrite filter_and_length. apply filter_length_mono.
    intros f _ Hf. now apply andb_true_iff in Hf as [_ Hf]. }
  split; [|split].
  - intros x. specialize (H1 x). specialize (Hle x (files s)).
    unfold idleWith, heldWith, queuedWith in *. simpl. lia.
  - intros x. specialize (H2 x). specialize (Hle x (rendered s)).
    unfold shownIdleWith, heldWith, queuedWith in *. simpl. lia.
  - simpl. intros f Hin. apply filter_In in Hin as [Hin Hne].
    specialize (H3 f Hin). apply in_map_iff in H3 as (g & Hg & Hgin).
    apply in_map_iff. exists g. split; [exact Hg|].
    apply filter_In. split; [exact Hgin|]. now rewrite Hg.
Qed.

Lemma once_init : oncePerId init /\ oncePerShownId init.
Proof.
  split; [|split].
  - intros id. unfold idleWith, heldWith, queuedWith. simpl. lia.
  - intros id. unfold shownIdleWith, heldWith, queuedWith. simpl. lia.
  - simpl. tauto.
Qed.

Lemma once_step (e : event) (s : state) :
  freshIds e s -> oncePerId s /\ oncePerShownId s ->
  oncePerId (handle hc e s) /\ oncePerShownId (handle hc e s).
Proof.
  intros Hok H. destruct e; simpl in *.
  - destruct (handleFiles_keeps hc fileList s)
      as (Ef & Ev & _ & Eq & _ & _ & _ & _ & _ & Eh).
    revert H. now apply once_ext.
  - destruct (timerFired_frame k s) as (Ef & Ev & _ & _ & _ & _ & Ew & Eq & _).
    revert H. apply once_ext; auto. intros id. now rewrite Ew.
  - now apply once_fileLoaded.
  - now apply once_render.
  - now apply once_handleConvert.
  - now apply once_handleWorkerMessage.
  - destruct (download_frame jszip s) as [-> | [t ->]]; [exact H|].
    revert H. now apply once_ext.
  - apply once_handleClear.
  - now apply once_removeFile.
Qed.

Lemma reached_once (s : state) :
  reached freshIds hc s -> oncePerId s /\ oncePerShownId s.
Proof.
  induction 1 as [|e s _ IH Hok]; [apply once_init|].
  now apply once_step.
Qed.

Lemma reached_oncePerId (s : state) : reached freshIds hc s -> oncePerId s.
Proof. intros H. apply (reached_once s H). Qed.

(** ** Records in step with their tasks *)

Lemma tracked_ext (s s' : state) :
  files s' = files s -> rendered s' = rendered s -> queueRef s' = queueRef s ->
  heldIds (workersRef s') = heldIds (workersRef s) ->
  tracked s -> tracked s'.
Proof.
  intros Ef Ev Eq Eh [H1 H2 H3]. split.
  - intros id. unfold recordsWith. rewrite Ef. apply H1.
  - rewrite Ev, Ef. exact H2.
  - rewrite Ef, Eq, Eh. exact H3.
Qed.

Lemma tracked_init : tracked init.
Proof.
  split; simpl.
  - intros id. unfold recordsWith. simpl. lia.
  - tauto.
  - tauto.
Qed.

Lemma tracked_processQueue (s : state) : tracked s -> tracked (processQueue s).
Proof.
  intros [H1 H2 H3]. unfold processQueue.
  destruct (processQueue_from_frame (queueRef s) s) as (Ef & _).
  destruct (processQueue_from_shown (queueRef s) s) as (Ev & _).
  split.
  - intros id. unfold recordsWith. rewrite Ef. apply H1.
  - rewrite Ev, Ef. exact H2.
  - rewrite Ef. intros f Hin Hfl. apply H3; [exact Hin|].
    exact (Permutation_in _ (processQueue_from_held (queueRef s) s) Hfl).
Qed.

Lemma markPending_status (f : FileRec.t) :
  isIdle f = true \/ FileRec.status f = "pending" ->
  FileRec.status (markPending f) = "pending".
Proof.
  unfold markPending. destruct (isIdle f) eqn:E; [reflexivity|].
  intros [H | H]; [discriminate | exact H].
Qed.

Lemma tracked_handleConvert (s : state) : tracked s -> tracked (handleConvert s).
Proof.
  intros H. destruct (filter isIdle (rendered s)) as [|f0 idle] eqn:Hidle.
  - now rewrite handleConvert_noop.
  - rewrite handleConvert_unfold by (rewrite Hidle; discriminate).
    clear f0 idle Hidle. apply tracked_processQueue.
    destruct H as [H1 H2 H3]. split.
    + intros id. unfold recordsWith. simpl.
      rewrite filter_map_length.
      rewrite (filter_ext _ (fun f => String.eqb (FileRec.id f) id));
        [apply H1|]. intros f. now rewrite markPending_id.
    + simpl. intros g' f' Hg Hidle. apply in_map_iff in Hg as (g & <- & _).
      now rewrite markPending_not_idle in Hidle.
    + simpl. intros f' Hin Hfl. apply in_map_iff in Hin as (f & <- & Hin).
      rewrite markPending_id in Hfl. apply markPending_status.
      rewrite map_app, app_assoc in Hfl. apply in_app_or in Hfl as [Hfl | Hfl].
      * right. now apply H3.
      * left. rewrite map_map in Hfl. apply in_map_iff in Hfl as (g & Hg & Hgin).
        apply filter_In in Hgin as [Hgin Hgidle].
        exact (H2 g f Hgin Hgidle Hin (eq_sym Hg)).
Qed.

Lemma tracked_handleWorkerMessage (m : Msg.t) (s : state) :
  release (Msg.id m) (workersRef s) <> None ->
  oncePerId s -> oncePerShownId s ->
  tracked s -> tracked (handleWorkerMessage m s).
Proof.
  intros Hans Honce [Hshown _] [H1 H2 H3].
  rewrite handleWorkerMessage_unfold. apply tracked_processQueue.
  destruct (release (Msg.id m) (workersRef s)) as [ws|] eqn:Hr; [|now elim Hans].
  assert (Hheld : 0 < heldWith (Msg.id m) s).
  { unfold heldWith. pose proof (release_holds_count (Msg.id m) _ _ _ Hr) as E.
    rewrite String.eqb_refl in E. lia. }
  assert (Hw : workersRef (reconciled m s) = ws)
    by (unfold reconciled; simpl; now rewrite Hr).
  assert (Hv : rendered (reconciled m s) = rendered s)
    by (unfold reconciled; simpl; now rewrite Hr).
  split.
  - intros id. unfold recordsWith. rewrite reconciled_files, filter_map_length.
    rewrite (filter_ext _ (fun f => String.eqb (FileRec.id f) id));
      [apply H1|]. intros f. now rewrite applyResult_id.
  - rewrite Hv, reconciled_files. intros g f' Hg Hgidle Hin Hid.
    apply in_map_iff in Hin as (f & <- & Hin). rewrite applyResult_id in Hid.
    destruct (String.eqb_spec (FileRec.id f) (Msg.id m)) as [E | Hne].
    + exfalso. specialize (Hshown (Msg.id m)).
      assert (0 < shownIdleWith (Msg.id m) s).
      { unfold shownIdleWith. apply filter_pos_In. exists g. split; [exact Hg|].
        rewrite Hgidle. simpl. apply String.eqb_eq. congruence. }
      lia.
    + rewrite (applyResult_other m f Hne). exact (H2 g f Hg Hgidle Hin Hid).
  - rewrite reconciled_files, Hw, reconciled_queue. intros f' Hin Hfl.
    apply in_map_iff in Hin as (f & <- & Hin). rewrite applyResult_id in Hfl.
    destruct (String.eqb_spec (FileRec.id f) (Msg.id m)) as [E | Hne].
    + exfalso. specialize (Honce (Msg.id m)).
      pose proof (release_holds_count (Msg.id m) _ _ _ Hr) as Ec.
      rewrite String.eqb_refl in Ec. fold (heldWith (Msg.id m) s) in Ec.
      rewrite E in Hfl. apply in_app_or in Hfl as [Hfl | Hfl].
      * apply heldIds_count in Hfl. lia.
      * apply queuedWith_In in Hfl. lia.
    + rewrite (applyResult_other m f Hne). apply H3; [exact Hin|].
      apply in_app_or in Hfl as [Hfl | Hfl]; apply in_or_app; [left | now right].
      apply heldIds_count. apply heldIds_count in Hfl.
      pose proof (release_holds_count (FileRec.id f) _ _ _ Hr). lia.
Qed.

Lemma tracked_fileLoaded (k : nat) (id : string) (s : state) :
  unused id s -> tracked s -> tracked (fileLoaded k id s).
Proof.
  intros Hfresh H. destruct (nth_error (readers s) k) as [file|] eqn:Hk;
    [|now rewrite (fileLoaded_None _ _ _ Hk)].
  rewrite (fileLoaded_Some _ _ _ _ Hk).
  destruct (unused_counts id s Hfresh) as (_ & _ & _ & Hr0).
  destruct Hfresh as (_ & Hq & Hh).
  destruct H as [H1 H2 H3]. split.
  - intros x. unfold recordsWith in *. simpl. rewrite filter_app, List.length_app.
    simpl. specialize (H1 x).
    destruct (String.eqb_spec id x) as [<- | _]; simpl; lia.
  - simpl. intros g f Hg Hgidle Hin Hid.
    apply in_app_or in Hin as [Hin | [<- | []]]; [|reflexivity].
    exact (H2 g f Hg Hgidle Hin Hid).
  - simpl. intros f Hin Hfl.
    apply in_app_or in Hin as [Hin | [<- | []]]; [now apply H3|].
    simpl in Hfl. exfalso. apply in_app_or in Hfl as [Hfl | Hfl]; tauto.
Qed.

Lemma tracked_render (s : state) : tracked s -> tracked (render s).
Proof.
  intros [H1 H2 H3]. split; [exact H1 | | exact H3].
  simpl. intros g f Hg Hgidle Hin Hid.
  assert (E : g = f).
  { apply (filter_le1_eq (fun x => String.eqb (FileRec.id x) (FileRec.id g))
                         (files s)); auto.
    - apply H1.
    - apply String.eqb_refl.
    - now apply String.eqb_eq. }
  now subst f.
Qed.

Lemma tracked_handleClear (s : state) : tracked (handleClear hc s).
Proof.
  split; simpl.
  - intros id. unfold recordsWith. simpl. lia.
  - tauto.
  - tauto.
Qed.

Lemma tracked_removeFile (id : string) (s : state) :
  tracked s -> tracked (removeFile id s).
Proof.
  intros [H1 H2 H3]. split; simpl.
  - intros x. specialize (H1 x). unfold recordsWith in *. simpl.
    pose proof (filter_length_le (fun f => String.eqb (FileRec.id f) x)
                  (filter (fun f => negb (String.eqb (FileRec.id f) id)) (files s))).
    assert (List.length
              (filter (fun f => String.eqb (FileRec.id f) x)
                 (filter (fun f => negb (String.eqb (FileRec.id f) id)) (files s)))
            <= List.length (filter (fun f => String.eqb (FileRec.id f) x) (files s))).
    { rewrite filter_and_length. apply filter_length_mono.
      intros f _ Hf. now apply andb_true_iff in Hf as [_ Hf]. }
    lia.
  - intros g f Hg Hgidle Hin Hid.
    apply filter_In in Hg as [Hg _]. apply filter_In in Hin as [Hin _].
    exact (H2 g f Hg Hgidle Hin Hid).
  - intros f Hin Hfl. apply filter_In in Hin as [Hin _]. now apply H3.
Qed.

Lemma tracked_step (e : event) (s : state) :
  genuine e s -> oncePerId s -> oncePerShownId s ->
  tracked s -> tracked (handle hc e s).
Proof.
  intros [Hans Hfresh] Ho Hs H. destruct e; simpl in *.
  - destruct (handleFiles_keeps hc fileList s)
      as (Ef & Ev & _ & Eq & _ & _ & _ & _ & Eh & _).
    revert H. now apply tracked_ext.
  - destruct (timerFired_frame k s) as (Ef & Ev & _ & _ & _ & _ & Ew & Eq & _).
    revert H. apply tracked_ext; auto. now rewrite Ew.
  - now apply tracked_fileLoaded.
  - now apply tracked_render.
  - now apply tracked_handleConvert.
  - now apply tracked_handleWorkerMessage.
  - destruct (download_frame jszip s) as [-> | [t ->]]; [exact H|].
    revert H. now apply tracked_ext.
  - apply tracked_handleClear.
  - now apply tracked_removeFile.
Qed.

Lemma genuine_fresh (e : event) (s : state) : genuine e s -> freshIds e s.
Proof. now intros [_ H]. Qed.

Lemma genuine_answered (e : event) (s : state) : genuine e s -> answered e s.
Proof. now intros [H _]. Qed.

Lemma reached_tracked (s : state) : reached genuine hc s -> tracked s.
Proof.
  induction 1 as [|e s Hr IH Hok]; [apply tracked_init|].
  destruct (reached_once s (reached_weaken hc _ _ s genuine_fresh Hr)) as [Ho Hs].
  now apply tracked_step.
Qed.

End Multiplicity.

(** * More on string replacement *)

Section ReplaceFacts.

Lemma replace_unfold (s pat rep : string) :
  JS.replace s pat rep
  = if JS.startsWith s pat then (rep ++ JS.drop (String.length pat) s)%string
    else match s with
         | EmptyString => EmptyString
         | String c s' => String c (JS.replace s' pat rep)
         end.
Proof. destruct s; reflexivity. Qed.

Lemma drop_app (a b : string) : JS.drop (String.length a) (a ++ b) = b.
Proof. induction a as [|c a IH]; simpl; [now destruct b | exact IH]. Qed.

(** A pattern at the very start is the first occurrence. *)
Lemma replace_at_start (pat rest rep : string) :
  JS.replace (pat ++ rest) pat rep = (rep ++ rest)%string.
Proof.
  rewrite replace_unfold.
  assert (H : JS.startsWith (pat ++ rest) pat = true)
    by (apply startsWith_iff; now exists rest).
  now rewrite H, drop_app.
Qed.

(** Without an occurrence nothing is replaced. *)
Lemma replace_absent (s pat rep : string) :
  JS.includes s pat = false -> JS.replace s pat rep = s.
Proof.
  induction s as [|c s IH]; intros H; rewrite replace_unfold.
  - rewrite includes_nil in H. now rewrite H.
  - rewrite includes_cons in H. apply orb_false_iff in H as [-> H].
    now rewrite (IH H).
Qed.

(** When the pattern occurs only as the suffix, the suffix is replaced. *)
Lemma replace_only_at_end (base ext rep : string) :
  (forall pre post, (base ++ ext = pre ++ ext ++ post)%string -> post = "") ->
  JS.replace (base ++ ext) ext rep = (base ++ rep)%string.
Proof.
  induction base as [|c base IH]; intros Honly.
  - change ("" ++ ext)%string with ext. change ("" ++ rep)%string with rep.
    rewrite <- (app_empty_r ext) at 1. rewrite replace_at_start. apply app_empty_r.
  - rewrite replace_unfold.
    destruct (JS.startsWith (String c base ++ ext) ext) eqn:Hs.
    + exfalso. apply startsWith_iff in Hs as [post Hp].
      pose proof (Honly "" post Hp) as ->. rewrite app_empty_r in Hp.
      apply (f_equal String.length) in Hp. simpl in Hp.
      rewrite str_length_app in Hp. lia.
    + simpl. f_equal. apply IH. intros pre post H.
      apply (Honly (String c pre) post). simpl. now rewrite H.
Qed.

Lemma occursBeforeEnd_cons (c : ascii) (s pat : string) :
  occursBeforeEnd (String c s) pat
  = (JS.startsWith (String c s) pat && negb (String.eqb (String c s) pat))
    || occursBeforeEnd s pat.
Proof. reflexivity. Qed.

Lemma occursBeforeEnd_false (s pat : string) :
  occursBeforeEnd s pat = false ->
  forall pre post, s = (pre ++ pat ++ post)%string -> post = "".
Proof.
  intros H pre. revert s H. induction pre as [|c pre IH]; intros s H post E.
  - change ("" ++ pat ++ post)%string with (pat ++ post)%string in E.
    destruct s as [|c s].
    + destruct pat; [|discriminate]. exact (eq_sym E).
    + rewrite occursBeforeEnd_cons in H. apply orb_false_iff in H as [H _].
      assert (Hs : JS.startsWith (String c s) pat = true)
        by (apply startsWith_iff; now exists post).
      rewrite Hs in H. apply negb_false_iff, String.eqb_eq in H.
      rewrite H in E. apply (f_equal String.length) in E.
      rewrite str_length_app in E. destruct post; [reflexivity | simpl in E; lia].
  - subst s. change (String c pre ++ pat ++ post)%string
      with (String c (pre ++ pat ++ post)) in H.
    rewrite occursBeforeEnd_cons in H. apply orb_false_iff in H as [_ H].
    exact (IH _ H post eq_refl).
Qed.

End ReplaceFacts.

(** * Runs of the scenarios *)

Section ScenarioRuns.

Variables (ok : event -> state -> Prop) (hc : option nat).

Lemma reached_files (fileList : list File.t) (s : state) :
  reached ok hc s -> ok (Files fileList) s -> reached ok hc (handleFiles hc fileList s).
Proof. intros H Hok. exact (reached_step ok hc (Files fileList) s H Hok). Qed.

Lemma reached_onload (k : nat) (id : string) (s : state) :
  reached ok hc s -> ok (Onload k id) s -> reached ok hc (fileLoaded k id s).
Proof. intros H Hok. exact (reached_step ok hc (Onload k id) s H Hok). Qed.

Lemma reached_render (s : state) :
  reached ok hc s -> ok Render s -> reached ok hc (render s).
Proof. intros H Hok. exact (reached_step ok hc Render s H Hok). Qed.

Lemma reached_convert (s : state) :
  reached ok hc s -> ok Convert s -> reached ok hc (handleConvert s).
Proof. intros H Hok. exact (reached_step ok hc Convert s H Hok). Qed.

Lemma reached_message (m : Msg.t) (s : state) :
  reached ok hc s -> ok (Message m) s -> reached ok hc (handleWorkerMessage m s).
Proof. intros H Hok. exact (reached_step ok hc (Message m) s H Hok). Qed.

Lemma reached_remove (id : string) (s : state) :
  reached ok hc s -> ok (Remove id) s -> reached ok hc (removeFile id s).
Proof. intros H Hok. exact (reached_step ok hc (Remove id) s H Hok). Qed.

End ScenarioRuns.

Section ScenarioReached.

Lemma loaded_steps :
  Scenario.loaded
  = render
      (fileLoaded 0 "i3"
         (fileLoaded 0 "i2"
            (fileLoaded 0 "i1"
               (handleFiles (Some 2) [Scenario.f1; Scenario.f2; Scenario.f3] init)))).
Proof. vm_compute. reflexivity. Qed.

Lemma genuine_loaded : reached genuine (Some 2) Scenario.loaded.
Proof.
  rewrite loaded_steps.
  apply reached_render; [|split; exact I].
  apply reached_onload.
  - apply reached_onload.
    + apply reached_onload.
      * apply reached_files; [apply reached_init | split; exact I].
      * split; [exact I|]. unfold freshIds, unused. vm_compute. intuition discriminate.
    + split; [exact I|]. unfold freshIds, unused. vm_compute. intuition discriminate.
  - split; [exact I|]. unfold freshIds, unused. vm_compute. intuition discriminate.
Qed.

Lemma genuine_started : reached genuine (Some 2) Scenario.started.
Proof. apply reached_convert; [apply genuine_loaded | split; exact I]. Qed.

Lemma genuine_firstDone : reached genuine (Some 2) Scenario.firstDone.
Proof.
  apply reached_message; [apply genuine_started|].
  split; [|exact I]. vm_compute. discriminate.
Qed.

Lemma answered_started : reached answered (Some 2) Scenario.started.
Proof.
  exact (reached_weaken (Some 2) _ _ _ genuine_answered genuine_started).
Qed.

Lemma answered_firstDone : reached answered (Some 2) Scenario.firstDone.
Proof.
  exact (reached_weaken (Some 2) _ _ _ genuine_answered genuine_firstDone).
Qed.

Lemma freshIds_started : reached freshIds (Some 2) Scenario.started.
Proof.
  exact (reached_weaken (Some 2) _ _ _ (genuine_fresh) genuine_started).
Qed.

Lemma genuine_early : reached genuine (Some 2) Scenario.early.
Proof.
  apply reached_onload.
  - apply reached_render; [|split; exact I].
    apply reached_onload.
    + apply reached_files; [apply reached_init | split; exact I].
    + split; [exact I|]. unfold freshIds, unused. vm_compute. intuition discriminate.
  - split; [exact I|]. unfold freshIds, unused. vm_compute. intuition discriminate.
Qed.

End ScenarioReached.

(** * Busy slots and their records *)

Section SlotsAndRecords.

Lemma heldBy_In (w : Worker.t) (id : string) (ws : list Worker.t) :
  In w ws -> Worker.busy w = true -> Worker.currentId w = JS.str id ->
  In id (heldIds ws).
Proof.
  intros Hin Hb Hid. apply heldIds_holds. exists w. split; [exact Hin|].
  unfold holds. rewrite Hb, Hid. simpl. apply String.eqb_refl.
Qed.

End SlotsAndRecords.

(** C1 (amended): when the scheduler gives the queue head to a free
    Worker Slot it marks that slot busy with the task's id, which makes
    one more busy slot, and it changes no Task Record.  There is no
    status [running]: in every state reached when the workers answer for
    the tasks they hold and the ids of the intake are new, every record
    has status [idle], [pending] or [complete], every record whose id a
    busy Worker Slot holds has status [pending], and so has every record
    whose task is queued; each busy slot holds a task id; and the number
    of Worker Slots with [busy = true] equals the [activeWorkers]
    counter. *)
Theorem C1_dispatch_keeps_registry (hc : option nat) (s : state) :
  reached genuine hc s ->
  (forall s0 task q i ws,
     queueRef s0 = task :: q ->
     assign (Task.id task) (workersRef s0) = Some (i, ws) ->
     processQueue s0 = processQueue (dispatched i ws task q s0) /\
     In (Worker.mk i true (JS.str (Task.id task)))
        (workersRef (dispatched i ws task q s0)) /\
     busyCount (dispatched i ws task q s0) = S (busyCount s0) /\
     files (dispatched i ws task q s0) = files s0) /\
  (forall s0, files (processQueue s0) = files s0) /\
  (forall w f, In w (workersRef s) -> Worker.busy w = true ->
     In f (files s) -> Worker.currentId w = JS.str (FileRec.id f) ->
     FileRec.status f = "pending") /\
  (forall t f, In t (queueRef s) -> In f (files s) ->
     Task.id t = FileRec.id f -> FileRec.status f = "pending") /\
  (forall w, In w (workersRef s) -> Worker.busy w = true ->
     exists id, Worker.currentId w = JS.str id) /\
  (forall f, In f (files s) ->
     FileRec.status f = "idle" \/ FileRec.status f = "pending" \/
     FileRec.status f = "complete") /\
  statusCount "running" s = 0 /\
  Z.of_nat (busyCount s) = activeWorkers s.
Proof.
  intros Hg.
  pose proof (reached_reachable hc _ s Hg) as Hr.
  destruct (reachable_invariant hc s Hr) as [Hb Hs _ _ _ _].
  destruct (reachable_coherent hc s Hr) as [_ Hids _].
  destruct (reached_tracked hc s Hg) as [_ _ Hpend].
  rewrite Forall_forall in Hs.
  split; [|split; [|split; [|split; [|split; [|split; [|split]]]]]].
  - intros s0 task q i ws Hq Ha. split; [|split; [|split]].
    + unfold processQueue at 1. rewrite Hq, processQueue_from_cons, Ha. reflexivity.
    + destruct (assign_Some _ _ _ _ Ha) as (l1 & w & l2 & _ & _ & _ & _ & ->).
      simpl. apply in_or_app. right. now left.
    + unfold busyCount. simpl. exact (assign_busy_count _ _ _ _ Ha).
    + reflexivity.
  - intros s0. apply processQueue_from_frame.
  - intros w f Hw Hbusy Hf Hid. apply Hpend; [exact Hf|].
    apply in_or_app. left. exact (heldBy_In w _ _ Hw Hbusy Hid).
  - intros t f Ht Hf Hid. apply Hpend; [exact Hf|].
    apply in_or_app. right. rewrite <- Hid. now apply in_map.
  - exact Hids.
  - intros f Hf. apply wellShaped_status. now apply Hs.
  - unfold statusCount. rewrite filter_none; [reflexivity|].
    intros f Hf. apply wellShaped_not_running. now apply Hs.
  - exact Hb.
Qed.

Lemma C1_dispatch_keeps_registry_witness :
  reached genuine (Some 2) Scenario.firstDone /\
  map Worker.currentId (workersRef Scenario.firstDone) = [JS.str "i3"; JS.str "i2"] /\
  map (fun f => (FileRec.id f, FileRec.status f)) (files Scenario.firstDone)
  = [("i1", "complete"); ("i2", "pending"); ("i3", "pending")] /\
  statusCount "running" Scenario.firstDone = 0 /\
  Z.of_nat (busyCount Scenario.firstDone) = activeWorkers Scenario.firstDone.
Proof.
  split; [exact genuine_firstDone|].
  split; [reflexivity|]. split; [reflexivity|].
  apply (C1_dispatch_keeps_registry (Some 2) Scenario.firstDone).
  exact genuine_firstDone.
Defined.

(** * Removal and the queue *)

Section RemoveAndQueue.

Lemma processQueue_from_posted (q : list Task.t) (s : state) :
  exists rest, posted (processQueue_from q s) = posted s ++ rest.
Proof.
  revert s. induction q as [|task q IH]; intros s.
  - exists []. simpl. rewrite app_nil_r. now destruct (forallb _ _).
  - rewrite processQueue_from_cons.
    destruct (assign _ _) as [[i ws]|].
    + destruct (IH (dispatched i ws task q s)) as (rest & E).
      exists ((i, task) :: rest). rewrite E. simpl. now rewrite <- app_assoc.
    + exists []. simpl. now rewrite app_nil_r.
Qed.

Lemma dispatched_posted (i : nat) (ws : list Worker.t) (t : Task.t)
                        (q : list Task.t) (s : state) :
  posted (dispatched i ws t q s) = posted s ++ [(i, t)].
Proof. reflexivity. Qed.

Lemma release_frees (id : string) (ws ws' : list Worker.t) :
  release id ws = Some ws' -> forall tid, assign tid ws' <> None.
Proof.
  intros H tid Hn. apply assign_None in Hn.
  destruct (release_Some _ _ _ H) as (l1 & w & l2 & _ & _ & _ & ->).
  rewrite forallb_app in Hn. apply andb_true_iff in Hn as [_ Hn].
  simpl in Hn. discriminate.
Qed.

(** The result of a task a worker holds hands the head of the queue to
    a worker at once. *)
Lemma answer_dispatches_head (m : Msg.t) (t : Task.t) (q : list Task.t) (s : state) :
  queueRef s = t :: q -> release (Msg.id m) (workersRef s) <> None ->
  exists i rest, posted (handleWorkerMessage m s) = posted s ++ (i, t) :: rest.
Proof.
  intros Hq Hans. rewrite handleWorkerMessage_unfold. unfold processQueue.
  rewrite reconciled_queue, Hq, processQueue_from_cons.
  destruct (release (Msg.id m) (workersRef s)) as [ws|] eqn:Hr; [|now elim Hans].
  assert (Hw : workersRef (reconciled m s) = ws)
    by (unfold reconciled; simpl; now rewrite Hr).
  assert (Hp : posted (reconciled m s) = posted s)
    by (unfold reconciled; simpl; now rewrite Hr).
  rewrite Hw.
  destruct (assign (Task.id t) ws) as [[i ws']|] eqn:Ha;
    [|now elim (release_frees _ _ _ Hr (Task.id t))].
  destruct (processQueue_from_posted q (dispatched i ws' t q (reconciled m s)))
    as (rest & E).
  exists i, rest. rewrite E, dispatched_posted, Hp, <- app_assoc. reflexivity.
Qed.

End RemoveAndQueue.

(** C10: [removeFile] deletes from the registry the records with the
    given id and nothing else: the other records stay, unchanged and in
    their order, and the queue, the Worker Slots, the counters, the flag
    and the dispatch log are unchanged.  A queued task of the removed
    record stays in the queue and is still dispatched: at the head of the
    queue it is posted to a worker as soon as a worker's result arrives,
    and from a state reached with answered messages, once the workers
    have answered, every task that was queued has been posted, in queue
    order, and counted in [current]; each result, whether its record was
    removed or not, increments [current] by one. *)
Theorem C10_removeFile_frame (hc : option nat) (id : string) (s : state) :
  files (removeFile id s)
  = filter (fun f => negb (String.eqb (FileRec.id f) id)) (files s) /\
  (forall l1 f l2,
     files s = l1 ++ f :: l2 -> FileRec.id f = id ->
     (forall g, In g (l1 ++ l2) -> FileRec.id g <> id) ->
     files (removeFile id s) = l1 ++ l2) /\
  (forall f, In f (files (removeFile id s)) <->
             In f (files s) /\ FileRec.id f <> id) /\
  queueRef (removeFile id s) = queueRef s /\
  workersRef (removeFile id s) = workersRef s /\
  progress (removeFile id s) = progress s /\
  activeWorkers (removeFile id s) = activeWorkers s /\
  isProcessing (removeFile id s) = isProcessing s /\
  posted (removeFile id s) = posted s /\
  (forall m t q,
     queueRef s = t :: q -> release (Msg.id m) (workersRef s) <> None ->
     exists i rest,
       posted (handleWorkerMessage m (removeFile id s))
       = posted s ++ (i, t) :: rest) /\
  (forall result,
     reached answered hc s -> (forall x, Msg.id (result x) = x) ->
     map snd (posted (drain result (busyCount s + List.length (queueRef s))
                            (removeFile id s)))
     = map snd (posted s) ++ queueRef s /\
     queueRef (drain result (busyCount s + List.length (queueRef s))
                     (removeFile id s)) = [] /\
     Progress.current
       (progress (drain result (busyCount s + List.length (queueRef s))
                        (removeFile id s)))
     = (Progress.current (progress s) + Z.of_nat (busyCount s)
        + Z.of_nat (List.length (queueRef s)))%Z) /\
  (forall m,
     handleWorkerMessage m (removeFile id s) = removeFile id (handleWorkerMessage m s) /\
     Progress.current (progress (handleWorkerMessage m (removeFile id s)))
     = (Progress.current (progress s) + 1)%Z).
Proof.
  split; [reflexivity|]. split.
  { intros l1 f l2 Hf Hid Hothers. simpl. rewrite Hf, filter_app. simpl.
    rewrite Hid, String.eqb_refl. simpl. rewrite <- filter_app.
    apply filter_all. apply forallb_forall. intros g Hg.
    apply negb_true_iff, String.eqb_neq. now apply Hothers. }
  split.
  { intros f. simpl. rewrite filter_In, negb_true_iff, String.eqb_neq. tauto. }
  do 6 (split; [reflexivity|]).
  split.
  { intros m t q Hq Hans.
    exact (answer_dispatches_head m t q (removeFile id s) Hq Hans). }
  split.
  { intros result Hs Hres.
    assert (Hs' : reached answered hc (removeFile id s))
      by (apply reached_remove; [exact Hs | exact I]).
    destruct (drain_steps hc result Hres
                (busyCount s + List.length (queueRef s)) (removeFile id s) Hs' eq_refl)
      as (Hd & Hz & Ht).
    pose proof (reached_reachable hc _ _ Hd) as Hr.
    destruct (idle_pool_nothing_left hc _ Hr Hz) as (Hq & _).
    pose proof (drain_fifo result (busyCount s + List.length (queueRef s))
                  (removeFile id s)) as Hfifo.
    rewrite Hq, app_nil_r in Hfifo.
    pose proof (reached_balanced hc _ Hd) as Hbal. unfold balanced in Hbal.
    rewrite Hz, Hq, Ht in Hbal. simpl in Hbal.
    pose proof (reached_balanced hc _ Hs) as Hbal0. unfold balanced in Hbal0.
    split; [exact Hfifo|]. split; [exact Hq|].
    change (progress (removeFile id s)) with (progress s) in Hbal. lia. }
  intros m. split.
  - rewrite !handleWorkerMessage_unfold, removeFile_reconciled.
    apply removeFile_processQueue_from.
  - now rewrite handleWorkerMessage_progress.
Qed.

Lemma C10_removeFile_frame_witness :
  reached answered (Some 2) Scenario.started /\
  map FileRec.id (files Scenario.started) = ["i1"; "i2"; "i3"] /\
  map Task.id (queueRef Scenario.started) = ["i3"] /\
  map FileRec.id (files (removeFile "i3" Scenario.started)) = ["i1"; "i2"] /\
  map (fun p => Task.id (snd p))
      (posted (drain (fun x => Msg.success x "ok") 3 (removeFile "i3" Scenario.started)))
  = ["i1"; "i2"; "i3"] /\
  Progress.current
    (progress (drain (fun x => Msg.success x "ok") 3 (removeFile "i3" Scenario.started)))
  = 3%Z.
Proof.
  split; [exact answered_started|].
  split; [reflexivity|]. split; [reflexivity|]. split; [reflexivity|].
  destruct (C10_removeFile_frame (Some 2) "i3" Scenario.started)
    as (_ & _ & _ & _ & _ & _ & _ & _ & _ & _ & Hdrain & _).
  destruct (Hdrain (fun x => Msg.success x "ok") answered_started (fun x => eq_refl))
    as (Hp & _ & Hc).
  split.
  - rewrite <- (map_map snd Task.id).
    change (busyCount Scenario.started + List.length (queueRef Scenario.started))
      with 3 in Hp.
    rewrite Hp. reflexivity.
  - change (busyCount Scenario.started + List.length (queueRef Scenario.started))
      with 3 in Hc.
    rewrite Hc. reflexivity.
Defined.

(** * Terminated workers *)

Section Termination.

Variable hc : option nat.

Lemma processQueue_from_terminated (q : list Task.t) (s : state) :
  terminated (processQueue_from q s) = terminated s.
Proof.
  revert s. induction q as [|task q IH]; intros s.
  - simpl. destruct (forallb _ _); reflexivity.
  - rewrite processQueue_from_cons.
    destruct (assign _ _) as [[i ws]|]; [|reflexivity].
    now rewrite IH.
Qed.

Lemma handleFiles_terminated (fileList : list File.t) (s : state) :
  terminated (handleFiles hc fileList s) = terminated s.
Proof.
  destruct fileList as [|f l]; [reflexivity|]. rewrite handleFiles_cons.
  assert (E : terminated
                (if Nat.eqb (List.length (workersRef s)) 0 then initWorkers hc s else s)
              = terminated s).
  { unfold initWorkers. destruct (Nat.eqb _ _); [|reflexivity].
    now destruct (Nat.ltb _ _). }
  destruct (filter validFile (f :: l)) as [|v vs]; [exact E|].
  unfold readNextChunk. destruct (Nat.ltb _ _); exact E.
Qed.

Lemma timerFired_terminated (k : nat) (s : state) :
  terminated (timerFired k s) = terminated s.
Proof.
  unfold timerFired. destruct (nth_error _ _) as [[vf i]|]; [|reflexivity].
  unfold readNextChunk. now destruct (Nat.ltb _ _).
Qed.

Lemma fileLoaded_terminated (k : nat) (id : string) (s : state) :
  terminated (fileLoaded k id s) = terminated s.
Proof. unfold fileLoaded. now destruct (nth_error _ _). Qed.

Lemma handleConvert_log (s : state) :
  terminated (handleConvert s) = terminated s /\
  exists rest, posted (handleConvert s) = posted s ++ rest.
Proof.
  assert (Hc : filter isIdle (rendered s) = [] \/ filter isIdle (rendered s) <> [])
    by (destruct (filter isIdle (rendered s)); [now left | right; discriminate]).
  destruct Hc as [Hidle | Hne].
  - rewrite handleConvert_noop by exact Hidle. split; [reflexivity|].
    exists []. now rewrite app_nil_r.
  - rewrite handleConvert_unfold by exact Hne. unfold processQueue.
    split; [now rewrite processQueue_from_terminated|].
    match goal with |- context [processQueue_from ?q ?x] =>
      destruct (processQueue_from_posted q x) as (rest & ->) end.
    now exists rest.
Qed.

Lemma handleWorkerMessage_log (m : Msg.t) (s : state) :
  terminated (handleWorkerMessage m s) = terminated s /\
  exists rest, posted (handleWorkerMessage m s) = posted s ++ rest.
Proof.
  rewrite handleWorkerMessage_unfold. unfold processQueue.
  rewrite processQueue_from_terminated.
  destruct (processQueue_from_posted (queueRef (reconciled m s)) (reconciled m s))
    as (rest & ->).
  unfold reconciled. simpl. destruct (release _ _); simpl; split; eauto.
Qed.

(** The log of posts only grows, and the part of it that went to
    terminated workers only grows. *)
Lemma step_log (s s' : state) :
  step hc s s' -> terminated s <= List.length (posted s) ->
  terminated s <= terminated s' /\ terminated s' <= List.length (posted s').
Proof.
  intros Hstep Hle. destruct Hstep.
  - rewrite handleFiles_terminated.
    destruct (handleFiles_keeps hc fileList s) as (_ & _ & _ & _ & _ & _ & _ & -> & _).
    lia.
  - rewrite timerFired_terminated.
    destruct (timerFired_frame k s) as (_ & _ & _ & _ & _ & _ & _ & _ & ->). lia.
  - rewrite fileLoaded_terminated.
    destruct (fileLoaded_frame k id s) as (_ & _ & _ & _ & _ & _ & _ & _ & ->). lia.
  - simpl. lia.
  - destruct (handleConvert_log s) as (-> & rest & ->).
    rewrite List.length_app. lia.
  - destruct (handleWorkerMessage_log m s) as (-> & rest & ->).
    rewrite List.length_app. lia.
  - destruct (download_frame jszip s) as [-> | [t ->]]; simpl; lia.
  - simpl. lia.
  - simpl. lia.
Qed.

Lemma reachable_log (s : state) :
  reachable hc s -> terminated s <= List.length (posted s).
Proof.
  induction 1 as [|s s' _ IH Hstep]; [simpl; lia|].
  now apply (step_log s s').
Qed.



(** The answer of a worker of the pool is handled. *)
Lemma workerReply_live
    (transform : string -> string -> string + string)
    (j i : nat) (task : Task.t) (s : state) :
  nth_error (posted s) j = Some (i, task) -> terminated s <= j ->
  workerReply transform j s = handleWorkerMessage (workerOnMessage transform task) s.
Proof.
  intros Hj H. unfold workerReply. rewrite Hj.
  apply Nat.ltb_ge in H. now rewrite H.
Qed.

End Termination.



(** Before the reset the same answer is handled: it completes the third
    file. *)
Example live_reply_scenario :
  workerReply (fun _ _ => inl "var c;") 2 Scenario.firstDone
  = handleWorkerMessage Scenario.done3 Scenario.firstDone.
Proof. reflexivity. Qed.

(** * Properties of the pool, the flag and the counters *)

(** X1. The pool is created once and never resized: in every reachable
    state it either does not exist yet, and then no file was picked and
    nothing is queued, or it consists of the workers numbered
    [0 .. n-1], where [n >= 1] is [navigator.hardwareConcurrency || 4];
    at most [n] workers are busy. *)
Theorem pool_is_fixed (hc : option nat) (s : state) :
  reachable hc s ->
  (workersRef s = [] /\ files s = [] /\ queueRef s = []) \/
  (map Worker.id (workersRef s) = seq 0 (concurrency hc) /\
   List.length (workersRef s) = concurrency hc /\
   busyCount s <= concurrency hc /\ 1 <= concurrency hc).
Proof.
  intros Hr.
  destruct (reachable_invariant hc s Hr) as [_ _ _ _ Hp _].
  destruct (reachable_coherent hc s Hr) as [_ _ [E | E]].
  - left. destruct (Hp E) as (Hf & _ & Hq & _). auto.
  - right. split; [exact E|].
    assert (Hl : List.length (workersRef s) = concurrency hc).
    { rewrite <- (length_map Worker.id), E. apply length_seq. }
    split; [exact Hl|]. split.
    + unfold busyCount. rewrite <- Hl. apply busy_le_length.
    + apply concurrency_pos.
Qed.

Lemma pool_is_fixed_witness :
  reachable (Some 2) Scenario.firstDone /\
  ((workersRef Scenario.firstDone = [] /\ files Scenario.firstDone = [] /\
    queueRef Scenario.firstDone = []) \/
   (map Worker.id (workersRef Scenario.firstDone) = seq 0 (concurrency (Some 2)) /\
    List.length (workersRef Scenario.firstDone) = concurrency (Some 2) /\
    busyCount Scenario.firstDone <= concurrency (Some 2) /\
    1 <= concurrency (Some 2))).
Proof.
  split; [exact reachable_firstDone|].
  apply (pool_is_fixed (Some 2) Scenario.firstDone). exact reachable_firstDone.
Defined.

(** X3. The flag [isProcessing] follows the pool: in every reachable
    state it is set exactly when some worker is busy, which is exactly
    when the [activeWorkers] counter, the one the badge [Workers Active]
    tests, is positive; and when it is not set, nothing is queued. *)
Theorem processing_flag_follows_pool (hc : option nat) (s : state) :
  reachable hc s ->
  (isProcessing s = true <-> 0 < busyCount s) /\
  (isProcessing s = true <-> (0 < activeWorkers s)%Z) /\
  (isProcessing s = false -> queueRef s = [] /\ busyCount s = 0).
Proof.
  intros Hr.
  destruct (reachable_invariant hc s Hr) as [Hb _ _ _ _ _].
  destruct (reachable_coherent hc s Hr) as [Hflag _ _].
  split; [exact Hflag|]. split.
  - rewrite Hflag, <- Hb. lia.
  - intros Hf.
    assert (Hz : busyCount s = 0).
    { destruct (busyCount s) eqn:E; [reflexivity|].
      destruct Hflag as [_ H]. rewrite H in Hf; [discriminate | lia]. }
    destruct (idle_pool_nothing_left hc s Hr Hz) as (Hq & _). now split.
Qed.

Lemma processing_flag_follows_pool_witness :
  reachable (Some 2) Scenario.allDone /\
  isProcessing Scenario.allDone = false /\
  queueRef Scenario.allDone = [] /\ busyCount Scenario.allDone = 0.
Proof.
  split; [exact reachable_allDone|]. split; [reflexivity|].
  apply (processing_flag_follows_pool (Some 2) Scenario.allDone).
  - exact reachable_allDone.
  - reflexivity.
Defined.

(** X4. The progress counters balance: when every worker message is the
    answer for a task some worker holds, [current] plus the number of busy
    workers plus the length of the queue equals [total]; so [current]
    never exceeds [total], and once [isProcessing] is off the two are
    equal. *)
Theorem progress_counters_balance (hc : option nat) (s : state) :
  reached answered hc s ->
  (Progress.current (progress s) + Z.of_nat (busyCount s)
   + Z.of_nat (List.length (queueRef s)))%Z = Progress.total (progress s) /\
  (Progress.current (progress s) <= Progress.total (progress s))%Z /\
  (isProcessing s = false ->
   Progress.current (progress s) = Progress.total (progress s)).
Proof.
  intros Hs. pose proof (reached_balanced hc s Hs) as Hbal. unfold balanced in Hbal.
  split; [exact Hbal|]. split; [lia|].
  intros Hf. pose proof (reached_reachable hc _ s Hs) as Hr.
  destruct (reachable_coherent hc s Hr) as [Hflag _ _].
  assert (Hz : busyCount s = 0).
  { destruct (busyCount s) eqn:E; [reflexivity|].
    destruct Hflag as [_ H]. rewrite H in Hf; [discriminate | lia]. }
  destruct (idle_pool_nothing_left hc s Hr Hz) as (Hq & _).
  rewrite Hz, Hq in Hbal. simpl in Hbal. lia.
Qed.

Lemma progress_counters_balance_witness :
  reached answered (Some 2) Scenario.firstDone /\
  (Progress.current (progress Scenario.firstDone)
   + Z.of_nat (busyCount Scenario.firstDone)
   + Z.of_nat (List.length (queueRef Scenario.firstDone)))%Z
  = Progress.total (progress Scenario.firstDone).
Proof.
  split; [exact answered_firstDone|].
  apply (progress_counters_balance (Some 2) Scenario.firstDone).
  exact answered_firstDone.
Defined.

(** X5. The pool drains: from a state reached with answered messages,
    letting the busy workers answer one after the other, whatever their
    results, as many times as there are busy workers and queued tasks,
    ends with no worker busy, an empty queue, [isProcessing] off and
    [current = total], with [total] unchanged. *)
Theorem drain_completes (hc : option nat) (result : string -> Msg.t) (s : state) :
  reached answered hc s ->
  (forall id, Msg.id (result id) = id) ->
  busyCount (drain result (busyCount s + List.length (queueRef s)) s) = 0 /\
  queueRef (drain result (busyCount s + List.length (queueRef s)) s) = [] /\
  isProcessing (drain result (busyCount s + List.length (queueRef s)) s) = false /\
  Progress.total (progress (drain result (busyCount s + List.length (queueRef s)) s))
  = Progress.total (progress s) /\
  Progress.current (progress (drain result (busyCount s + List.length (queueRef s)) s))
  = Progress.total (progress s).
Proof.
  intros Hs Hres.
  destruct (drain_steps hc result Hres _ s Hs eq_refl) as (Hd & Hz & Ht).
  pose proof (reached_reachable hc _ _ Hd) as Hr.
  destruct (idle_pool_nothing_left hc _ Hr Hz) as (Hq & Hf).
  pose proof (reached_balanced hc _ Hd) as Hbal. unfold balanced in Hbal.
  rewrite Hz, Hq, Ht in Hbal. simpl in Hbal.
  repeat split; try assumption. lia.
Qed.

Lemma drain_completes_witness :
  reached answered (Some 2) Scenario.started /\
  busyCount (drain (fun id => Msg.success id "ok") 3 Scenario.started) = 0 /\
  Progress.current (progress (drain (fun id => Msg.success id "ok") 3 Scenario.started))
  = Progress.total (progress Scenario.started).
Proof.
  split; [exact answered_started|].
  destruct (drain_completes (Some 2) (fun id => Msg.success id "ok") Scenario.started
                            answered_started (fun id => eq_refl))
    as (H1 & _ & _ & _ & H2).
  split; [exact H1 | exact H2].
Defined.

(** * The start action and the reset *)

Section StartAction.

Lemma filter_length_zero {A : Type} (p : A -> bool) (l : list A) :
  List.length (filter p l) = 0 -> forall x, In x l -> p x = false.
Proof.
  intros H x Hx. destruct (p x) eqn:E; [|reflexivity].
  assert (Hin : In x (filter p l)) by (apply filter_In; now split).
  destruct (filter p l); [destruct Hin | discriminate].
Qed.

Lemma markPending_not_idle_id (f : FileRec.t) : isIdle f = false -> markPending f = f.
Proof. unfold markPending. now intros ->. Qed.

Lemma handleConvert_files (s : state) :
  filter isIdle (rendered s) <> [] ->
  files (handleConvert s) = map markPending (files s) /\
  rendered (handleConvert s) = map markPending (rendered s).
Proof.
  intros Hne. rewrite handleConvert_unfold by exact Hne. unfold processQueue.
  match goal with |- files (processQueue_from ?q ?x) = _ /\ _ =>
    destruct (processQueue_from_frame q x) as (-> & _);
    destruct (processQueue_from_shown q x) as (-> & _) end.
  split; reflexivity.
Qed.

Lemma handleConvert_progress (s : state) :
  progress (handleConvert s)
  = Progress.mk (Progress.current (progress s))
                (Progress.total (progress s)
                 + Z.of_nat (List.length (filter isIdle (rendered s)))).
Proof.
  destruct (filter isIdle (rendered s)) as [|f0 idle] eqn:Hidle.
  - rewrite handleConvert_noop by exact Hidle. simpl. rewrite Z.add_0_r.
    now destruct (progress s).
  - rewrite handleConvert_unfold by (rewrite Hidle; discriminate).
    unfold processQueue.
    match goal with |- progress (processQueue_from ?q ?x) = _ =>
      destruct (processQueue_from_frame q x) as (_ & -> & _) end.
    simpl. now rewrite Hidle.
Qed.

Lemma no_idle_marked (l : list FileRec.t) : filter isIdle (map markPending l) = [].
Proof.
  apply filter_none. intros f Hf.
  apply in_map_iff in Hf as (g & <- & _). apply markPending_not_idle.
Qed.

Lemma no_idle_shown_after_start (s : state) :
  filter isIdle (rendered (handleConvert s)) = [].
Proof.
  destruct (filter isIdle (rendered s)) as [|f0 idle] eqn:Hidle.
  - now rewrite handleConvert_noop.
  - destruct (handleConvert_files s) as (_ & ->); [rewrite Hidle; discriminate|].
    apply no_idle_marked.
Qed.

Lemma sum_conserved (id : string) (s : state) :
  heldWith id (processQueue s) + queuedWith id (processQueue s)
  = heldWith id s + queuedWith id s.
Proof. exact (processQueue_from_holds_count id (queueRef s) s). Qed.

(** What the start action leaves of the counts of an id. *)
Lemma handleConvert_counts (id : string) (s : state) :
  heldWith id (handleConvert s) + queuedWith id (handleConvert s)
  = heldWith id s + queuedWith id s + shownIdleWith id s.
Proof.
  assert (Hc : filter isIdle (rendered s) = [] \/ filter isIdle (rendered s) <> [])
    by (destruct (filter isIdle (rendered s)); [now left | right; discriminate]).
  destruct Hc as [Hidle | Hne].
  - rewrite handleConvert_noop by exact Hidle.
    assert (E : shownIdleWith id s = 0).
    { unfold shownIdleWith. rewrite <- filter_and_length, Hidle. reflexivity. }
    lia.
  - rewrite handleConvert_unfold by exact Hne.
    rewrite sum_conserved. unfold heldWith, queuedWith, shownIdleWith. simpl.
    rewrite filter_app, List.length_app.
    rewrite (filter_map_length _ taskOf), filter_and_length. simpl. lia.
Qed.

Lemma handleWorkerMessage_counts (id : string) (m : Msg.t) (s : state) :
  heldWith id (handleWorkerMessage m s) + queuedWith id (handleWorkerMessage m s)
  <= heldWith id s + queuedWith id s.
Proof.
  rewrite handleWorkerMessage_unfold, sum_conserved.
  unfold queuedWith. rewrite reconciled_queue.
  unfold heldWith, reconciled. simpl.
  destruct (release (Msg.id m) (workersRef s)) as [ws|] eqn:E; simpl; [|lia].
  pose proof (release_holds_count id _ _ _ E). lia.
Qed.

(** A record left behind stays behind, whatever happens next, short of
    its removal and of a reset. *)
Lemma stranded_persists (hc : option nat) (id : string) (e : event) (s : state) :
  reached genuine hc s -> stranded id s -> genuine e s ->
  e <> Clear -> e <> Remove id -> stranded id (handle hc e s).
Proof.
  intros Hg [(f & Hin & Hid & Hst) Hz] [Hans Hfresh] Hc Hrm.
  destruct (reached_tracked hc s Hg) as [_ Hshown _].
  assert (Hnot : isIdle f = false) by (unfold isIdle; now rewrite Hst).
  destruct e; simpl in *.
  - destruct (handleFiles_keeps hc fileList s)
      as (Ef & Ev & _ & Eq & _ & _ & _ & _ & _ & Eh).
    destruct (counts_ext s _ Ef Ev Eq Eh id) as (_ & _ & E1 & E2 & _).
    split; [exists f; rewrite Ef; auto | now rewrite E1, E2].
  - destruct (timerFired_frame k s) as (Ef & Ev & _ & _ & _ & _ & Ew & Eq & _).
    split; [exists f; rewrite Ef; auto|].
    unfold heldWith, queuedWith in *. now rewrite Ew, Eq.
  - destruct (fileLoaded_frame k id0 s) as (_ & _ & _ & _ & _ & Ew & Eq & _).
    split.
    + exists f. split; [|auto].
      destruct (nth_error (readers s) k) as [file|] eqn:Hk.
      * rewrite (fileLoaded_Some _ _ _ _ Hk). simpl. apply in_or_app. now left.
      * now rewrite (fileLoaded_None _ _ _ Hk).
    + unfold heldWith, queuedWith in *. now rewrite Ew, Eq.
  - split; [exists f; auto | exact Hz].
  - split.
    + exists f. split; [|auto].
      destruct (filter isIdle (rendered s)) as [|f0 idle] eqn:Hidle.
      * now rewrite handleConvert_noop.
      * destruct (handleConvert_files s) as (-> & _); [rewrite Hidle; discriminate|].
        rewrite <- (markPending_not_idle_id f Hnot). now apply in_map.
    + rewrite handleConvert_counts.
      assert (E : shownIdleWith id s = 0).
      { unfold shownIdleWith. rewrite filter_none; [reflexivity|]. intros g Hg'.
        destruct (isIdle g) eqn:Hgi; [|reflexivity]. simpl.
        apply String.eqb_neq. intros Hgid.
        assert (Hfi : isIdle f = true) by (apply (Hshown g f); congruence).
        congruence. }
      lia.
  - assert (Hne : FileRec.id f <> Msg.id m).
    { intros E. apply Hans. apply release_None.
      destruct (filter (holds (Msg.id m)) (workersRef s)) eqn:Hf; [reflexivity|].
      exfalso. unfold heldWith in Hz. rewrite <- Hid, E, Hf in Hz. simpl in Hz. lia. }
    split.
    + exists f. rewrite handleWorkerMessage_files. split; [|auto].
      rewrite <- (applyResult_other m f Hne). now apply in_map.
    + pose proof (handleWorkerMessage_counts id m s). lia.
  - destruct (download_frame jszip s) as [-> | [t ->]];
      (split; [exists f; auto | exact Hz]).
  - now elim Hc.
  - split; [|exact Hz]. exists f. split; [|auto]. apply filter_In. split; [exact Hin|].
    apply negb_true_iff, String.eqb_neq. intros E. apply Hrm. congruence.
Qed.

End StartAction.

(** X6. The start action misses what the page does not show yet: in a
    state reached with answering workers and new ids, a record that was
    read but is not yet on the page when the start button is clicked,
    while the page shows other idle records, is marked [pending] like
    them, but no task is queued for it and [total] does not count it; it
    is left behind, [pending], with no worker and no queue entry, and
    stays so through every later event other than its removal or a
    reset. *)
Theorem unrendered_record_is_stranded (hc : option nat) (s : state) (f : FileRec.t) :
  reached genuine hc s ->
  In f (files s) -> isIdle f = true ->
  ~ In (FileRec.id f) (map FileRec.id (rendered s)) ->
  filter isIdle (rendered s) <> [] ->
  stranded (FileRec.id f) (handleConvert s) /\
  Progress.total (progress (handleConvert s))
  = (Progress.total (progress s)
     + Z.of_nat (List.length (filter isIdle (rendered s))))%Z /\
  (exists k,
     map snd (posted (handleConvert s)) ++ queueRef (handleConvert s)
     = map snd (posted s) ++ queueRef s ++ map taskOf (filter isIdle (rendered s)) /\
     k = List.length (filter isIdle (rendered s))) /\
  (forall e s',
     reached genuine hc s' -> stranded (FileRec.id f) s' -> genuine e s' ->
     e <> Clear -> e <> Remove (FileRec.id f) ->
     stranded (FileRec.id f) (handle hc e s')).
Proof.
  intros Hg Hin Hidle Hnew Hne.
  destruct (reached_tracked hc s Hg) as [_ _ Hpend].
  split; [|split; [|split]].
  - split.
    + exists (markPending f). destruct (handleConvert_files s Hne) as (-> & _).
      split; [now apply in_map|]. split; [apply markPending_id|].
      apply markPending_status. now left.
    + rewrite handleConvert_counts.
      assert (E1 : shownIdleWith (FileRec.id f) s = 0).
      { unfold shownIdleWith. rewrite filter_none; [reflexivity|]. intros g Hg'.
        apply andb_false_iff. right. apply String.eqb_neq. intros E.
        apply Hnew. rewrite <- E. now apply in_map. }
      assert (E2 : heldWith (FileRec.id f) s + queuedWith (FileRec.id f) s = 0).
      { destruct (heldWith (FileRec.id f) s + queuedWith (FileRec.id f) s) eqn:E;
          [reflexivity|]. exfalso.
        assert (Hfl : In (FileRec.id f)
                         (heldIds (workersRef s) ++ map Task.id (queueRef s))).
        { apply in_or_app.
          destruct (heldWith (FileRec.id f) s) eqn:Eh.
          - right. apply queuedWith_In. lia.
          - left. apply heldWith_In. lia. }
        specialize (Hpend f Hin Hfl). unfold isIdle in Hidle.
        rewrite Hpend in Hidle. discriminate. }
      lia.
  - now rewrite handleConvert_progress.
  - eexists. split; [apply handleConvert_fifo | reflexivity].
  - intros e s'. apply stranded_persists.
Qed.

Lemma unrendered_record_is_stranded_witness :
  reached genuine (Some 2) Scenario.early /\
  map (fun f => (FileRec.id f, FileRec.status f)) (files Scenario.early)
  = [("i1", "idle"); ("i2", "idle")] /\
  map FileRec.id (rendered Scenario.early) = ["i1"] /\
  stranded "i2" Scenario.earlyStarted /\
  map (fun f => (FileRec.id f, FileRec.status f)) (files Scenario.earlyStarted)
  = [("i1", "pending"); ("i2", "pending")] /\
  Progress.total (progress Scenario.earlyStarted) = 1%Z.
Proof.
  split; [exact genuine_early|]. split; [reflexivity|]. split; [reflexivity|].
  destruct (unrendered_record_is_stranded (Some 2) Scenario.early
              (recordOf Scenario.f2 "i2") genuine_early) as (H1 & H2 & _).
  - vm_compute. tauto.
  - reflexivity.
  - vm_compute. intuition discriminate.
  - vm_compute. discriminate.
  - split; [exact H1|]. split; reflexivity.
Defined.

(** After the only task of that session the work is over, with one
    record still [pending]. *)
Example stale_start_scenario :
  isProcessing (handleWorkerMessage Scenario.done1 Scenario.earlyStarted) = false /\
  progress (handleWorkerMessage Scenario.done1 Scenario.earlyStarted)
  = Progress.mk 1 1 /\
  map (fun f => (FileRec.id f, FileRec.status f))
      (files (handleWorkerMessage Scenario.done1 Scenario.earlyStarted))
  = [("i1", "complete"); ("i2", "pending")].
Proof. repeat split. Qed.

(** X7. The start action takes the idle records of the page, once: when
    the page shows no idle record it does nothing; otherwise it marks
    every idle record [pending], in the registry and on the page, adds
    the number of idle records of the page to [total], leaves [current]
    alone and puts their tasks, in registry order, behind the tasks
    already waiting; afterwards the page shows no idle record, so a second
    start right after the first changes nothing. *)
Theorem start_takes_idle_once (s : state) :
  (filter isIdle (rendered s) = [] -> handleConvert s = s) /\
  (filter isIdle (rendered s) <> [] ->
   files (handleConvert s) = map markPending (files s) /\
   rendered (handleConvert s) = map markPending (rendered s) /\
   filter isIdle (files (handleConvert s)) = []) /\
  filter isIdle (rendered (handleConvert s)) = [] /\
  Progress.total (progress (handleConvert s))
  = (Progress.total (progress s)
     + Z.of_nat (List.length (filter isIdle (rendered s))))%Z /\
  Progress.current (progress (handleConvert s)) = Progress.current (progress s) /\
  map snd (posted (handleConvert s)) ++ queueRef (handleConvert s)
  = map snd (posted s) ++ queueRef s ++ map taskOf (filter isIdle (rendered s)) /\
  handleConvert (handleConvert s) = handleConvert s.
Proof.
  split; [apply handleConvert_noop|]. split.
  { intros Hne. destruct (handleConvert_files s Hne) as (Ef & Ev).
    split; [exact Ef|]. split; [exact Ev|]. rewrite Ef. apply no_idle_marked. }
  split; [apply no_idle_shown_after_start|].
  split; [now rewrite handleConvert_progress|].
  split; [now rewrite handleConvert_progress|].
  split; [apply handleConvert_fifo|].
  apply handleConvert_noop. apply no_idle_shown_after_start.
Qed.

(** X8. A reset starts a new session: whatever the state, [handleClear]
    leaves the initial state with a freshly created pool of
    [hardwareConcurrency || 4] free workers; only the toast, the reads of
    the intake still in flight with their timers, and the log of past
    posts, now all to terminated workers, are kept.  No worker is busy and
    nothing is queued, and a second reset changes nothing. *)
Theorem reset_is_fresh_session (hc : option nat) (s : state) :
  handleClear hc s
  = set_terminated (List.length (posted s))
      (set_timers (timers s)
         (set_readers (readers s)
            (set_posted (posted s) (set_toast (toast s) (initWorkers hc init))))) /\
  workersRef (handleClear hc s) = fresh_workers 0 (concurrency hc) /\
  busyCount (handleClear hc s) = 0 /\
  handleClear hc (handleClear hc s) = handleClear hc s.
Proof.
  split; [reflexivity|]. split; [reflexivity|]. split; [|reflexivity].
  unfold busyCount, handleClear, terminateWorkers, initWorkers. simpl.
  now rewrite fresh_workers_free.
Qed.

(** * Names, paths and the worker's reply *)

Section NameFacts.

(** Which branch of the remapping a name takes. *)
Lemma remap_branch (name base ext : string) :
  In ext [".ts"; ".tsx"; ".jsx"] -> name = (base ++ ext)%string ->
  (ext = ".ts" /\ JS.endsWith name ".ts" = true) \/
  (ext = ".tsx" /\ JS.endsWith name ".ts" = false /\ JS.endsWith name ".tsx" = true) \/
  (ext = ".jsx" /\ JS.endsWith name ".ts" = false /\ JS.endsWith name ".tsx" = false
   /\ JS.endsWith name ".jsx" = true).
Proof.
  intros Hext ->.
  assert (Hends : JS.endsWith (base ++ ext) ext = true)
    by (apply endsWith_iff; now exists base).
  destruct Hext as [<- | [<- | [<- | []]]].
  - left. now split.
  - right. left. split; [reflexivity|]. split; [|exact Hends].
    exact (endsWith_excl _ ".tsx" ".ts" eq_refl eq_refl Hends).
  - right. right. split; [reflexivity|]. split; [|split; [|exact Hends]].
    + exact (endsWith_excl _ ".jsx" ".ts" eq_refl eq_refl Hends).
    + exact (endsWith_excl _ ".jsx" ".tsx" eq_refl eq_refl Hends).
Qed.

Lemma newNameOf_remap (f : File.t) (base ext : string) :
  In ext [".ts"; ".tsx"; ".jsx"] ->
  File.name f = (base ++ ext)%string ->
  (forall pre post, File.name f = (pre ++ ext ++ post)%string -> post = "") ->
  newNameOf f = (base ++ ".js")%string.
Proof.
  intros Hext Hname Honly. unfold newNameOf.
  rewrite Hname in Honly.
  destruct (remap_branch _ _ _ Hext Hname)
    as [(-> & H1) | [(-> & H1 & H2) | (-> & H1 & H2 & H3)]].
  - rewrite H1, Hname. now apply replace_only_at_end.
  - rewrite H1, H2, Hname. now apply replace_only_at_end.
  - rewrite H1, H2, H3, Hname. now apply replace_only_at_end.
Qed.

End NameFacts.

(** X9. The target path is remapped at its end: for a file whose name
    ends in [.ts], [.tsx] or [.jsx] and whose path ends with its name (the
    name itself, or a directory prefix followed by the name), [newPath] is
    the path with that final extension replaced by [.js], whatever occurs
    earlier in the path. *)
Theorem newPath_replaces_final_extension
    (f : File.t) (id dir base ext : string) :
  In ext [".ts"; ".tsx"; ".jsx"] ->
  File.name f = (base ++ ext)%string ->
  pathOf f = (dir ++ File.name f)%string ->
  FileRec.originalPath (recordOf f id) = (dir ++ base ++ ext)%string /\
  FileRec.newPath (recordOf f id) = (dir ++ base ++ ".js")%string.
Proof.
  intros Hext Hname Hpath. simpl. split.
  - now rewrite Hpath, Hname.
  - now apply (newPathOf_remap f dir base ext).
Qed.

Lemma newPath_replaces_final_extension_witness :
  FileRec.originalPath (recordOf Scenario.tsconfig "i1") = "src/my.tsconfig.ts" /\
  FileRec.newPath (recordOf Scenario.tsconfig "i1") = "src/my.tsconfig.js".
Proof.
  apply (newPath_replaces_final_extension Scenario.tsconfig "i1" "src/" "my.tsconfig" ".ts").
  - simpl. auto.
  - reflexivity.
  - reflexivity.
Defined.

(** X10. The target name is right when the extension occurs once: for a
    file whose name ends in [.ts], [.tsx] or [.jsx] and contains that
    extension nowhere before its end, [newName] is the name with the
    extension replaced by [.js]. *)
Theorem newName_replaces_unique_extension
    (f : File.t) (id base ext : string) :
  In ext [".ts"; ".tsx"; ".jsx"] ->
  File.name f = (base ++ ext)%string ->
  (forall pre post, File.name f = (pre ++ ext ++ post)%string -> post = "") ->
  FileRec.originalName (recordOf f id) = (base ++ ext)%string /\
  FileRec.newName (recordOf f id) = (base ++ ".js")%string.
Proof.
  intros Hext Hname Honly. simpl. split; [exact Hname|].
  now apply (newNameOf_remap f base ext).
Qed.

Lemma newName_replaces_unique_extension_witness :
  FileRec.originalName (recordOf Scenario.f2 "i2") = "f2.tsx" /\
  FileRec.newName (recordOf Scenario.f2 "i2") = "f2.js".
Proof.
  apply (newName_replaces_unique_extension Scenario.f2 "i2" "f2" ".tsx").
  - simpl. auto.
  - reflexivity.
  - apply occursBeforeEnd_false. reflexivity.
Defined.

(** X11. The worker's reply: it carries the id of the task it was sent;
    on success its content is what the transformation returned; on
    failure its error is the thrown message with the first occurrence of
    the file name followed by a colon and a space removed, so a message
    that starts with that prefix loses it and a message without it is
    passed on unchanged.  Delivered to the coordinator, the reply
    completes the record the task was made from with that outcome. *)
Theorem worker_reply
    (transform : string -> string -> string + string) (task : Task.t) :
  Msg.id (workerOnMessage transform task) = Task.id task /\
  (forall output,
     transform (Task.content task) (Task.filename task) = inl output ->
     workerOnMessage transform task = Msg.success (Task.id task) output) /\
  (forall rest,
     transform (Task.content task) (Task.filename task)
     = inr (Task.filename task ++ ": " ++ rest)%string ->
     workerOnMessage transform task = Msg.failure (Task.id task) rest) /\
  (forall message,
     transform (Task.content task) (Task.filename task) = inr message ->
     JS.includes message (Task.filename task ++ ": ") = false ->
     workerOnMessage transform task = Msg.failure (Task.id task) message) /\
  (forall f, task = taskOf f ->
     FileRec.status (applyResult (workerOnMessage transform task) f) = "complete" /\
     match transform (FileRec.inputContent f) (FileRec.originalName f) with
     | inl output =>
         FileRec.content (applyResult (workerOnMessage transform task) f) = Some output /\
         FileRec.error (applyResult (workerOnMessage transform task) f) = None
     | inr message =>
         FileRec.content (applyResult (workerOnMessage transform task) f) = None /\
         FileRec.error (applyResult (workerOnMessage transform task) f)
         = Some (JS.replace message (FileRec.originalName f ++ ": ") "")
     end).
Proof.
  split; [|split; [|split; [|split]]].
  - unfold workerOnMessage. now destruct (transform _ _).
  - intros output H. unfold workerOnMessage. now rewrite H.
  - intros rest H. unfold workerOnMessage. rewrite H.
    rewrite <- app_assoc_str, replace_at_start. reflexivity.
  - intros message H Habs. unfold workerOnMessage. rewrite H.
    now rewrite (replace_absent _ _ _ Habs).
  - intros f ->. unfold workerOnMessage, applyResult, taskOf. simpl.
    destruct (transform (FileRec.inputContent f) (FileRec.originalName f));
      simpl; rewrite String.eqb_refl; simpl; repeat split.
Qed.

Lemma worker_reply_witness :
  workerOnMessage (fun _ filename => inr (filename ++ ": Unexpected token (1:4)")%string)
                  (Task.mk "i2" "const b = <p/>" "f2.tsx")
  = Msg.failure "i2" "Unexpected token (1:4)".
Proof.
  destruct (worker_reply
              (fun _ filename => inr (filename ++ ": Unexpected token (1:4)")%string)
              (Task.mk "i2" "const b = <p/>" "f2.tsx"))
    as (_ & _ & Hprefix & _).
  apply Hprefix. reflexivity.
Defined.

(** * Dispatch order, from the intake to the workers *)

Section DispatchOrder.

(** The scheduler hands out a prefix of the queue, in queue order. *)
Lemma processQueue_from_prefix (q : list Task.t) (s : state) :
  exists k,
    map snd (posted (processQueue_from q s)) = map snd (posted s) ++ firstn k q /\
    queueRef (processQueue_from q s) = skipn k q /\
    busyCount (processQueue_from q s) = busyCount s + k.
Proof.
  revert s. induction q as [|task q IH]; intros s.
  - exists 0. simpl. rewrite app_nil_r. destruct (forallb _ _); auto.
  - rewrite processQueue_from_cons.
    destruct (assign _ _) as [[i ws]|] eqn:Ha.
    + destruct (IH (dispatched i ws task q s)) as (k & E1 & E2 & E3).
      exists (S k). rewrite E1, E2, E3. simpl. rewrite map_app, <- app_assoc.
      unfold busyCount. simpl. rewrite (assign_busy_count _ _ _ _ Ha).
      repeat split. lia.
    + exists 0. simpl. rewrite app_nil_r. auto.
Qed.

Lemma handleFiles_pool (hc : option nat) (fileList : list File.t) (s : state) :
  fileList <> [] ->
  workersRef (handleFiles hc fileList s) = workersRef (initWorkers hc s).
Proof.
  intros Hne. destruct fileList as [|f l]; [now elim Hne|]. rewrite handleFiles_cons.
  set (s1 := if Nat.eqb (List.length (workersRef s)) 0 then initWorkers hc s else s).
  assert (H1 : workersRef s1 = workersRef (initWorkers hc s)).
  { subst s1. unfold initWorkers. now destruct (workersRef s). }
  destruct (filter validFile (f :: l)) as [|v vs].
  - exact H1.
  - now destruct (readNextChunk_frame (v :: vs) 0 s1)
      as (_ & _ & _ & _ & _ & _ & -> & _).
Qed.

(** Whatever the order in which the reads complete, the records enter
    the registry in that order; nothing else changes but the readers. *)
Lemma loadAll_files (loads : list (nat * string)) (s : state) :
  files (loadAll loads s)
  = files s ++ map (fun it => recordOf (fst it) (snd it))
                   (completions loads (readers s)) /\
  workersRef (loadAll loads s) = workersRef s /\
  queueRef (loadAll loads s) = queueRef s /\
  posted (loadAll loads s) = posted s /\
  rendered (loadAll loads s) = rendered s.
Proof.
  revert s. unfold loadAll. induction loads as [|[k id] loads IH]; intros s; simpl.
  - rewrite app_nil_r. auto.
  - destruct (nth_error (readers s) k) as [file|] eqn:Hk.
    + rewrite (fileLoaded_Some _ _ _ _ Hk).
      destruct (IH (readerOnload file id (set_readers (removeAt k (readers s)) s)))
        as (E1 & E2 & E3 & E4 & E5).
      rewrite E1, E2, E3, E4, E5. simpl. rewrite <- app_assoc. auto.
    + rewrite (fileLoaded_None _ _ _ Hk). apply IH.
Qed.

Lemma filter_idle_records (l : list (File.t * string)) :
  filter isIdle (map (fun it => recordOf (fst it) (snd it)) l)
  = map (fun it => recordOf (fst it) (snd it)) l.
Proof.
  apply filter_all. apply forallb_forall. intros f Hin.
  apply in_map_iff in Hin as (it & <- & _). reflexivity.
Qed.

End DispatchOrder.

(** X12. First read, first dispatched: whatever the order in which the
    reads of the intake complete, the records enter the registry in that
    order, and with a pool of one free worker, an empty queue and no idle
    record before, once the page shows them, the start action followed by
    the results of the first [k] of them, delivered in that order, leaves
    exactly the tasks of the first [k + 1] of them posted to the worker,
    in the order the reads completed. *)
Theorem fifo_from_intake
    (w : Worker.t) (loads : list (nat * string)) (ms : list Msg.t) (s : state) :
  workersRef s = [w] -> Worker.busy w = false -> queueRef s = [] ->
  filter isIdle (files s) = [] ->
  map Msg.id ms
  = firstn (List.length ms) (map snd (completions loads (readers s))) ->
  List.length ms < List.length (completions loads (readers s)) ->
  files (loadAll loads s)
  = files s ++ map (fun it => recordOf (fst it) (snd it))
                   (completions loads (readers s)) /\
  map snd (posted (deliver ms (handleConvert (render (loadAll loads s)))))
  = map snd (posted s)
    ++ firstn (S (List.length ms))
              (map (fun it => taskOf (recordOf (fst it) (snd it)))
                   (completions loads (readers s))).
Proof.
  intros Hw Hfree Hq Hnone Hids Hlen.
  destruct (loadAll_files loads s) as (Ef & Ew & Eq & Ep & _).
  split; [exact Ef|].
  destruct (completions loads (readers s)) as [|v vs] eqn:Hcomp;
    [simpl in Hlen; lia|].
  rewrite (pool1_fifo w (recordOf (fst v) (snd v))
             (map (fun it => recordOf (fst it) (snd it)) vs) ms).
  - simpl posted. rewrite Ep. simpl. now rewrite map_map.
  - simpl rendered. rewrite Ef, filter_app, Hnone. simpl app.
    apply (filter_idle_records (v :: vs)).
  - simpl. now rewrite Ew.
  - exact Hfree.
  - simpl. now rewrite Eq.
  - rewrite Hids. simpl. now rewrite !map_map.
  - rewrite length_map. simpl in Hlen. lia.
Qed.

Lemma fifo_from_intake_witness :
  readers (handleFiles (Some 1)
             [Scenario.f1; Scenario.decl; Scenario.f2; Scenario.f3] init)
  = [Scenario.f1; Scenario.f2; Scenario.f3] /\
  map FileRec.id
      (files (loadAll [(2, "i3"); (0, "i1"); (0, "i2")]
                (handleFiles (Some 1)
                   [Scenario.f1; Scenario.decl; Scenario.f2; Scenario.f3] init)))
  = ["i3"; "i1"; "i2"] /\
  map snd (posted (deliver [Scenario.done3; Scenario.done1]
                     (handleConvert
                        (render
                           (loadAll [(2, "i3"); (0, "i1"); (0, "i2")]
                              (handleFiles (Some 1)
                                 [Scenario.f1; Scenario.decl; Scenario.f2; Scenario.f3]
                                 init))))))
  = [taskOf (recordOf Scenario.f3 "i3"); taskOf (recordOf Scenario.f1 "i1");
     taskOf (recordOf Scenario.f2 "i2")].
Proof.
  split; [reflexivity|]. split; [reflexivity|].
  apply (fifo_from_intake (Worker.mk 0 false JS.undefined)
           [(2, "i3"); (0, "i1"); (0, "i2")] [Scenario.done3; Scenario.done1]
           (handleFiles (Some 1)
              [Scenario.f1; Scenario.decl; Scenario.f2; Scenario.f3] init)).
  - reflexivity.
  - reflexivity.
  - reflexivity.
  - reflexivity.
  - reflexivity.
  - vm_compute. lia.
Defined.

(** X13. Dispatch follows the queue for any pool size: the scheduler,
    the completion handler and the start action each post a prefix of
    the queue, in queue order, and leave the rest queued; the start action
    first puts the tasks of the idle records of the page, in registry
    order, behind the tasks already waiting. *)
Theorem dispatch_takes_queue_prefix (m : Msg.t) (s : state) :
  (exists k,
     map snd (posted (processQueue s)) = map snd (posted s) ++ firstn k (queueRef s) /\
     queueRef (processQueue s) = skipn k (queueRef s)) /\
  (exists k,
     map snd (posted (handleWorkerMessage m s))
     = map snd (posted s) ++ firstn k (queueRef s) /\
     queueRef (handleWorkerMessage m s) = skipn k (queueRef s)) /\
  (exists k,
     map snd (posted (handleConvert s))
     = map snd (posted s)
       ++ firstn k (queueRef s ++ map taskOf (filter isIdle (rendered s))) /\
     queueRef (handleConvert s)
     = skipn k (queueRef s ++ map taskOf (filter isIdle (rendered s)))).
Proof.
  split; [|split].
  - destruct (processQueue_from_prefix (queueRef s) s) as (k & E1 & E2 & _).
    now exists k.
  - rewrite handleWorkerMessage_unfold. unfold processQueue.
    destruct (processQueue_from_prefix (queueRef (reconciled m s)) (reconciled m s))
      as (k & E1 & E2 & _).
    exists k. rewrite E1, E2, reconciled_queue. split; [|reflexivity].
    unfold reconciled. simpl. now destruct (release _ _).
  - destruct (filter isIdle (rendered s)) as [|f0 idle] eqn:Hidle.
    + exists 0. rewrite handleConvert_noop by exact Hidle.
      simpl. now rewrite !app_nil_r.
    + rewrite handleConvert_unfold by (rewrite Hidle; discriminate).
      unfold processQueue.
      match goal with |- context [processQueue_from ?q ?x] =>
        destruct (processQueue_from_prefix q x) as (k & E1 & E2 & _) end.
      exists k. rewrite E1, E2. simpl. now rewrite Hidle.
Qed.

(** X14. No double dispatch: when the ids the intake generates are new,
    then in every state reached an id is carried at most once by the idle
    records, the queue and the busy workers taken together; so no two
    workers hold the same id, no id is queued twice, and an id a worker
    holds is not queued. *)
Theorem no_double_dispatch (hc : option nat) (s : state) (id : string) :
  reached freshIds hc s ->
  idleWith id s + heldWith id s + queuedWith id s <= 1.
Proof. intros Hs. exact (reached_oncePerId hc s Hs id). Qed.

Lemma no_double_dispatch_witness :
  reached freshIds (Some 2) Scenario.started /\
  idleWith "i1" Scenario.started + heldWith "i1" Scenario.started
  + queuedWith "i1" Scenario.started <= 1.
Proof.
  split; [exact freshIds_started|].
  apply (no_double_dispatch (Some 2) Scenario.started "i1"). exact freshIds_started.
Defined.

(** * What the intake and the handlers leave alone *)

Section Frames.

Lemma handleFiles_toast (hc : option nat) (fileList : list File.t) (s : state) :
  toast (handleFiles hc fileList s)
  = match fileList, filter validFile fileList with
    | _ :: _, [] => Toast.mk true "No valid TS/JS files found" "error"
    | _, _ => toast s
    end.
Proof.
  destruct fileList as [|f l]; [reflexivity|]. rewrite handleFiles_cons.
  destruct (pool_step_frame hc s) as (_ & _ & _ & _ & _ & Et & _).
  destruct (filter validFile (f :: l)) as [|v vs].
  - reflexivity.
  - destruct (readNextChunk_frame (v :: vs) 0
                (if Nat.eqb (List.length (workersRef s)) 0 then initWorkers hc s else s))
      as (_ & _ & _ & _ & _ & -> & _).
    exact Et.
Qed.

Lemma statusRank_le_2 (st : string) : statusRank st <= 2.
Proof.
  unfold statusRank. destruct (String.eqb st "idle"); [lia|].
  destruct (String.eqb st "pending"); lia.
Qed.

Lemma laterOf_refl (f : FileRec.t) : laterOf f f.
Proof. unfold laterOf. repeat split. lia. Qed.

Lemma laterOf_markPending (f : FileRec.t) : laterOf f (markPending f).
Proof.
  unfold markPending, isIdle.
  destruct (String.eqb_spec (FileRec.status f) "idle") as [E|_]; [|apply laterOf_refl].
  unfold laterOf. simpl. rewrite E. repeat split. unfold statusRank. simpl. lia.
Qed.

Lemma laterOf_applyResult (m : Msg.t) (f : FileRec.t) : laterOf f (applyResult m f).
Proof.
  unfold applyResult. destruct (String.eqb _ _); [|apply laterOf_refl].
  unfold laterOf. simpl. repeat split. apply statusRank_le_2.
Qed.

Lemma Forall2_map_r {A : Type} (R : A -> A -> Prop) (g : A -> A) (l : list A) :
  (forall x, R x (g x)) -> Forall2 R l (map g l).
Proof. intros H. induction l as [|x l IH]; simpl; constructor; auto. Qed.

Lemma Forall2_laterOf_refl (l : list FileRec.t) : Forall2 laterOf l l.
Proof.
  rewrite <- (map_id l) at 2. apply Forall2_map_r. apply laterOf_refl.
Qed.

Lemma handleConvert_later (s : state) :
  exists newer, files (handleConvert s) = newer /\ Forall2 laterOf (files s) newer.
Proof.
  assert (Hc : filter isIdle (rendered s) = [] \/ filter isIdle (rendered s) <> [])
    by (destruct (filter isIdle (rendered s)); [now left | right; discriminate]).
  destruct Hc as [Hidle | Hne].
  - exists (files s). rewrite handleConvert_noop by exact Hidle.
    split; [reflexivity | apply Forall2_laterOf_refl].
  - exists (map markPending (files s)). split.
    + now destruct (handleConvert_files s Hne).
    + apply Forall2_map_r. apply laterOf_markPending.
Qed.

End Frames.

(** X15. The intake only adds records: [handleFiles] on an empty
    selection does nothing; otherwise it creates the pool if there is none
    and leaves an existing pool alone; it creates no record itself, and
    neither it, nor a timer of the chunked reading, nor the [onload] of a
    reader touches the queue, the counters, the flag, the page or the
    workers' tasks, so files picked while a run is in progress wait as
    idle records; and it raises the error toast exactly when the selection
    is not empty and holds no accepted file, in which case no read is
    started. *)
Theorem intake_only_adds_records
    (hc : option nat) (fileList : list File.t) (s : state) :
  handleFiles hc [] s = s /\
  (files (handleFiles hc fileList s) = files s /\
   rendered (handleFiles hc fileList s) = rendered s /\
   progress (handleFiles hc fileList s) = progress s /\
   queueRef (handleFiles hc fileList s) = queueRef s /\
   busyCount (handleFiles hc fileList s) = busyCount s /\
   activeWorkers (handleFiles hc fileList s) = activeWorkers s /\
   isProcessing (handleFiles hc fileList s) = isProcessing s /\
   posted (handleFiles hc fileList s) = posted s /\
   heldIds (workersRef (handleFiles hc fileList s)) = heldIds (workersRef s)) /\
  (workersRef s <> [] -> workersRef (handleFiles hc fileList s) = workersRef s) /\
  (fileList <> [] -> workersRef s = [] ->
   workersRef (handleFiles hc fileList s) = fresh_workers 0 (concurrency hc)) /\
  (fileList <> [] -> filter validFile fileList = [] ->
   readers (handleFiles hc fileList s) = readers s /\
   timers (handleFiles hc fileList s) = timers s /\
   toast (handleFiles hc fileList s)
   = Toast.mk true "No valid TS/JS files found" "error") /\
  (filter validFile fileList <> [] ->
   toast (handleFiles hc fileList s) = toast s) /\
  (forall k s0,
     files (timerFired k s0) = files s0 /\
     rendered (timerFired k s0) = rendered s0 /\
     isProcessing (timerFired k s0) = isProcessing s0 /\
     progress (timerFired k s0) = progress s0 /\
     activeWorkers (timerFired k s0) = activeWorkers s0 /\
     toast (timerFired k s0) = toast s0 /\
     workersRef (timerFired k s0) = workersRef s0 /\
     queueRef (timerFired k s0) = queueRef s0 /\
     posted (timerFired k s0) = posted s0) /\
  (forall k id s0,
     rendered (fileLoaded k id s0) = rendered s0 /\
     isProcessing (fileLoaded k id s0) = isProcessing s0 /\
     progress (fileLoaded k id s0) = progress s0 /\
     activeWorkers (fileLoaded k id s0) = activeWorkers s0 /\
     toast (fileLoaded k id s0) = toast s0 /\
     workersRef (fileLoaded k id s0) = workersRef s0 /\
     queueRef (fileLoaded k id s0) = queueRef s0 /\
     timers (fileLoaded k id s0) = timers s0 /\
     posted (fileLoaded k id s0) = posted s0).
Proof.
  split; [reflexivity|]. split.
  { destruct (handleFiles_keeps hc fileList s)
      as (H1 & H2 & H3 & H4 & H5 & H6 & H7 & H8 & H9 & _).
    repeat split; assumption. }
  split; [|split; [|split; [|split; [|split]]]].
  - intros Hw. destruct fileList as [|it0 rest]; [reflexivity|].
    rewrite handleFiles_pool by discriminate. unfold initWorkers.
    destruct (workersRef s) eqn:E; [now elim Hw | simpl; exact E].
  - intros Hne Hw. rewrite (handleFiles_pool hc fileList s Hne).
    unfold initWorkers. now rewrite Hw.
  - intros Hne Hnone.
    destruct fileList as [|f l]; [now elim Hne|].
    split; [|split].
    + rewrite handleFiles_cons, Hnone. simpl.
      now destruct (pool_step_frame hc s) as (_ & _ & _ & _ & _ & _ & _ & E & _).
    + rewrite handleFiles_cons, Hnone. simpl.
      now destruct (pool_step_frame hc s) as (_ & _ & _ & _ & _ & _ & _ & _ & E & _).
    + rewrite handleFiles_toast. now rewrite Hnone.
  - intros Hsome. rewrite handleFiles_toast.
    destruct fileList as [|it0 rest]; [reflexivity|].
    destruct (filter validFile (it0 :: rest)); [now elim Hsome | reflexivity].
  - intros k s0. apply timerFired_frame.
  - intros k id s0. apply fileLoaded_frame.
Qed.

Lemma intake_only_adds_records_witness :
  readers (handleFiles (Some 2) [Scenario.decl] Scenario.started)
  = readers Scenario.started /\
  timers (handleFiles (Some 2) [Scenario.decl] Scenario.started)
  = timers Scenario.started /\
  toast (handleFiles (Some 2) [Scenario.decl] Scenario.started)
  = Toast.mk true "No valid TS/JS files found" "error".
Proof.
  destruct (intake_only_adds_records (Some 2) [Scenario.decl] Scenario.started)
    as (_ & _ & _ & _ & Hnone & _).
  apply Hnone; [discriminate | reflexivity].
Defined.

(** X16. Records only move forward: every handler other than the reset
    and the removal keeps each record of the registry at its place, with
    its id, names, paths and input, at the same or a later status in the
    order [idle], [pending], [complete], and adds new records only at the
    end; only the [onload] of a reader adds one; the removal keeps only
    records that were there, unchanged; the reset empties the registry. *)
Theorem records_move_forward (hc : option nat) (e : event) (s : state) :
  match e with
  | Clear => files (handle hc e s) = []
  | Remove _ => forall f, In f (files (handle hc e s)) -> In f (files s)
  | Onload _ _ =>
      exists added,
        files (handle hc e s) = files s ++ added /\ List.length added <= 1
  | _ => exists newer,
           files (handle hc e s) = newer /\
           Forall2 laterOf (files s) newer
  end.
Proof.
  destruct e; simpl.
  - exists (files s). split; [apply handleFiles_files | apply Forall2_laterOf_refl].
  - exists (files s). split; [apply timerFired_frame | apply Forall2_laterOf_refl].
  - destruct (nth_error (readers s) k) as [file|] eqn:Hk.
    + exists [recordOf file id]. rewrite (fileLoaded_Some _ _ _ _ Hk). simpl. auto.
    + exists []. rewrite (fileLoaded_None _ _ _ Hk), app_nil_r. simpl. auto.
  - exists (files s). split; [reflexivity | apply Forall2_laterOf_refl].
  - apply handleConvert_later.
  - exists (map (applyResult m) (files s)). split.
    + apply handleWorkerMessage_files.
    + apply Forall2_map_r. apply laterOf_applyResult.
  - exists (files s). split; [|apply Forall2_laterOf_refl].
    now destruct (download_frame jszip s) as [-> | [t ->]].
  - reflexivity.
  - intros f Hf. now apply filter_In in Hf.
Qed.

(** * Removal is permanent; the start button starts *)

Section StartFacts.

Lemma processQueue_busy_min (s : state) :
  busyCount (processQueue s)
  = Nat.min (List.length (workersRef s))
            (busyCount s + List.length (queueRef s)).
Proof.
  unfold processQueue.
  pose proof (processQueue_from_conserve (queueRef s) s) as Hc.
  pose proof (processQueue_from_length (queueRef s) s) as Hl.
  pose proof (busy_le_length (workersRef (processQueue_from (queueRef s) s))) as Hb.
  fold (busyCount (processQueue_from (queueRef s) s)) in Hb.
  destruct (processQueue_from_saturated (queueRef s) s) as [Hq | Hall].
  - rewrite Hq in Hc. simpl in Hc. lia.
  - apply all_busy_count in Hall.
    fold (busyCount (processQueue_from (queueRef s) s)) in Hall. lia.
Qed.

End StartFacts.

(** X17. Removal is permanent: after [removeFile] no record carries the
    removed id, and a worker result that arrives later for that id does
    not bring the record back: the registry stays as the removal left it,
    while the result is still counted in [current]. *)
Theorem removal_is_permanent (m : Msg.t) (s : state) :
  (forall f, In f (files (removeFile (Msg.id m) s)) -> FileRec.id f <> Msg.id m) /\
  files (handleWorkerMessage m (removeFile (Msg.id m) s))
  = files (removeFile (Msg.id m) s) /\
  Progress.current (progress (handleWorkerMessage m (removeFile (Msg.id m) s)))
  = (Progress.current (progress s) + 1)%Z.
Proof.
  assert (Hgone : forall f, In f (files (removeFile (Msg.id m) s)) ->
                            FileRec.id f <> Msg.id m).
  { intros f Hf. simpl in Hf. apply filter_In in Hf as [_ Hne].
    now apply negb_true_iff, String.eqb_neq in Hne. }
  split; [exact Hgone|]. split.
  - rewrite handleWorkerMessage_files.
    rewrite <- (map_id (files (removeFile (Msg.id m) s))) at 2.
    apply map_ext_in. intros f Hf. apply applyResult_other. now apply Hgone.
  - now rewrite handleWorkerMessage_progress.
Qed.

(** X18. The start button starts: in a reachable state in which no run
    is in progress and the page shows idle records, [handleConvert] sets
    [isProcessing], makes [min(pool size, number of idle records of the
    page)] workers busy, at least one, queues the remaining tasks, and
    leaves no idle record on the page. *)
Theorem start_begins_processing (hc : option nat) (s : state) :
  reachable hc s -> isProcessing s = false ->
  filter isIdle (rendered s) <> [] ->
  isProcessing (handleConvert s) = true /\
  busyCount (handleConvert s)
  = Nat.min (concurrency hc) (List.length (filter isIdle (rendered s))) /\
  0 < busyCount (handleConvert s) /\
  List.length (queueRef (handleConvert s))
  = List.length (filter isIdle (rendered s)) - busyCount (handleConvert s) /\
  filter isIdle (rendered (handleConvert s)) = [].
Proof.
  intros Hr Hflag Hne.
  assert (Hidle : 0 < List.length (filter isIdle (rendered s)))
    by (destruct (filter isIdle (rendered s)); [now elim Hne | simpl; lia]).
  destruct (reachable_invariant hc s Hr) as [_ _ _ _ Hp _].
  destruct (reachable_coherent hc s Hr) as [Hcoh _ Hpool].
  assert (Hz : busyCount s = 0).
  { destruct (busyCount s) eqn:E; [reflexivity|].
    destruct Hcoh as [_ H]. rewrite H in Hflag; [discriminate | lia]. }
  destruct (idle_pool_nothing_left hc s Hr Hz) as (Hq & _).
  assert (Hlen : List.length (workersRef s) = concurrency hc).
  { destruct Hpool as [E | E].
    - destruct (Hp E) as (_ & Hf & _). rewrite Hf in Hne. now elim Hne.
    - rewrite <- (length_map Worker.id), E. apply length_seq. }
  assert (Hbusy : busyCount (handleConvert s)
                  = Nat.min (concurrency hc) (List.length (filter isIdle (rendered s)))).
  { rewrite (handleConvert_unfold s Hne), processQueue_busy_min. simpl.
    change (busyCount (setFilesInEvent _ _)) with (busyCount s).
    rewrite Hlen, Hz, Hq. simpl. now rewrite length_map. }
  assert (Hqueue : busyCount (handleConvert s) + List.length (queueRef (handleConvert s))
                   = List.length (filter isIdle (rendered s))).
  { rewrite (handleConvert_unfold s Hne). unfold processQueue.
    rewrite processQueue_from_conserve. simpl.
    change (busyCount (setFilesInEvent _ _)) with (busyCount s).
    rewrite Hz, Hq. simpl. now rewrite length_map. }
  pose proof (concurrency_pos hc) as Hpos.
  assert (Hr' : reachable hc (handleConvert s))
    by (apply (reach_step hc s); [exact Hr | apply step_convert]).
  destruct (reachable_coherent hc _ Hr') as [Hcoh' _ _].
  assert (Hproc : isProcessing (handleConvert s) = true) by (apply Hcoh'; lia).
  split; [exact Hproc|]. split; [exact Hbusy|]. split; [lia|]. split; [lia|].
  apply no_idle_shown_after_start.
Qed.

Lemma start_begins_processing_witness :
  reachable (Some 2) Scenario.loaded /\
  isProcessing Scenario.loaded = false /\
  List.length (filter isIdle (rendered Scenario.loaded)) = 3 /\
  isProcessing (handleConvert Scenario.loaded) = true /\
  busyCount (handleConvert Scenario.loaded) = 2 /\
  List.length (queueRef (handleConvert Scenario.loaded)) = 1.
Proof.
  split; [exact reachable_loaded|]. split; [reflexivity|]. split; [reflexivity|].
  destruct (start_begins_processing (Some 2) Scenario.loaded reachable_loaded eq_refl)
    as (H1 & H2 & _ & H3 & _).
  - vm_compute. discriminate.
  - split; [exact H1|]. split; [rewrite H2; reflexivity | rewrite H3; reflexivity].
Defined.

(** * Any order of answers drains the pool *)

Section AnyOrder.

Variable hc : option nat.

Lemma answeredRun_deliver (ms : list Msg.t) :
  forall s, reached answered hc s -> answeredRun ms s ->
    reached answered hc (deliver ms s) /\
    busyCount (deliver ms s) + List.length (queueRef (deliver ms s)) + List.length ms
    = busyCount s + List.length (queueRef s) /\
    Progress.total (progress (deliver ms s)) = Progress.total (progress s) /\
    Progress.current (progress (deliver ms s))
    = (Progress.current (progress s) + Z.of_nat (List.length ms))%Z.
Proof.
  induction ms as [|m ms IH]; intros s Hs Hrun.
  - simpl. repeat split; [exact Hs | lia | lia].
  - destruct Hrun as [Hheld Hrun].
    destruct (IH (handleWorkerMessage m s)) as (H1 & H2 & H3 & H4).
    + now apply reached_message.
    + exact Hrun.
    + pose proof (answered_measure m s Hheld) as Hm.
      unfold deliver in *. simpl fold_left. simpl List.length.
      rewrite handleWorkerMessage_progress in H3, H4. simpl in H3, H4.
      repeat split; [exact H1 | lia | exact H3 | lia].
Qed.

End AnyOrder.

(** X19. Whatever the order of completion: from a state reached with
    answered messages, any sequence of results in which each result is for
    a task a busy worker holds when it arrives adds one to [current] per
    result and keeps [total]; it cannot be longer than the number of busy
    workers and queued tasks, and when it is that long the pool is drained:
    no worker busy, empty queue, [isProcessing] off and
    [current = total]. *)
Theorem any_answer_order_drains (hc : option nat) (ms : list Msg.t) (s : state) :
  reached answered hc s -> answeredRun ms s ->
  List.length ms <= busyCount s + List.length (queueRef s) /\
  Progress.total (progress (deliver ms s)) = Progress.total (progress s) /\
  Progress.current (progress (deliver ms s))
  = (Progress.current (progress s) + Z.of_nat (List.length ms))%Z /\
  (List.length ms = busyCount s + List.length (queueRef s) ->
   busyCount (deliver ms s) = 0 /\
   queueRef (deliver ms s) = [] /\
   isProcessing (deliver ms s) = false /\
   Progress.current (progress (deliver ms s)) = Progress.total (progress s)).
Proof.
  intros Hs Hrun.
  destruct (answeredRun_deliver hc ms s Hs Hrun) as (Hd & Hm & Ht & Hc).
  split; [lia|]. split; [exact Ht|]. split; [exact Hc|].
  intros Hlen.
  assert (Hz : busyCount (deliver ms s) = 0) by lia.
  pose proof (reached_reachable hc _ _ Hd) as Hr.
  destruct (idle_pool_nothing_left hc _ Hr Hz) as (Hq & Hf).
  pose proof (reached_balanced hc _ Hd) as Hbal. unfold balanced in Hbal.
  rewrite Hz, Hq, Ht in Hbal. simpl in Hbal.
  repeat split; try assumption. lia.
Qed.

Lemma any_answer_order_drains_witness :
  reached answered (Some 2) Scenario.started /\
  answeredRun [Scenario.failed2; Scenario.done1; Scenario.done3] Scenario.started /\
  busyCount (deliver [Scenario.failed2; Scenario.done1; Scenario.done3] Scenario.started)
  = 0 /\
  Progress.current
    (progress (deliver [Scenario.failed2; Scenario.done1; Scenario.done3]
                       Scenario.started))
  = Progress.total (progress Scenario.started).
Proof.
  assert (Hrun : answeredRun [Scenario.failed2; Scenario.done1; Scenario.done3]
                             Scenario.started).
  { vm_compute. repeat split; discriminate. }
  split; [exact answered_started|]. split; [exact Hrun|].
  destruct (any_answer_order_drains (Some 2)
              [Scenario.failed2; Scenario.done1; Scenario.done3] Scenario.started
              answered_started Hrun) as (_ & _ & _ & Hall).
  destruct Hall as (H1 & _ & _ & H2); [vm_compute; reflexivity|].
  split; [exact H1 | exact H2].
Defined.
